(** * A shallow embedding of the go-wal write-ahead log (finalLof/main.go)

    The Go program keeps a directory of segment files [wal_<index>.log],
    appends one JSON line per log entry through a buffered writer, flushes
    and fsyncs after every entry, and rotates to a fresh segment once the
    current one has reached [maxSegmentSize] bytes.

    Modelling choices, all following the source:
    - Go [string]s are byte strings: [string] of the Standard Library.
    - [int] and [int64] are 64-bit two's complement integers (the program is
      built for a 64-bit target); they are carried as [Z] and every
      arithmetic operation of the source is followed by [wrap64].
    - The process-wide map [segmentNameCache] is a [gmap string string].
    - Everything outside the [WAL] struct (the file system, the table of open
      files, the name cache) lives in a [World] that is threaded through a
      small state monad.  Operating-system calls can fail: each fallible call
      consumes one entry of the [faults] script of the world, so that every
      failure pattern of the real system is an input of the model.  Every
      library call made by the source is recorded in [trace], in order.
    - The mutex [mu] serialises whole calls of [WriteLog]: a call is one
      step of the model, which is what a caller holding the lock observes.
      [handleWrite] gives the mutex up between its [WriteLog] and its reads
      of the engine; the calls of [WriteLog] that other requests complete
      at these points are inputs of the model. *)

From Stdlib Require Import ZArith String Ascii List Lia DecimalString DecimalZ DecimalPos DecimalFacts.
From stdpp Require Import base option gmap strings list sorting.

Local Open Scope string_scope.
Local Open Scope Z_scope.

(** ** Constants of the source *)

Definition segmentPrefix : string := "wal_".
Definition maxSegmentSize : Z := 500.
Definition walDir : string := "wal_data".
Definition bufferSize : nat := 4096.

(** ** Machine integers *)

Definition wrap64 (z : Z) : Z := (z + 2 ^ 63) mod 2 ^ 64 - 2 ^ 63.

Definition in_int64 (z : Z) : Prop := - 2 ^ 63 <= z < 2 ^ 63.

Definition in_int64b (z : Z) : bool := (- 2 ^ 63 <=? z) && (z <? 2 ^ 63).

(** ** Strings: the functions of packages [strings], [strconv] and [fmt]
    that the source calls *)

Fixpoint string_drop (n : nat) (s : string) : string :=
  match n, s with
  | O, _ => s
  | S n', String _ s' => string_drop n' s'
  | S _, EmptyString => EmptyString
  end.

Fixpoint string_take (n : nat) (s : string) : string :=
  match n, s with
  | O, _ => EmptyString
  | S n', String c s' => String c (string_take n' s')
  | S _, EmptyString => EmptyString
  end.

(** [strings.HasPrefix(s, prefix)] *)
Definition HasPrefix (s prefix : string) : bool := String.prefix prefix s.

(** [strings.HasSuffix(s, suffix)] *)
Definition HasSuffix (s suffix : string) : bool :=
  (String.length suffix <=? String.length s)%nat
  && String.eqb (string_drop (String.length s - String.length suffix) s) suffix.

(** [strings.TrimPrefix(s, prefix)]: [s] without the leading [prefix], or
    [s] itself when it does not start with it. *)
Definition TrimPrefix (s prefix : string) : string :=
  if HasPrefix s prefix then string_drop (String.length prefix) s else s.

(** [strings.TrimSuffix(s, suffix)] *)
Definition TrimSuffix (s suffix : string) : string :=
  if HasSuffix s suffix
  then string_take (String.length s - String.length suffix) s
  else s.

(** The [%d] verb of [fmt.Sprintf]: decimal, a leading [-] for negative
    numbers, no padding. *)
Definition itoa (z : Z) : string := NilZero.string_of_int (Z.to_int z).

Definition digit_of_ascii (c : ascii) : option Z :=
  let n := Z.of_nat (nat_of_ascii c) in
  if (48 <=? n) && (n <=? 57) then Some (n - 48) else None.

(** The digit loop of [strconv]: every byte must be a decimal digit. *)
Fixpoint parse_digits (acc : Z) (s : string) : option Z :=
  match s with
  | EmptyString => Some acc
  | String c s' =>
      match digit_of_ascii c with
      | Some d => parse_digits (acc * 10 + d) s'
      | None => None
      end
  end.

(** [strconv.Atoi]: an optional sign followed by at least one decimal
    digit; [None] stands for the syntax error and for the range error that
    the function reports when the value does not fit an [int]. *)
Definition Atoi (s : string) : option Z :=
  match s with
  | EmptyString => None
  | String c rest =>
      let neg := Ascii.eqb c "-" in
      let digits := if neg || Ascii.eqb c "+" then rest else s in
      match digits with
      | EmptyString => None
      | _ =>
          match parse_digits 0 digits with
          | Some n =>
              let v := if neg then - n else n in
              if in_int64b v then Some v else None
          | None => None
          end
      end
  end.

(** ** Paths: [filepath.Join] on a Unix system *)

Fixpoint split_slash_aux (cur : string) (s : string) : list string :=
  match s with
  | EmptyString => [cur]
  | String c s' =>
      if Ascii.eqb c "/" then cur :: split_slash_aux "" s'
      else split_slash_aux (cur +:+ String c "") s'
  end.

Definition split_slash (s : string) : list string := split_slash_aux "" s.

Fixpoint join_slash (l : list string) : string :=
  match l with
  | [] => ""
  | [x] => x
  | x :: l' => x +:+ "/" +:+ join_slash l'
  end.

(** One path element of [filepath.Clean]; [stack] holds the elements kept so
    far, innermost first. *)
Definition clean_step (rooted : bool) (stack : list string) (c : string)
  : list string :=
  if String.eqb c "" || String.eqb c "." then stack
  else if String.eqb c ".." then
    match stack with
    | top :: rest =>
        if String.eqb top ".." then c :: stack else rest
    | [] => if rooted then [] else [c]
    end
  else c :: stack.

(** [filepath.Clean]: the shortest path equivalent to [path] by purely
    lexical processing. *)
Definition filepath_Clean (path : string) : string :=
  match path with
  | EmptyString => "."
  | String c _ =>
      let rooted := Ascii.eqb c "/" in
      let kept := rev (fold_left (clean_step rooted) (split_slash path) []) in
      if rooted then "/" +:+ join_slash kept
      else match kept with
           | [] => "."
           | _ => join_slash kept
           end
  end.

(** [filepath.Join(elem...)]: leading empty elements are ignored, the rest
    is joined with the separator and cleaned. *)
Fixpoint filepath_Join (elem : list string) : string :=
  match elem with
  | [] => ""
  | e :: rest =>
      if String.eqb e "" then filepath_Join rest
      else filepath_Clean (join_slash elem)
  end.

(** The base name [fmt.Sprintf("%s%d.log", segmentPrefix, index)]. *)
Definition segmentBaseName (index : Z) : string :=
  segmentPrefix +:+ itoa index +:+ ".log".

(** The cache key [fmt.Sprintf("%s:%d", directory, index)]. *)
Definition cacheKey (directory : string) (index : Z) : string :=
  directory +:+ ":" +:+ itoa index.

(** The path that [segmentFileName] computes when the cache misses. *)
Definition segmentPath (directory : string) (index : Z) : string :=
  filepath_Join [directory; segmentBaseName index].

(** ** Errors

    [Errorf msg cause] stands for [fmt.Errorf(msg ++ ": %v", cause)]; the
    other constructors are the errors that the libraries report. *)

Inductive error : Type :=
| Errno (code : nat)
| ErrClosed
| ErrNotExist
| ErrNotDir
| ErrIsDir
| ErrMarshal
| ErrSyntax
| ErrUnmarshalType
| Errorf (msg : string) (cause : error).

Inductive result (A : Type) : Type :=
| Ok (a : A)
| Err (e : error).
Arguments Ok {A} a.
Arguments Err {A} e.

(** ** The world outside the [WAL] struct *)

(** A regular file: the bytes written so far, and the bytes that had been
    written at the last successful [fsync] (what survives a crash). *)
Record File : Type := { data : string; synced : string }.

(** The file system of the model holds directories and regular files.
    Symbolic links, FIFOs, sockets and devices are not modelled; where a
    statement is about directory entries of any kind, it speaks of the
    entries for which [IsDir()] is false, not of regular files. *)
Inductive Node : Type :=
| Dir
| Reg (f : File).

(** [*os.File]: the descriptor and the name the file was opened with. *)
Record osFile : Type := { fd : nat; name : string }.

(** [os.DirEntry] *)
Record DirEntry : Type := { Name : string; IsDir : bool }.

(** Flags of [os.OpenFile] (package [syscall] on Linux). *)
Definition O_RDWR : Z := 2.
Definition O_CREATE : Z := 64.
Definition O_APPEND : Z := 1024.

(** The library calls of the source, as they are recorded in the trace. *)
Inductive Event : Type :=
| EvMkdirAll (path : string)
| EvReadDir (path : string)
| EvOpenFile (path : string) (flags : Z)
| EvStat (f : osFile)
| EvEncode (offset : Z) (topic : string)
| EvWrite (f : osFile) (bytes : string)
| EvFlush (f : osFile)
| EvSync (f : osFile)
| EvClose (f : osFile).

Record World : Type := {
  fs : gmap string Node;
  fdtable : gmap nat string;
  nextfd : nat;
  faults : list (option nat);
  trace : list Event;
  segmentNameCache : gmap string string
}.

Definition set_fs (f : gmap string Node -> gmap string Node) (o : World) : World :=
  {| fs := f (fs o); fdtable := fdtable o; nextfd := nextfd o;
     faults := faults o; trace := trace o;
     segmentNameCache := segmentNameCache o |}.

Definition set_fdtable (f : gmap nat string -> gmap nat string) (o : World) : World :=
  {| fs := fs o; fdtable := f (fdtable o); nextfd := nextfd o;
     faults := faults o; trace := trace o;
     segmentNameCache := segmentNameCache o |}.

Definition set_nextfd (n : nat) (o : World) : World :=
  {| fs := fs o; fdtable := fdtable o; nextfd := n;
     faults := faults o; trace := trace o;
     segmentNameCache := segmentNameCache o |}.

Definition set_faults (l : list (option nat)) (o : World) : World :=
  {| fs := fs o; fdtable := fdtable o; nextfd := nextfd o;
     faults := l; trace := trace o;
     segmentNameCache := segmentNameCache o |}.

Definition set_trace (f : list Event -> list Event) (o : World) : World :=
  {| fs := fs o; fdtable := fdtable o; nextfd := nextfd o;
     faults := faults o; trace := f (trace o);
     segmentNameCache := segmentNameCache o |}.

Definition set_segmentNameCache
    (f : gmap string string -> gmap string string) (o : World) : World :=
  {| fs := fs o; fdtable := fdtable o; nextfd := nextfd o;
     faults := faults o; trace := trace o;
     segmentNameCache := f (segmentNameCache o) |}.

(** ** A state monad *)

Definition M (S A : Type) : Type := S -> A * S.

Definition ret {S A : Type} (a : A) : M S A := fun s => (a, s).

Definition bind {S A B : Type} (m : M S A) (k : A -> M S B) : M S B :=
  fun s => let (a, s') := m s in k a s'.

Definition gets {S A : Type} (f : S -> A) : M S A := fun s => (f s, s).

Definition modify {S : Type} (f : S -> S) : M S unit := fun s => (tt, f s).

Declare Scope go_scope.
Delimit Scope go_scope with go.
Notation "x <- c1 ;; c2" := (bind c1 (fun x => c2))
  (at level 100, c1 at next level, right associativity) : go_scope.
Notation "c1 ;; c2" := (bind c1 (fun _ => c2))
  (at level 100, right associativity) : go_scope.
Local Open Scope go_scope.

(** ** Operating-system calls *)

Definition emit (ev : Event) : M World unit :=
  modify (set_trace (fun t => (t ++ [ev])%list)).

(** The next entry of the fault script: [Some code] makes the call in
    progress fail with [Errno code]; a script that has run out lets every
    further call succeed. *)
Definition nextFault : M World (option error) :=
  fun o =>
    match faults o with
    | [] => (None, o)
    | f :: rest => (Errno <$> f, set_faults rest o)
    end.

Definition file_data (o : World) (path : string) : string :=
  match fs o !! path with
  | Some (Reg f) => data f
  | _ => ""
  end.

Definition file_synced (o : World) (path : string) : string :=
  match fs o !! path with
  | Some (Reg f) => synced f
  | _ => ""
  end.

Definition is_open (o : World) (f : osFile) : bool :=
  bool_decide (fdtable o !! fd f = Some (name f)).

(** [os.MkdirAll(path, perm)] *)
Definition os_MkdirAll (path : string) : M World (option error) :=
  emit (EvMkdirAll path) ;;
  node <- gets (fun o => fs o !! path) ;;
  match node with
  | Some Dir => ret None
  | Some (Reg _) => ret (Some ErrNotDir)
  | None =>
      flt <- nextFault ;;
      match flt with
      | Some e => ret (Some e)
      | None => modify (set_fs (insert path Dir)) ;; ret None
      end
  end.

(** The entry that [path] contributes to the listing of [directory]: its
    base name, when [path] lies directly inside [directory]. *)
Definition entry_in (directory : string) (path : string) (n : Node)
  : option DirEntry :=
  let pre := directory +:+ "/" in
  if HasPrefix path pre then
    match split_slash (string_drop (String.length pre) path) with
    | [base] =>
        if String.eqb base "" then None
        else Some {| Name := base;
                     IsDir := match n with Dir => true | Reg _ => false end |}
    | _ => None
    end
  else None.

Definition byName (a b : DirEntry) : Prop :=
  Is_true (String.leb (Name a) (Name b)).

#[local] Instance byName_dec (a b : DirEntry) : Decision (byName a b) :=
  Is_true_dec _.

(** The listing of a directory, sorted by file name as [os.ReadDir]
    returns it. *)
Definition list_dir (o : World) (directory : string) : list DirEntry :=
  merge_sort byName
    (omap (fun '(path, n) => entry_in directory path n) (map_to_list (fs o))).

(** [os.ReadDir(name)] *)
Definition os_ReadDir (directory : string) : M World (result (list DirEntry)) :=
  emit (EvReadDir directory) ;;
  node <- gets (fun o => fs o !! directory) ;;
  match node with
  | Some Dir =>
      flt <- nextFault ;;
      match flt with
      | Some e => ret (Err e)
      | None => entries <- gets (fun o => list_dir o directory) ;; ret (Ok entries)
      end
  | Some (Reg _) => ret (Err ErrNotDir)
  | None => ret (Err ErrNotExist)
  end.

(** [os.OpenFile(path, flags, perm)] *)
Definition os_OpenFile (path : string) (flags : Z) : M World (result osFile) :=
  emit (EvOpenFile path flags) ;;
  flt <- nextFault ;;
  match flt with
  | Some e => ret (Err e)
  | None =>
      node <- gets (fun o => fs o !! path) ;;
      match node with
      | Some Dir => ret (Err ErrIsDir)
      | None =>
          if Z.eqb (Z.land flags O_CREATE) 0 then ret (Err ErrNotExist)
          else
            modify (set_fs (insert path (Reg {| data := ""; synced := "" |}))) ;;
            n <- gets nextfd ;;
            modify (fun o => set_nextfd (S n) (set_fdtable (insert n path) o)) ;;
            ret (Ok {| fd := n; name := path |})
      | Some (Reg _) =>
          n <- gets nextfd ;;
          modify (fun o => set_nextfd (S n) (set_fdtable (insert n path) o)) ;;
          ret (Ok {| fd := n; name := path |})
      end
  end.

(** [file.Stat()], reduced to the size it reports. *)
Definition file_Stat (f : osFile) : M World (result Z) :=
  emit (EvStat f) ;;
  opened <- gets (fun o => is_open o f) ;;
  if negb opened then ret (Err ErrClosed)
  else
    flt <- nextFault ;;
    match flt with
    | Some e => ret (Err e)
    | None =>
        d <- gets (fun o => file_data o (name f)) ;;
        ret (Ok (Z.of_nat (String.length d)))
    end.

(** [file.Write(bytes)] on a file opened with [O_APPEND]: the bytes go to
    the end of the file.  A failing write writes nothing. *)
Definition append_data (o : World) (path bytes : string) : Node :=
  Reg {| data := file_data o path +:+ bytes; synced := file_synced o path |}.

Definition file_Write (f : osFile) (bytes : string) : M World (option error) :=
  emit (EvWrite f bytes) ;;
  opened <- gets (fun o => is_open o f) ;;
  if negb opened then ret (Some ErrClosed)
  else
    flt <- nextFault ;;
    match flt with
    | Some e => ret (Some e)
    | None =>
        modify (fun o => set_fs (insert (name f) (append_data o (name f) bytes)) o) ;;
        ret None
    end.

(** [file.Sync()]: what has been written becomes durable. *)
Definition sync_data (o : World) (path : string) : Node :=
  Reg {| data := file_data o path; synced := file_data o path |}.

Definition file_Sync (f : osFile) : M World (option error) :=
  emit (EvSync f) ;;
  opened <- gets (fun o => is_open o f) ;;
  if negb opened then ret (Some ErrClosed)
  else
    flt <- nextFault ;;
    match flt with
    | Some e => ret (Some e)
    | None =>
        modify (fun o => set_fs (insert (name f) (sync_data o (name f))) o) ;;
        ret None
    end.

(** [file.Close()]: the descriptor is released even when the call reports
    an error. *)
Definition file_Close (f : osFile) : M World (option error) :=
  emit (EvClose f) ;;
  opened <- gets (fun o => is_open o f) ;;
  if negb opened then ret (Some ErrClosed)
  else
    modify (set_fdtable (delete (fd f))) ;;
    nextFault.

(** ** [bufio.Writer] *)

Record Writer : Type := {
  wr : osFile;
  size : nat;
  buf : string;
  werr : option error
}.

Definition set_buf (s : string) (b : Writer) : Writer :=
  {| wr := wr b; size := size b; buf := s; werr := werr b |}.

Definition set_werr (e : error) (b : Writer) : Writer :=
  {| wr := wr b; size := size b; buf := buf b; werr := Some e |}.

(** [bufio.NewWriterSize(file, size)] *)
Definition NewWriterSize (f : osFile) (n : nat) : Writer :=
  {| wr := f; size := n; buf := ""; werr := None |}.

Definition Available (b : Writer) : nat := (size b - String.length (buf b))%nat.

(** [b.Flush()]: a writer in error stays in error; an empty buffer needs no
    write; otherwise the buffer goes to the file in one write. *)
Definition Writer_Flush (b : Writer) : M World (option error * Writer) :=
  emit (EvFlush (wr b)) ;;
  match werr b with
  | Some e => ret (Some e, b)
  | None =>
      match buf b with
      | EmptyString => ret (None, b)
      | pending =>
          r <- file_Write (wr b) pending ;;
          match r with
          | Some e => ret (Some e, set_werr e b)
          | None => ret (None, set_buf "" b)
          end
      end
  end.

(** [b.Write(p)]: bytes that fit are buffered; a write larger than the
    free space goes straight to the file when the buffer is empty, and
    otherwise fills the buffer, flushes it and carries on with the rest. *)
Definition Writer_Write (b : Writer) (p : string) : M World (option error * Writer) :=
  match werr b with
  | Some e => ret (Some e, b)
  | None =>
      if (String.length p <=? Available b)%nat then
        ret (None, set_buf (buf b +:+ p) b)
      else
        match buf b with
        | EmptyString =>
            r <- file_Write (wr b) p ;;
            match r with
            | Some e => ret (Some e, set_werr e b)
            | None => ret (None, b)
            end
        | _ =>
            let n := Available b in
            r <- Writer_Flush (set_buf (buf b +:+ string_take n p) b) ;;
            let (err, b1) := r in
            match err with
            | Some e => ret (Some e, b1)
            | None =>
                let rest := string_drop n p in
                if (String.length rest <=? Available b1)%nat then
                  ret (None, set_buf (buf b1 +:+ rest) b1)
                else
                  r <- file_Write (wr b1) rest ;;
                  match r with
                  | Some e => ret (Some e, set_werr e b1)
                  | None => ret (None, b1)
                  end
            end
        end
  end.

(** ** The data model of the source *)

Record LogEntry (P : Type) : Type := {
  Offset : Z;
  Topic : string;
  Payload : P
}.
Arguments Offset {P} _.
Arguments Topic {P} _.
Arguments Payload {P} _.

(** [*json.Encoder]: its writer is the [writer] of the [WAL] that owns it
    (the source creates the two together, in [newWriteAheadLOG] and in
    [rotateSegment]); what it keeps of its own is the error of a failed
    write, which it then reports on every later call. *)
Record Encoder : Type := { enc_err : option error }.

Definition NewEncoder : Encoder := {| enc_err := None |}.

Record WAL : Type := {
  directory : string;
  currentSegment : osFile;
  writer : Writer;
  currentSegmentIndex : Z;
  offset : Z;
  encoder : Encoder
}.

Definition set_currentSegment (f : osFile) (w : WAL) : WAL :=
  {| directory := directory w; currentSegment := f; writer := writer w;
     currentSegmentIndex := currentSegmentIndex w; offset := offset w;
     encoder := encoder w |}.

Definition set_writer (b : Writer) (w : WAL) : WAL :=
  {| directory := directory w; currentSegment := currentSegment w; writer := b;
     currentSegmentIndex := currentSegmentIndex w; offset := offset w;
     encoder := encoder w |}.

Definition set_currentSegmentIndex (i : Z) (w : WAL) : WAL :=
  {| directory := directory w; currentSegment := currentSegment w;
     writer := writer w; currentSegmentIndex := i; offset := offset w;
     encoder := encoder w |}.

Definition set_offset (n : Z) (w : WAL) : WAL :=
  {| directory := directory w; currentSegment := currentSegment w;
     writer := writer w; currentSegmentIndex := currentSegmentIndex w;
     offset := n; encoder := encoder w |}.

Definition set_encoder (e : Encoder) (w : WAL) : WAL :=
  {| directory := directory w; currentSegment := currentSegment w;
     writer := writer w; currentSegmentIndex := currentSegmentIndex w;
     offset := offset w; encoder := e |}.

(** The state a method of [*WAL] runs on: the struct and the world. *)
Definition St : Type := WAL * World.

Definition liftW {A : Type} (m : M World A) : M St A :=
  fun s => let (a, o) := m (snd s) in (a, (fst s, o)).

Definition getWAL : M St WAL := gets fst.

Definition modifyWAL (f : WAL -> WAL) : M St unit :=
  modify (fun s => (f (fst s), snd s)).

(** ** Segment names *)

(** [segmentFileName]: the path of segment [index] in [directory], looked
    up in the process-wide cache first and stored there when computed. *)
Definition segmentFileName (directory : string) (index : Z) : M World string :=
  let key := cacheKey directory index in
  cached <- gets (fun o => segmentNameCache o !! key) ;;
  match cached with
  | Some name => ret name
  | None =>
      let name := filepath_Join [directory; segmentBaseName index] in
      modify (set_segmentNameCache (insert key name)) ;;
      ret name
  end.

(** ** Locating the last segment *)

(** The body of the loop of [findLastSegemtIndex]. *)
Definition scanEntry (maxIndex : Z) (entry : DirEntry) : Z :=
  if IsDir entry || negb (HasPrefix (Name entry) segmentPrefix) then maxIndex
  else
    let name := Name entry in
    let indexStr := TrimPrefix name segmentPrefix in
    let indexStr := TrimSuffix indexStr ".log" in
    match Atoi indexStr with
    | Some index => if maxIndex <? index then index else maxIndex
    | None => maxIndex
    end.

Definition findLastSegemtIndex (directory : string) : M World (Z * option error) :=
  r <- os_ReadDir directory ;;
  match r with
  | Err _ => ret (1, None)
  | Ok entries =>
      let maxIndex := fold_left scanEntry entries 0 in
      if maxIndex =? 0 then ret (1, None) else ret (maxIndex, None)
  end.

(** ** Opening the log *)

Definition calculateOffset (file : osFile) : M World (Z * option error) :=
  r <- file_Stat file ;;
  match r with
  | Err e => ret (0, Some e)
  | Ok sz => ret (sz, None)
  end.

Definition openFlags : Z := Z.lor (Z.lor O_CREATE O_RDWR) O_APPEND.

Definition newWriteAheadLOG : M World (result WAL) :=
  err <- os_MkdirAll walDir ;;
  match err with
  | Some e => ret (Err (Errorf "failed to create wal directory" e))
  | None =>
  r <- findLastSegemtIndex walDir ;;
  let (segementIndex, err) := r in
  match err with
  | Some e => ret (Err (Errorf "failed to find last segment index" e))
  | None =>
  path <- segmentFileName walDir segementIndex ;;
  r <- os_OpenFile path openFlags ;;
  match r with
  | Err e => ret (Err (Errorf "failed to open segment file" e))
  | Ok file =>
  r <- calculateOffset file ;;
  let (off, err) := r in
  match err with
  | Some e =>
      file_Close file ;;
      ret (Err (Errorf "failed to calculate offset" e))
  | None =>
  let writer := NewWriterSize file bufferSize in
  ret (Ok {| directory := walDir;
             currentSegment := file;
             writer := writer;
             currentSegmentIndex := segementIndex;
             offset := wrap64 (1 + off);
             encoder := NewEncoder |})
  end end end end.

(** ** Appending *)

Section Engine.

(** The payload is an [interface{}] that the engine only hands to the
    encoder.  [jsonMarshal] is [json.Marshal] on a log entry: the JSON text
    of the entry, or [None] when the payload holds a value that JSON
    cannot represent. *)
Context {P : Type}.
Variable jsonMarshal : LogEntry P -> option string.

(** [w.encoder.Encode(entry)]: marshal, add a newline, write to the
    buffered writer. *)
Definition Encode (entry : LogEntry P) : M St (option error) :=
  liftW (emit (EvEncode (Offset entry) (Topic entry))) ;;
  w <- getWAL ;;
  match enc_err (encoder w) with
  | Some e => ret (Some e)
  | None =>
      match jsonMarshal entry with
      | None => ret (Some ErrMarshal)
      | Some js =>
          r <- liftW (Writer_Write (writer w) (js +:+ String "010" "")) ;;
          let (err, b) := r in
          modifyWAL (set_writer b) ;;
          match err with
          | Some e => modifyWAL (set_encoder {| enc_err := Some e |}) ;; ret (Some e)
          | None => ret None
          end
      end
  end.

Definition FlushE : M St (option error) :=
  w <- getWAL ;;
  r <- liftW (Writer_Flush (writer w)) ;;
  let (err, b) := r in
  modifyWAL (set_writer b) ;;
  match err with
  | Some e => ret (Some (Errorf "failed to flush writer" e))
  | None =>
      err <- liftW (file_Sync (currentSegment w)) ;;
      match err with
      | Some e => ret (Some (Errorf "failed to sync segment file" e))
      | None => ret None
      end
  end.

Definition rotateSegment : M St (option error) :=
  err <- FlushE ;;
  match err with
  | Some e => ret (Some e)
  | None =>
  w <- getWAL ;;
  err <- liftW (file_Close (currentSegment w)) ;;
  match err with
  | Some e => ret (Some e)
  | None =>
  modifyWAL (set_currentSegmentIndex (wrap64 (currentSegmentIndex w + 1))) ;;
  w <- getWAL ;;
  path <- liftW (segmentFileName (directory w) (currentSegmentIndex w)) ;;
  r <- liftW (os_OpenFile path openFlags) ;;
  match r with
  | Err e => ret (Some (Errorf "failed to open new segment file" e))
  | Ok file =>
  modifyWAL (set_currentSegment file) ;;
  modifyWAL (set_writer (NewWriterSize file bufferSize)) ;;
  modifyWAL (set_encoder NewEncoder) ;;
  w <- getWAL ;;
  modifyWAL (set_offset (wrap64 (offset w + 1))) ;;
  ret None
  end end end.

Definition WriteLog (topic : string) (payload : P) : M St (option error) :=
  w <- getWAL ;;
  let entry := {| Offset := offset w; Topic := topic; Payload := payload |} in
  err <- Encode entry ;;
  match err with
  | Some e => ret (Some (Errorf "failed to encode log entry" e))
  | None =>
  err <- FlushE ;;
  match err with
  | Some e => ret (Some (Errorf "failed to flush log entry" e))
  | None =>
  w <- getWAL ;;
  r <- liftW (file_Stat (currentSegment w)) ;;
  match r with
  | Err e => ret (Some (Errorf "failed to get file info" e))
  | Ok currentFileSize =>
  w <- getWAL ;;
  modifyWAL (set_offset (wrap64 (offset w + 1))) ;;
  if maxSegmentSize <=? currentFileSize then
    err <- rotateSegment ;;
    match err with
    | Some e => ret (Some (Errorf "failed to rotate segment" e))
    | None => ret None
    end
  else ret None
  end end end.

End Engine.

(** A run of calls of [WriteLog], in order, with the result of each: what
    several callers do to one engine, since every call holds [w.mu] from
    its first to its last statement. *)
Fixpoint appendAll {P : Type} (jsonMarshal : LogEntry P -> option string)
    (reqs : list (string * P)) : M St (list (option error)) :=
  match reqs with
  | [] => ret []
  | req :: rest =>
      r <- WriteLog jsonMarshal (fst req) (snd req) ;;
      rs <- appendAll jsonMarshal rest ;;
      ret (r :: rs)
  end.

(** ** The HTTP endpoint *)

(** A JSON value, as [encoding/json] sees it. *)
#[warnings="-register-all"] Inductive json : Type :=
| JNull
| JBool (b : bool)
| JNumber (literal : string)
| JString (s : string)
| JArray (elems : list json)
| JObject (members : list (string * json)).

(** [map[string]interface{}]: [None] is the nil map. *)
Definition GoMap : Type := option (list (string * json)).

(** What [json.NewDecoder(request.Body)] finds at the start of the body: a
    JSON value, or text that is not one (the empty body included). *)
Inductive Body : Type :=
| BodyMalformed
| BodyJSON (v : json).

(** The digits at the start of a string: their value read onto [acc],
    their number added to [count], and the rest of the string. *)
Fixpoint read_digits (acc count : Z) (s : string) : Z * Z * string :=
  match s with
  | String c s' =>
      match digit_of_ascii c with
      | Some d => read_digits (acc * 10 + d) (count + 1) s'
      | None => (acc, count, s)
      end
  | EmptyString => (acc, count, s)
  end.

(** A number literal of JSON (an optional minus sign, digits, an optional
    fraction, an optional exponent) as a pair [(m, e)]: its absolute value
    is [m * 10 ^ e].  [None] for a string that is no such literal. *)
Definition parse_number (literal : string) : option (Z * Z) :=
  let s := match literal with
           | String c rest => if Ascii.eqb c "-" then rest else literal
           | EmptyString => literal
           end in
  let '(m, n, rest) := read_digits 0 0 s in
  if n =? 0 then None
  else
    let '(m, f, rest) :=
      match rest with
      | String c r => if Ascii.eqb c "." then read_digits m 0 r else (m, 0, rest)
      | EmptyString => (m, 0, rest)
      end in
    match rest with
    | EmptyString => Some (m, - f)
    | String c r =>
        if Ascii.eqb c "e" || Ascii.eqb c "E" then
          let '(neg, r) :=
            match r with
            | String c' r' =>
                if Ascii.eqb c' "-" then (true, r')
                else if Ascii.eqb c' "+" then (false, r')
                else (false, r)
            | EmptyString => (false, r)
            end in
          let '(e, k, rest') := read_digits 0 0 r in
          if (k =? 0) || negb (String.eqb rest' "") then None
          else Some (m, (if neg then - e else e) - f)
        else None
    end.

(** The least absolute value that [strconv.ParseFloat(s, 64)] rounds to
    infinity: half a unit in the last place above the largest [float64]. *)
Definition float64_limit : Z := 2 ^ 1024 - 2 ^ 970.

(** [strconv.ParseFloat(literal, 64)] reports no range error: the decoder
    turns every number of the body into a [float64] this way. *)
Definition float64_fits (literal : string) : bool :=
  match parse_number literal with
  | Some (m, e) =>
      if 0 <=? e then m * 10 ^ e <? float64_limit
      else m <? float64_limit * 10 ^ (- e)
  | None => false
  end.

(** The nesting limit of the scanner of [encoding/json]. *)
Definition maxNestingDepth : Z := 10000.

Fixpoint json_depth (v : json) : Z :=
  match v with
  | JArray elems => 1 + fold_right Z.max 0 (map json_depth elems)
  | JObject members =>
      1 + fold_right Z.max 0 (map (fun kv => json_depth (snd kv)) members)
  | _ => 0
  end.

Fixpoint numbers_fit (v : json) : bool :=
  match v with
  | JNumber literal => float64_fits literal
  | JArray elems => forallb numbers_fit elems
  | JObject members => forallb (fun kv => numbers_fit (snd kv)) members
  | _ => true
  end.

(** [Decode(&payload)] with [payload] a [map[string]interface{}].  The
    decoder first scans the whole value, which fails for a value nested
    deeper than the limit; then an object fills the map, [null] leaves the
    nil map and reports no error, and any other value is a type error.  A
    number of the object that does not fit a [float64] is a type error
    too, reported once the object has been read. *)
Definition decodeMap (b : Body) : result GoMap :=
  match b with
  | BodyMalformed => Err ErrSyntax
  | BodyJSON v =>
      if maxNestingDepth <? json_depth v then Err ErrSyntax
      else
        match v with
        | JObject members =>
            if numbers_fit v then Ok (Some members) else Err ErrUnmarshalType
        | JNull => Ok None
        | _ => Err ErrUnmarshalType
        end
  end.

Record Request : Type := {
  Method : string;
  Query : list (string * string);
  RequestBody : Body
}.

(** [request.URL.Query().Get(key)]: the first value of [key], or the empty
    string. *)
Fixpoint Query_Get (q : list (string * string)) (key : string) : string :=
  match q with
  | [] => ""
  | (k, v) :: q' => if String.eqb k key then v else Query_Get q' key
  end.

Definition MethodPost : string := "POST".
Definition StatusCreated : Z := 201.
Definition StatusBadRequest : Z := 400.
Definition StatusMethodNotAllowed : Z := 405.
Definition StatusInternalServerError : Z := 500.

(** The JSON object that [handleWrite] sends back. *)
Record WriteReply : Type := {
  reply_offset : Z;
  reply_segment : Z;
  reply_topic : string;
  reply_payload : GoMap;
  reply_message : string;
  reply_fileSize : string
}.

Inductive ResponseBody : Type :=
| TextBody (msg : string)
| JSONBody (reply : WriteReply).

Record Response : Type := { status : Z; body : ResponseBody }.

(** [http.Error(writer, msg, code)] *)
Definition http_Error (msg : string) (code : Z) : Response :=
  {| status := code; body := TextBody msg |}.

Section Ingress.

Variable jsonMarshal : LogEntry GoMap -> option string.

(** The server runs one goroutine per request, all on the same [*WAL].
    [handleWrite] holds [w.mu] during its [WriteLog] and again while it
    reads [w.offset] and [w.currentSegmentIndex]; it reads
    [w.currentSegment] later, without the mutex.  What other requests do to
    the engine in the meantime are whole calls of [WriteLog]: [between] are
    those that complete after the [WriteLog] of this request and before its
    second lock, [late] those that complete (or have replaced the segment)
    after its unlock and before its read of [w.currentSegment].  The state
    the handler starts from is the engine as its [WriteLog] finds it. *)
Variables between late : list (string * GoMap).

Definition handleWrite (request : Request) : M St Response :=
  match decodeMap (RequestBody request) with
  | Err _ => ret (http_Error "Invalid payload" StatusBadRequest)
  | Ok payload =>
      let topic := Query_Get (Query request) "topic" in
      let topic := if String.eqb topic "" then "default" else topic in
      err <- WriteLog jsonMarshal topic payload ;;
      match err with
      | Some _ => ret (http_Error "Failed to write log" StatusInternalServerError)
      | None =>
          appendAll jsonMarshal between ;;
          w <- getWAL ;;
          let currentOffset := offset w in
          let currentSegment_ := currentSegmentIndex w in
          appendAll jsonMarshal late ;;
          w <- getWAL ;;
          ret {| status := StatusCreated;
                 body := JSONBody
                   {| reply_offset := currentOffset;
                      reply_segment := currentSegment_;
                      reply_topic := topic;
                      reply_payload := payload;
                      reply_message := "Log entry written successfully";
                      reply_fileSize := name (currentSegment w) |} |}
      end
  end.

Definition ServerHTTP (request : Request) : M St Response :=
  if String.eqb (Method request) MethodPost then handleWrite request
  else ret (http_Error "Method not allowed" StatusMethodNotAllowed).

End Ingress.

(** ** Notions used in the statements *)

(** The name cache answers every key it holds with the path that
    [segmentFileName] computes for that key. *)
Definition cache_consistent (c : gmap string string) : Prop :=
  forall (d : string) (i : Z) (cached : string),
    c !! cacheKey d i = Some cached -> cached = segmentPath d i.

(** The world at process start: [segmentNameCache] is the empty map that
    [make] returns. *)
Definition freshProcess (o : World) : World :=
  set_segmentNameCache (fun _ => ∅) o.

(** A run of calls to [segmentFileName], in order. *)
Fixpoint segmentFileNames (calls : list (string * Z)) : M World (list string) :=
  match calls with
  | [] => ret []
  | call :: rest =>
      n <- segmentFileName (fst call) (snd call) ;;
      ns <- segmentFileNames rest ;;
      ret (n :: ns)
  end.

Fixpoint colon_free (s : string) : bool :=
  match s with
  | EmptyString => true
  | String c s' => negb (Ascii.eqb c ":") && colon_free s'
  end.

(** The value of a decimal numeral read from the left with an accumulator,
    as [parse_digits] reads its string. *)
Fixpoint uint_value (acc : Z) (d : Decimal.uint) : Z :=
  match d with
  | Decimal.Nil => acc
  | Decimal.D0 d' => uint_value (acc * 10 + 0) d'
  | Decimal.D1 d' => uint_value (acc * 10 + 1) d'
  | Decimal.D2 d' => uint_value (acc * 10 + 2) d'
  | Decimal.D3 d' => uint_value (acc * 10 + 3) d'
  | Decimal.D4 d' => uint_value (acc * 10 + 4) d'
  | Decimal.D5 d' => uint_value (acc * 10 + 5) d'
  | Decimal.D6 d' => uint_value (acc * 10 + 6) d'
  | Decimal.D7 d' => uint_value (acc * 10 + 7) d'
  | Decimal.D8 d' => uint_value (acc * 10 + 8) d'
  | Decimal.D9 d' => uint_value (acc * 10 + 9) d'
  end.

(** The index that the loop of [findLastSegemtIndex] reads off a directory
    entry, when it reads one: the entry is not a directory, its name starts
    with the prefix, and what is left of the name once the prefix and a
    trailing [.log] (if there is one) are removed is a numeral for [Atoi]. *)
Definition entryIndex (e : DirEntry) : option Z :=
  if IsDir e then None
  else if HasPrefix (Name e) segmentPrefix
       then Atoi (TrimSuffix (TrimPrefix (Name e) segmentPrefix) ".log")
       else None.

Definition acceptedIndex (entries : list DirEntry) (i : Z) : Prop :=
  0 < i /\ exists e, In e entries /\ entryIndex e = Some i.

(** The segment naming pattern of the on-disk format: the prefix, a positive
    index in decimal without padding, the suffix; these are the base names
    under which the engine creates segments. *)
Definition isSegmentName (n : string) (i : Z) : Prop :=
  0 < i /\ in_int64 i /\ n = segmentBaseName i.

Definition segmentFileIn (entries : list DirEntry) (i : Z) : Prop :=
  exists e, In e entries /\ IsDir e = false /\ isSegmentName (Name e) i.

(** [r] is the highest index among the files of the listing that match the
    naming pattern, or 1 when no file matches. *)
Definition highestSegment (entries : list DirEntry) (r : Z) : Prop :=
  (segmentFileIn entries r /\ forall i, segmentFileIn entries i -> i <= r)
  \/ ((forall i, ~ segmentFileIn entries i) /\ r = 1).

(** What a run of library calls does to the world: it logs the events
    [evs], appends [bytes] to the file at [path], and leaves the name cache
    and what is durable alone. *)
Definition world_step (evs : list Event) (path bytes : string) (o o' : World)
  : Prop :=
  trace o' = (trace o ++ evs)%list
  /\ segmentNameCache o' = segmentNameCache o
  /\ (forall p, file_data o' p =
                if decide (p = path) then file_data o p +:+ bytes
                else file_data o p)
  /\ (forall p, file_synced o' p = file_synced o p).

(** The same for a successful [fsync] of [path]: the bytes of the file
    become durable. *)
Definition world_sync (evs : list Event) (path : string) (o o' : World) : Prop :=
  trace o' = (trace o ++ evs)%list
  /\ segmentNameCache o' = segmentNameCache o
  /\ (forall p, file_data o' p = file_data o p)
  /\ (forall p, file_synced o' p =
                if decide (p = path) then file_data o p else file_synced o p).

(** The events of the buffered writer: flushes and the writes they cause. *)
Definition writer_event (ev : Event) : bool :=
  match ev with
  | EvWrite _ _ | EvFlush _ => true
  | _ => false
  end.

Definition writer_events (evs : list Event) : Prop :=
  forallb writer_event evs = true.

(** The events of a rotation: closing a segment and opening one. *)
Definition rotation_event (ev : Event) : bool :=
  match ev with
  | EvClose _ | EvOpenFile _ _ => true
  | _ => false
  end.

Definition no_rotation (evs : list Event) : Prop :=
  forallb (fun ev => negb (rotation_event ev)) evs = true.

(** The fields of the engine that say where the next entry goes. *)
Definition same_position (w w' : WAL) : Prop :=
  offset w' = offset w
  /\ currentSegmentIndex w' = currentSegmentIndex w
  /\ currentSegment w' = currentSegment w
  /\ directory w' = directory w
  /\ wr (writer w') = wr (writer w).

(** The buffered writer of the engine writes to the current segment; the
    source creates the two together. *)
Definition wal_wf (w : WAL) : Prop := wr (writer w) = currentSegment w.

(** A buffer that is not in error holds no bytes between two calls: every
    successful flush empties it. *)
Definition buffer_clean (w : WAL) : Prop :=
  werr (writer w) = None -> buf (writer w) = "".

(** The states of an engine that was opened in a world with a consistent
    name cache and has run any number of appends, whatever their outcome. *)
Inductive reachable {P : Type} (jsonMarshal : LogEntry P -> option string)
  : St -> Prop :=
| reach_open (o o' : World) (w : WAL) :
    cache_consistent (segmentNameCache o) ->
    newWriteAheadLOG o = (Ok w, o') ->
    reachable jsonMarshal (w, o')
| reach_append (s s' : St) (topic : string) (payload : P) (r : option error) :
    reachable jsonMarshal s ->
    WriteLog jsonMarshal topic payload s = (r, s') ->
    reachable jsonMarshal s'.

(** The step of [WriteLog] that an error comes from, read off the
    message that the source wraps it in. *)
Inductive AppendStep : Type :=
| AtEncode
| AtFlush
| AtSync
| AtStat
| AtRotate.

Definition failedStep (e : error) : option AppendStep :=
  match e with
  | Errorf msg cause =>
      if String.eqb msg "failed to encode log entry" then Some AtEncode
      else if String.eqb msg "failed to flush log entry" then
        match cause with
        | Errorf msg' _ =>
            if String.eqb msg' "failed to flush writer" then Some AtFlush
            else if String.eqb msg' "failed to sync segment file" then Some AtSync
            else None
        | _ => None
        end
      else if String.eqb msg "failed to get file info" then Some AtStat
      else if String.eqb msg "failed to rotate segment" then Some AtRotate
      else None
  | _ => None
  end.

(** [WriteLog] fails at the encode step, or at the flush or fsync step of
    the [FlushE] that follows a successful encode. *)
Definition failsBeforeCommit {P : Type} (jsonMarshal : LogEntry P -> option string)
    (topic : string) (payload : P) (s : St) : Prop :=
  let entry := {| Offset := offset (fst s); Topic := topic; Payload := payload |} in
  (exists c s1, Encode jsonMarshal entry s = (Some c, s1))
  \/ (exists s1 c s2,
         Encode jsonMarshal entry s = (None, s1) /\ FlushE s1 = (Some c, s2)).


(** The topic that [handleWrite] passes to [WriteLog]. *)
Definition requestTopic (request : Request) : string :=
  if String.eqb (Query_Get (Query request) "topic") "" then "default"
  else Query_Get (Query request) "topic".

(** ** Concrete inputs for the examples *)

(** The world of a process that starts in an empty working directory. *)
Definition emptyWorld : World :=
  {| fs := ∅; fdtable := ∅; nextfd := 3; faults := []; trace := [];
     segmentNameCache := ∅ |}.

Definition emptyFile : Node := Reg {| data := ""; synced := "" |}.

(** A world whose [wal_data] directory exists and holds the given files. *)
Definition worldWithDir (files : list (string * Node)) : World :=
  set_fs (fun _ => <[walDir := Dir]> (list_to_map files)) emptyWorld.

(** A [wal_data] directory with one segment and one file whose name has
    the prefix but not the suffix. *)
Definition strayWorld : World :=
  worldWithDir [("wal_data/wal_1.log", emptyFile); ("wal_data/wal_9", emptyFile)].

Definition strayListing : list DirEntry :=
  [ {| Name := "wal_1.log"; IsDir := false |};
    {| Name := "wal_9"; IsDir := false |} ].

(** A [wal_data] directory with the segments 1, 2 and 5, a subdirectory
    that has the name of a segment, and a file of another kind. *)
Definition resumeWorld : World :=
  worldWithDir [("wal_data/wal_1.log", emptyFile);
                ("wal_data/wal_2.log", emptyFile);
                ("wal_data/wal_5.log", emptyFile);
                ("wal_data/wal_7.log", Dir);
                ("wal_data/notes.txt", emptyFile)].

(** A JSON serialiser for the examples: compact output, the members of an
    object in the order given, strings without escapes. *)
Definition dq : string := String "034" "".

Fixpoint join_comma (l : list string) : string :=
  match l with
  | [] => ""
  | [x] => x
  | x :: l' => x +:+ "," +:+ join_comma l'
  end.

Fixpoint demoValue (v : json) : string :=
  match v with
  | JNull => "null"
  | JBool true => "true"
  | JBool false => "false"
  | JNumber lit => lit
  | JString s => dq +:+ s +:+ dq
  | JArray l => "[" +:+ join_comma (map demoValue l) +:+ "]"
  | JObject kvs =>
      "{" +:+ join_comma
                (map (fun kv => dq +:+ fst kv +:+ dq +:+ ":" +:+ demoValue (snd kv))
                     kvs)
          +:+ "}"
  end.

Definition demoMarshal (e : LogEntry GoMap) : option string :=
  Some ("{" +:+ dq +:+ "offset" +:+ dq +:+ ":" +:+ itoa (Offset e) +:+ ","
        +:+ dq +:+ "topic" +:+ dq +:+ ":" +:+ dq +:+ Topic e +:+ dq +:+ ","
        +:+ dq +:+ "payload" +:+ dq +:+ ":"
        +:+ match Payload e with
            | None => "null"
            | Some kvs => demoValue (JObject kvs)
            end
        +:+ "}").

(** The line that [Encode] writes for an entry. *)
Definition demoLine (e : LogEntry GoMap) : string :=
  match demoMarshal e with
  | Some js => js +:+ String "010" ""
  | None => ""
  end.

Fixpoint replicate_string (n : nat) (c : ascii) : string :=
  match n with
  | O => ""
  | S n' => String c (replicate_string n' c)
  end.

(** The payloads [{"id":1}] and [{"id":2}], and one whose line is longer
    than [maxSegmentSize]. *)
Definition payload1 : GoMap := Some [("id", JNumber "1")].
Definition payload2 : GoMap := Some [("id", JNumber "2")].
Definition bigPayload : GoMap :=
  Some [("blob", JString (replicate_string 500 "x"))].

(** The engine that [newWriteAheadLOG] returns in an empty world, and the
    world it leaves. *)
Definition freshWAL : WAL :=
  let f := {| fd := 3; name := "wal_data/wal_1.log" |} in
  {| directory := walDir;
     currentSegment := f;
     writer := NewWriterSize f bufferSize;
     currentSegmentIndex := 1;
     offset := 1;
     encoder := NewEncoder |}.

Definition freshWorld : World := snd (newWriteAheadLOG emptyWorld).

(** A [wal_data] directory whose last segment, number 3, holds exactly one
    record, and the engine that [newWriteAheadLOG] returns there. *)
Definition record1 : string :=
  demoLine {| Offset := 1; Topic := "orders"; Payload := payload1 |}.

Definition oneRecordWorld : World :=
  worldWithDir [("wal_data/wal_3.log", Reg {| data := record1; synced := record1 |})].

Definition resumedWAL : WAL :=
  let f := {| fd := 3; name := "wal_data/wal_3.log" |} in
  {| directory := walDir;
     currentSegment := f;
     writer := NewWriterSize f bufferSize;
     currentSegmentIndex := 3;
     offset := 50;
     encoder := NewEncoder |}.

(** The state after one append of [bigPayload] to the fresh engine: the
    line is longer than [maxSegmentSize], so this append rotates. *)
Definition rotatedState : St :=
  snd (WriteLog demoMarshal "orders" bigPayload (freshWAL, freshWorld)).

(** The fresh world in which the second fallible system call from now on,
    the [fsync] of the first append, fails with error number 5. *)
Definition syncFailsWorld : World := set_faults [None; Some 5%nat] freshWorld.

(** The fresh world in which the third fallible system call from now on,
    the [Stat] of the first append, fails with error number 5. *)
Definition statFailsWorld : World := set_faults [None; None; Some 5%nat] freshWorld.

Definition postWrite (topic : string) (b : Body) : Request :=
  {| Method := MethodPost;
     Query := [("topic", topic)];
     RequestBody := b |}.

(** Request bodies: the objects [{"id":1}] and [{"id":2}], and an object
    whose log line is longer than [maxSegmentSize]. *)
Definition body1 : Body := BodyJSON (JObject [("id", JNumber "1")]).
Definition body2 : Body := BodyJSON (JObject [("id", JNumber "2")]).
Definition bigBody : Body :=
  BodyJSON (JObject [("blob", JString (replicate_string 500 "x"))]).

(** A [POST /write] whose body is the object [{"x":1e999}]. *)
Definition rangeRequest : Request :=
  {| Method := MethodPost;
     Query := [("topic", "orders")];
     RequestBody := BodyJSON (JObject [("x", JNumber "1e999")]) |}.


(** The entry that the first append of [{"id":1}] on topic [orders]
    writes on the fresh engine, and the reply that [handleWrite] sends. *)
Definition firstEntry : LogEntry GoMap :=
  {| Offset := 1; Topic := "orders"; Payload := payload1 |}.

Definition firstReply : WriteReply :=
  {| reply_offset := 2;
     reply_segment := 1;
     reply_topic := "orders";
     reply_payload := payload1;
     reply_message := "Log entry written successfully";
     reply_fileSize := "wal_data/wal_1.log" |}.

(** The same for a first append whose line fills the segment. *)
Definition bigEntry : LogEntry GoMap :=
  {| Offset := 1; Topic := "orders"; Payload := bigPayload |}.

Definition bigReply : WriteReply :=
  {| reply_offset := 3;
     reply_segment := 2;
     reply_topic := "orders";
     reply_payload := bigPayload;
     reply_message := "Log entry written successfully";
     reply_fileSize := "wal_data/wal_2.log" |}.

(** ** Notions used in the further properties *)

(** The descriptor of the current segment is not open. *)
Definition segment_closed (s : St) : Prop :=
  is_open (snd s) (currentSegment (fst s)) = false.

(** The buffered writer or the encoder holds the error of a failed write. *)
Definition writer_broken (w : WAL) : Prop :=
  werr (writer w) <> None \/ enc_err (encoder w) <> None.

(** No file has other bytes in [o'] than in [o]. *)
Definition same_files (o o' : World) : Prop :=
  forall p, file_data o' p = file_data o p.

(** What a call on an open file does besides its effect on the files: the
    table of descriptors stays, a script that has run out stays so, the
    call succeeds only on an open descriptor, and on an open descriptor it
    fails only when the script says so. *)
Definition call_env {A : Type} (ok : A -> bool) (f : osFile) (o o' : World) (r : A)
  : Prop :=
  fdtable o' = fdtable o
  /\ (faults o = [] -> faults o' = [])
  /\ (ok r = true -> is_open o f = true)
  /\ (is_open o f = true -> faults o = [] -> ok r = true).

Definition no_error (r : option error) : bool :=
  match r with None => true | Some _ => false end.

Definition is_Ok {A : Type} (r : result A) : bool :=
  match r with Ok _ => true | Err _ => false end.

(** The step of [rotateSegment] that an error comes from: [FlushE] wraps
    its errors in one of two messages, [Close] hands on the error of the
    system call, and the failure of [OpenFile] is wrapped in a third. *)
Inductive RotateStep : Type :=
| RotFlush
| RotClose
| RotOpen.

Definition rotateFailedStep (c : error) : option RotateStep :=
  match c with
  | Errorf msg _ =>
      if String.eqb msg "failed to flush writer" then Some RotFlush
      else if String.eqb msg "failed to sync segment file" then Some RotFlush
      else if String.eqb msg "failed to open new segment file" then Some RotOpen
      else None
  | _ => Some RotClose
  end.

(** The file at [path] has gained bytes at its end, and no other file has
    changed. *)
Definition grows (path : string) (o o' : World) : Prop :=
  exists written,
    forall p, file_data o' p =
              if decide (p = path) then file_data o p +:+ written
              else file_data o p.

(** An engine that can take an append: the writer and the current segment
    belong together, the descriptor is open, neither the writer nor the
    encoder is in error, and the buffer is empty. *)
Definition healthy (s : St) : Prop :=
  wal_wf (fst s)
  /\ is_open (snd s) (currentSegment (fst s)) = true
  /\ werr (writer (fst s)) = None
  /\ enc_err (encoder (fst s)) = None
  /\ buf (writer (fst s)) = "".

(** The error of an append whose rotation finds a directory where the next
    segment should go. *)
Definition errNextSegmentIsDir : error :=
  Errorf "failed to rotate segment"
    (Errorf "failed to open new segment file" ErrIsDir).

Fixpoint slash_free (s : string) : bool :=
  match s with
  | EmptyString => true
  | String c s' => negb (Ascii.eqb c "/") && slash_free s'
  end.

(** What [filepath.Join] puts in front of a base name: the cleaned
    directory and a separator, or nothing when the directory is empty or
    cleans to nothing. *)
Definition dirPrefix (d : string) : string :=
  match d with
  | EmptyString => ""
  | String c _ =>
      let rooted := Ascii.eqb c "/" in
      let kept := rev (fold_left (clean_step rooted) (split_slash d) []) in
      (if rooted then "/" else "")
      +:+ match kept with
          | [] => ""
          | _ => join_slash kept +:+ "/"
          end
  end.

(** ** Concrete inputs for the further examples *)

(** The fresh world in which the first fallible system call from now on,
    the write of the first flush, fails with error number 5. *)
Definition flushFailsWorld : World := set_faults [Some 5%nat] freshWorld.

(** The fresh world in which the sixth fallible system call from now on
    fails: for an append that rotates, that is the [OpenFile] of the new
    segment (after the write, the [fsync] and the [Stat] of the append,
    and the [fsync] and the [Close] of the rotation). *)
Definition openFailsWorld : World :=
  set_faults [None; None; None; None; None; Some 13%nat] freshWorld.

Definition twoAppends : list (string * GoMap) :=
  [("orders", payload1); ("orders", payload2)].

(** An append that rotates, followed by one that does not. *)
Definition rotatingRun : list (string * GoMap) :=
  [("orders", bigPayload); ("orders", payload1)].

(** A payload whose line, as the first entry of topic [orders], is
    [52 + n] bytes long. *)
Definition payloadOfSize (n : nat) : GoMap :=
  Some [("blob", JString (replicate_string n "x"))].

(** * Properties *)

(** ** Strings *)

Lemma append_cons (c : ascii) (s1 s2 : string) :
  String c s1 +:+ s2 = String c (s1 +:+ s2).
Proof. reflexivity. Qed.

Lemma append_nil_l (s : string) : "" +:+ s = s.
Proof. reflexivity. Qed.

Lemma append_nil_r (s : string) : s +:+ "" = s.
Proof.
  induction s as [|c s IH]; [reflexivity |].
  now rewrite append_cons, IH.
Qed.

Lemma append_assoc (s1 s2 s3 : string) : (s1 +:+ s2) +:+ s3 = s1 +:+ (s2 +:+ s3).
Proof.
  induction s1 as [|c s1 IH]; [reflexivity |].
  now rewrite !append_cons, IH.
Qed.

Lemma length_append (s1 s2 : string) :
  String.length (s1 +:+ s2) = (String.length s1 + String.length s2)%nat.
Proof.
  induction s1 as [|c s1 IH]; [reflexivity |].
  rewrite append_cons. simpl. now rewrite IH.
Qed.

Lemma take_drop (n : nat) (s : string) : string_take n s +:+ string_drop n s = s.
Proof.
  revert s; induction n as [|n IH]; intros [|c s]; simpl; try reflexivity.
  now rewrite append_cons, IH.
Qed.

Lemma drop_append (s1 s2 : string) : string_drop (String.length s1) (s1 +:+ s2) = s2.
Proof.
  induction s1 as [|c s1 IH]; [reflexivity |].
  rewrite append_cons. simpl. exact IH.
Qed.

Lemma take_append (s1 s2 : string) : string_take (String.length s1) (s1 +:+ s2) = s1.
Proof.
  induction s1 as [|c s1 IH]; [reflexivity |].
  rewrite append_cons. simpl. now rewrite IH.
Qed.

Lemma prefix_append (s1 s2 : string) : String.prefix s1 (s1 +:+ s2) = true.
Proof.
  induction s1 as [|c s1 IH]; [now destruct s2 |].
  rewrite append_cons. simpl.
  destruct (ascii_dec c c) as [_|Hne]; [exact IH | now elim Hne].
Qed.

Lemma TrimPrefix_append (p s : string) : TrimPrefix (p +:+ s) p = s.
Proof. unfold TrimPrefix, HasPrefix. rewrite prefix_append. apply drop_append. Qed.

Lemma HasSuffix_append (s suf : string) : HasSuffix (s +:+ suf) suf = true.
Proof.
  unfold HasSuffix. rewrite length_append.
  replace (String.length s + String.length suf - String.length suf)%nat
    with (String.length s) by lia.
  rewrite drop_append, String.eqb_refl.
  rewrite andb_true_r. apply Nat.leb_le. lia.
Qed.

Lemma TrimSuffix_append (s suf : string) : TrimSuffix (s +:+ suf) suf = s.
Proof.
  unfold TrimSuffix. rewrite HasSuffix_append, length_append.
  replace (String.length s + String.length suf - String.length suf)%nat
    with (String.length s) by lia.
  apply take_append.
Qed.

(** ** Decimal numerals *)

Lemma uint_string_colon_free (d : Decimal.uint) :
  colon_free (NilEmpty.string_of_uint d) = true.
Proof. induction d; simpl; auto. Qed.

Lemma itoa_colon_free (z : Z) : colon_free (itoa z) = true.
Proof.
  unfold itoa, NilZero.string_of_int, NilZero.string_of_uint.
  destruct (Z.to_int z) as [d|d]; destruct d; simpl;
    auto using uint_string_colon_free.
Qed.

Lemma to_int_proper (z : Z) :
  Z.to_int z <> Decimal.Pos Decimal.Nil /\ Z.to_int z <> Decimal.Neg Decimal.Nil.
Proof.
  destruct z as [|p|p]; simpl; split; try discriminate;
    intros H; injection H as H; exact (Unsigned.to_uint_nonnil p H).
Qed.

Lemma itoa_inj (i j : Z) : itoa i = itoa j -> i = j.
Proof.
  unfold itoa. intros H.
  destruct (to_int_proper i) as [Hi1 Hi2], (to_int_proper j) as [Hj1 Hj2].
  pose proof (NilZero.isi _ Hi1 Hi2) as Ei.
  pose proof (NilZero.isi _ Hj1 Hj2) as Ej.
  rewrite H, Ej in Ei. injection Ei as Ei.
  rewrite <- (DecimalZ.of_to i), <- (DecimalZ.of_to j). now rewrite Ei.
Qed.

(** A key splits at its last colon: the numeral after it has none. *)
Lemma colon_inside (d n : string) : colon_free (d +:+ String ":" n) = false.
Proof.
  induction d as [|c d IH]; [reflexivity |].
  rewrite append_cons. simpl. rewrite IH. apply andb_false_r.
Qed.

Lemma colon_split (d1 d2 n1 n2 : string) :
  colon_free n1 = true -> colon_free n2 = true ->
  d1 +:+ ":" +:+ n1 = d2 +:+ ":" +:+ n2 -> d1 = d2 /\ n1 = n2.
Proof.
  revert d2. induction d1 as [|c d1 IH]; intros [|c2 d2] H1 H2 H;
    rewrite ?append_cons, ?append_nil_l in H.
  - injection H as H. now split.
  - injection H as _ H. subst n1. now rewrite colon_inside in H1.
  - injection H as _ H. subst n2. now rewrite colon_inside in H2.
  - injection H as Hc H. subst c2. destruct (IH d2 H1 H2 H) as [-> ->]. now split.
Qed.

Lemma cacheKey_inj (d1 d2 : string) (i1 i2 : Z) :
  cacheKey d1 i1 = cacheKey d2 i2 -> d1 = d2 /\ i1 = i2.
Proof.
  unfold cacheKey. intros H.
  apply colon_split in H; auto using itoa_colon_free.
  destruct H as [-> H]. split; [reflexivity | now apply itoa_inj].
Qed.

(** ** Reading numerals back *)

Lemma parse_digits_uint (d : Decimal.uint) (acc : Z) :
  parse_digits acc (NilEmpty.string_of_uint d) = Some (uint_value acc d).
Proof. revert acc. induction d; intros acc; simpl; auto. Qed.

Lemma of_uint_acc_value (d : Decimal.uint) (acc : positive) :
  Z.pos (Pos.of_uint_acc d acc) = uint_value (Z.pos acc) d.
Proof.
  revert acc. induction d; intros acc; simpl; auto;
    rewrite IHd; f_equal; lia.
Qed.

Lemma of_uint_value (d : Decimal.uint) : Z.of_uint d = uint_value 0 d.
Proof.
  unfold Z.of_uint.
  induction d; simpl; auto; rewrite of_uint_acc_value; reflexivity.
Qed.

Lemma uint_string_digit (d : Decimal.uint) :
  d <> Decimal.Nil ->
  exists c rest, NilEmpty.string_of_uint d = String c rest
                 /\ Ascii.eqb c "-" = false /\ Ascii.eqb c "+" = false.
Proof. destruct d; intros H; try (now elim H); simpl; eauto. Qed.

Lemma NilZero_NilEmpty (d : Decimal.uint) :
  d <> Decimal.Nil -> NilZero.string_of_uint d = NilEmpty.string_of_uint d.
Proof. destruct d; intros H; [now elim H | reflexivity ..]. Qed.

Lemma Atoi_unsigned (c : ascii) (rest : string) :
  Ascii.eqb c "-" = false -> Ascii.eqb c "+" = false ->
  Atoi (String c rest) =
  match parse_digits 0 (String c rest) with
  | Some n => if in_int64b n then Some n else None
  | None => None
  end.
Proof. intros Hm Hp. unfold Atoi. rewrite Hm, Hp. reflexivity. Qed.

Lemma Atoi_itoa (z : Z) : in_int64 z -> Atoi (itoa z) = Some z.
Proof.
  intros Hr.
  assert (Hb : in_int64b z = true).
  { unfold in_int64b, in_int64 in *. apply andb_true_iff. split; lia. }
  destruct z as [|p|p]; [reflexivity | |].
  - pose proof (Unsigned.to_uint_nonnil p) as Hn.
    pose proof (DecimalZ.of_to (Z.pos p)) as Hv.
    unfold itoa; simpl in *. rewrite of_uint_value in Hv.
    rewrite NilZero_NilEmpty by exact Hn.
    destruct (uint_string_digit _ Hn) as (c & rest & E & Hm & Hp).
    rewrite E, (Atoi_unsigned _ _ Hm Hp), <- E, parse_digits_uint, Hv, Hb.
    reflexivity.
  - pose proof (Unsigned.to_uint_nonnil p) as Hn.
    pose proof (DecimalZ.of_to (Z.neg p)) as Hv.
    unfold itoa; simpl in *. rewrite of_uint_value in Hv.
    rewrite NilZero_NilEmpty by exact Hn.
    destruct (uint_string_digit _ Hn) as (c & rest & E & Hm & Hp).
    rewrite E, <- E, parse_digits_uint, Hv, Hb.
    reflexivity.
Qed.

(** ** No zero-padding *)

Lemma to_uint_normal (p : positive) :
  Decimal.unorm (Pos.to_uint p) = Pos.to_uint p.
Proof.
  rewrite <- (DecimalPos.Unsigned.to_of (Pos.to_uint p)).
  now rewrite DecimalPos.Unsigned.of_to.
Qed.

Lemma to_uint_no_leading_zero (p : positive) (d : Decimal.uint) :
  Pos.to_uint p <> Decimal.D0 d.
Proof.
  intros H. pose proof (to_uint_normal p) as Hn.
  destruct (Decimal.nzhead (Pos.to_uint p)) eqn:Eh.
  - apply unorm_0 in Eh. rewrite Hn in Eh.
    exact (Unsigned.to_uint_nonzero p Eh).
  - exact (nzhead_nonzero _ _ Eh).
  - rewrite unorm_nzhead in Hn by (rewrite Eh; discriminate). congruence.
  - rewrite unorm_nzhead in Hn by (rewrite Eh; discriminate). congruence.
  - rewrite unorm_nzhead in Hn by (rewrite Eh; discriminate). congruence.
  - rewrite unorm_nzhead in Hn by (rewrite Eh; discriminate). congruence.
  - rewrite unorm_nzhead in Hn by (rewrite Eh; discriminate). congruence.
  - rewrite unorm_nzhead in Hn by (rewrite Eh; discriminate). congruence.
  - rewrite unorm_nzhead in Hn by (rewrite Eh; discriminate). congruence.
  - rewrite unorm_nzhead in Hn by (rewrite Eh; discriminate). congruence.
  - rewrite unorm_nzhead in Hn by (rewrite Eh; discriminate). congruence.
Qed.

(** [%d] pads nothing: the numeral of a number other than 0 does not start
    with the digit 0, with or without a sign. *)
Lemma itoa_no_padding (i : Z) :
  i <> 0 ->
  HasPrefix (itoa i) "0" = false /\ HasPrefix (itoa i) "-0" = false.
Proof.
  intros Hi. unfold itoa, HasPrefix.
  destruct i as [|p|p]; [now elim Hi | |]; simpl;
    pose proof (to_uint_no_leading_zero p) as Hz;
    pose proof (Unsigned.to_uint_nonnil p) as Hn;
    rewrite NilZero_NilEmpty by exact Hn;
    destruct (Pos.to_uint p) as [|d|d|d|d|d|d|d|d|d|d];
    try (now elim Hn); try (now elim (Hz d)); split; reflexivity.
Qed.

(** ** The name cache *)

Lemma segmentFileName_spec (d : string) (i : Z) (o : World) :
  cache_consistent (segmentNameCache o) ->
  fst (segmentFileName d i o) = segmentPath d i
  /\ cache_consistent (segmentNameCache (snd (segmentFileName d i o)))
  /\ fs (snd (segmentFileName d i o)) = fs o
  /\ fdtable (snd (segmentFileName d i o)) = fdtable o
  /\ nextfd (snd (segmentFileName d i o)) = nextfd o
  /\ faults (snd (segmentFileName d i o)) = faults o
  /\ trace (snd (segmentFileName d i o)) = trace o.
Proof.
  intros Hc. unfold segmentFileName, bind, gets, ret, modify. simpl.
  destruct (segmentNameCache o !! cacheKey d i) as [cached|] eqn:E; simpl.
  - repeat split; auto.
  - repeat split; auto.
    intros d' i' cached'. unfold segmentPath.
    destruct (decide (cacheKey d i = cacheKey d' i')) as [Heq|Hne].
    + rewrite Heq, lookup_insert_eq. intros [= <-].
      apply cacheKey_inj in Heq as [-> ->]. reflexivity.
    + rewrite lookup_insert_ne by exact Hne. apply Hc.
Qed.

Lemma segmentFileNames_consistent (calls : list (string * Z)) (o : World) :
  cache_consistent (segmentNameCache o) ->
  cache_consistent (segmentNameCache (snd (segmentFileNames calls o))).
Proof.
  revert o. induction calls as [|[d i] calls IH]; intros o Hc; simpl; [exact Hc|].
  unfold bind, ret.
  destruct (segmentFileName d i o) as [n o1] eqn:E1.
  destruct (segmentFileNames calls o1) as [ns o2] eqn:E2. simpl.
  pose proof (segmentFileName_spec d i o Hc) as (_ & Hc1 & _).
  rewrite E1 in Hc1. simpl in Hc1.
  specialize (IH o1 Hc1). now rewrite E2 in IH.
Qed.

(** C8: [segmentFileName] returns [filepath.Join] of the directory and the
    base name made of the prefix [wal_], the decimal index as [%d] prints it
    (no leading zero, and [Atoi] reads the index back) and the suffix
    [.log]; whatever calls were made before in the process run, the answer
    is the same, and a repeated call changes nothing more. *)
Theorem segmentFileName_is_join_and_stable :
  forall (calls : list (string * Z)) (o : World) (directory : string) (index : Z),
    let o1 := snd (segmentFileNames calls (freshProcess o)) in
    let r := segmentFileName directory index o1 in
    fst r = filepath_Join [directory; segmentPrefix +:+ itoa index +:+ ".log"]
    /\ (index <> 0 ->
        HasPrefix (itoa index) "0" = false /\ HasPrefix (itoa index) "-0" = false)
    /\ (in_int64 index -> Atoi (itoa index) = Some index)
    /\ fst (segmentFileName directory index (snd r)) = fst r
    /\ snd (segmentFileName directory index (snd r)) = snd r
    /\ fs (snd r) = fs o1 /\ fdtable (snd r) = fdtable o1
    /\ trace (snd r) = trace o1.
Proof.
  intros calls o directory index o1 r.
  assert (Hc : cache_consistent (segmentNameCache o1)).
  { apply segmentFileNames_consistent. intros d i cached. simpl.
    rewrite lookup_empty. discriminate. }
  destruct (segmentFileName_spec directory index o1 Hc)
    as (Hr & Hc' & Hfs & Hfd & _ & _ & Htr).
  fold r in Hr, Hc', Hfs, Hfd, Htr.
  destruct (segmentFileName_spec directory index (snd r) Hc') as (Hr2 & _).
  split; [exact Hr |]. split; [apply itoa_no_padding |].
  split; [apply Atoi_itoa |].
  repeat split; auto.
  - now rewrite Hr2, Hr.
  - subst r. unfold segmentFileName at 1 3, bind, gets, ret, modify. simpl.
    unfold segmentFileName, bind, gets, ret, modify. simpl.
    destruct (segmentNameCache o1 !! cacheKey directory index) eqn:E; simpl.
    + now rewrite E.
    + now rewrite lookup_insert_eq.
Qed.

(** ** The segment locator *)

Lemma entryIndex_segmentName (e : DirEntry) (i : Z) :
  IsDir e = false -> isSegmentName (Name e) i -> entryIndex e = Some i.
Proof.
  intros Hd (Hpos & Hr & Hn). unfold entryIndex. rewrite Hd, Hn.
  unfold segmentBaseName, HasPrefix. rewrite prefix_append, TrimPrefix_append.
  rewrite TrimSuffix_append. now apply Atoi_itoa.
Qed.

Lemma scanEntry_entryIndex (m : Z) (e : DirEntry) :
  scanEntry m e =
  match entryIndex e with
  | Some i => if m <? i then i else m
  | None => m
  end.
Proof.
  unfold scanEntry, entryIndex.
  destruct (IsDir e); simpl; [reflexivity |].
  destruct (HasPrefix (Name e) segmentPrefix); simpl; reflexivity.
Qed.

Lemma scan_fold (entries : list DirEntry) (m : Z) :
  let r := fold_left scanEntry entries m in
  m <= r
  /\ (forall e i, In e entries -> entryIndex e = Some i -> i <= r)
  /\ (r = m \/ (m < r /\ exists e, In e entries /\ entryIndex e = Some r)).
Proof.
  revert m. induction entries as [|e entries IH]; intros m; simpl.
  - repeat split; [lia | intros e i [] | now left].
  - destruct (IH (scanEntry m e)) as (Hle & Hub & Hin).
    rewrite scanEntry_entryIndex in Hle, Hub, Hin |- *.
    destruct (entryIndex e) as [i|] eqn:Ei.
    + destruct (Z.ltb_spec m i) as [Hlt|Hge].
      * repeat split; [lia | |].
        -- intros e' i' [<-|Hin'] Hi'; [|eauto].
           rewrite Ei in Hi'. injection Hi' as <-. exact Hle.
        -- right. destruct Hin as [->|(Hlt' & e' & Hin' & He')].
           ++ split; [exact Hlt | eauto].
           ++ split; [lia | eauto].
      * repeat split; [lia | |].
        -- intros e' i' [<-|Hin'] Hi'; [|eauto].
           rewrite Ei in Hi'. injection Hi' as <-. lia.
        -- destruct Hin as [->|(Hlt' & e' & Hin' & He')]; [now left|].
           right. split; [exact Hlt' | eauto].
    + repeat split; [lia | |].
      * intros e' i' [<-|Hin'] Hi'; [congruence | eauto].
      * destruct Hin as [->|(Hlt' & e' & Hin' & He')]; [now left|].
        right. split; [exact Hlt' | eauto].
Qed.

Lemma entryIndex_file (e : DirEntry) (i : Z) :
  entryIndex e = Some i ->
  IsDir e = false /\ HasPrefix (Name e) segmentPrefix = true.
Proof.
  unfold entryIndex. destruct (IsDir e); [discriminate |].
  destruct (HasPrefix (Name e) segmentPrefix); [auto | discriminate].
Qed.

Example findLastSegemtIndex_resume :
  fst (findLastSegemtIndex walDir resumeWorld) = (5, None).
Proof. vm_compute. reflexivity. Qed.

Example findLastSegemtIndex_missing_dir :
  fst (findLastSegemtIndex walDir emptyWorld) = (1, None).
Proof. vm_compute. reflexivity. Qed.

(** C4, as stated, fails: in a directory that holds the segment
    [wal_1.log] and a file named [wal_9], which lacks the suffix of the
    naming pattern, the locator answers 9, although the highest index among
    the files that match the pattern is 1. *)
Lemma findLastSegemtIndex_counts_unsuffixed_name :
  fst (os_ReadDir walDir strayWorld) = Ok strayListing
  /\ fst (findLastSegemtIndex walDir strayWorld) = (9, None)
  /\ highestSegment strayListing 1
  /\ ~ highestSegment strayListing 9.
Proof.
  split; [vm_compute; reflexivity |].
  split; [vm_compute; reflexivity |].
  assert (Hseg : forall i, segmentFileIn strayListing i -> i = 1).
  { intros i (e & Hin & _ & Hpos & Hr & Hn).
    assert (Hi : entryIndex e = Some i).
    { apply entryIndex_segmentName; [| exact (conj Hpos (conj Hr Hn))].
      destruct Hin as [<-|[<-|[]]]; reflexivity. }
    destruct Hin as [<-|[<-|[]]].
    - vm_compute in Hi. congruence.
    - exfalso. vm_compute in Hi. injection Hi as <-.
      vm_compute in Hn. discriminate. }
  split.
  - left. split.
    + exists {| Name := "wal_1.log"; IsDir := false |}.
      split; [now left |]. split; [reflexivity |].
      repeat split; unfold in_int64; try lia.
    + intros i Hi. apply Hseg in Hi. lia.
  - intros [[H _]|[_ H]]; [apply Hseg in H |]; discriminate.
Qed.

(** C4, amended: the locator never reports an error; it answers 1 when the
    directory cannot be read and when no entry yields a positive index;
    otherwise it answers the highest positive index that [entryIndex] reads
    off an entry, that is, off a non-directory entry whose name starts with
    [wal_] and is a numeral for [Atoi] once the prefix and a trailing
    [.log], if present, are removed.  In a directory where every file with
    the prefix has a name of the pattern, this is the highest index among
    the files that match the pattern. *)
Theorem findLastSegemtIndex_highest_accepted :
  forall (directory : string) (o : World),
    let r := fst (findLastSegemtIndex directory o) in
    snd r = None
    /\ match fst (os_ReadDir directory o) with
       | Err _ => fst r = 1
       | Ok entries =>
           ((forall i, ~ acceptedIndex entries i) -> fst r = 1)
           /\ ((exists i, acceptedIndex entries i) ->
               acceptedIndex entries (fst r)
               /\ forall i, acceptedIndex entries i -> i <= fst r)
           /\ ((forall e, In e entries -> IsDir e = false ->
                          HasPrefix (Name e) segmentPrefix = true ->
                          exists i, isSegmentName (Name e) i) ->
               highestSegment entries (fst r))
       end.
Proof.
  intros directory o. unfold findLastSegemtIndex, bind.
  destruct (os_ReadDir directory o) as [[entries|e] o1]; simpl;
    [| split; reflexivity].
  destruct (scan_fold entries 0) as (Hle & Hub & Hin).
  set (m := fold_left scanEntry entries 0) in *.
  assert (Hacc : forall i, acceptedIndex entries i -> i <= m).
  { intros i (_ & e & He & Hi). eauto. }
  destruct (Z.eqb_spec m 0) as [Hz|Hnz]; simpl.
  - split; [reflexivity |]. split; [reflexivity |]. split.
    + intros [i Hi]. pose proof (Hacc i Hi). destruct Hi as [Hi _]. lia.
    + intros _. right. split; [| reflexivity].
      intros i (e & He & Hd & Hn).
      assert (Hi : acceptedIndex entries i).
      { split; [apply Hn |]. exists e. split; [exact He |].
        now apply entryIndex_segmentName. }
      pose proof (Hacc i Hi). destruct Hi as [Hi _]. lia.
  - destruct Hin as [Hm|(Hpos & e & He & Hi)]; [lia |].
    assert (Hm : acceptedIndex entries m) by (split; eauto).
    split; [reflexivity |]. split; [| split].
    + intros Hno. now elim (Hno m).
    + intros _. split; assumption.
    + intros Hwf. left. split.
      * destruct (entryIndex_file _ _ Hi) as [Hd Hp].
        destruct (Hwf e He Hd Hp) as [i Hn].
        pose proof (entryIndex_segmentName e i Hd Hn) as Hi'.
        rewrite Hi in Hi'. injection Hi' as <-.
        exists e. auto.
      * intros i (e' & He' & Hd' & Hn'). apply Hacc. split; [apply Hn' |].
        exists e'. split; [exact He' |]. now apply entryIndex_segmentName.
Qed.

(** ** The operating-system calls, one by one *)

Lemma file_data_insert (o1 o : World) (path p : string) (f : File) :
  fs o1 = <[path := Reg f]> (fs o) ->
  file_data o1 p = if decide (p = path) then data f else file_data o p.
Proof.
  intros H. unfold file_data. rewrite H, lookup_insert.
  destruct (decide (path = p)), (decide (p = path)); congruence.
Qed.

Lemma file_synced_insert (o1 o : World) (path p : string) (f : File) :
  fs o1 = <[path := Reg f]> (fs o) ->
  file_synced o1 p = if decide (p = path) then synced f else file_synced o p.
Proof.
  intros H. unfold file_synced. rewrite H, lookup_insert.
  destruct (decide (path = p)), (decide (p = path)); congruence.
Qed.

Ltac file_effect o :=
  let p := fresh "p" in
  intros p;
  first [ erewrite (file_data_insert _ o) by reflexivity
        | erewrite (file_synced_insert _ o) by reflexivity ];
  simpl; destruct (decide _) as [->|]; reflexivity.

Lemma world_step_quiet (evs : list Event) (path : string) (o o' : World) :
  trace o' = (trace o ++ evs)%list ->
  segmentNameCache o' = segmentNameCache o ->
  (forall p, file_data o' p = file_data o p) ->
  (forall p, file_synced o' p = file_synced o p) ->
  world_step evs path "" o o'.
Proof.
  intros Ht Hc Hd Hs. repeat split; auto.
  intros p. rewrite Hd, append_nil_r. now destruct (decide (p = path)).
Qed.

Lemma world_step_data (evs : list Event) (path : string) (o o' : World) :
  world_step evs path "" o o' -> forall p, file_data o' p = file_data o p.
Proof.
  intros (_ & _ & Hd & _) p. rewrite Hd, append_nil_r.
  now destruct (decide (p = path)).
Qed.

Lemma world_step_repath (evs : list Event) (path path' : string) (o o' : World) :
  world_step evs path "" o o' -> world_step evs path' "" o o'.
Proof.
  intros H. pose proof (world_step_data _ _ _ _ H) as Hd.
  destruct H as (Ht & Hc & _ & Hs). now apply world_step_quiet.
Qed.

Lemma world_step_trans (evs1 evs2 : list Event) (path b1 b2 : string)
    (o o1 o2 : World) :
  world_step evs1 path b1 o o1 -> world_step evs2 path b2 o1 o2 ->
  world_step (evs1 ++ evs2) path (b1 +:+ b2) o o2.
Proof.
  intros (Ht1 & Hc1 & Hd1 & Hs1) (Ht2 & Hc2 & Hd2 & Hs2). repeat split.
  - now rewrite Ht2, Ht1, <- app_assoc.
  - now rewrite Hc2.
  - intros p. rewrite Hd2, Hd1. destruct (decide (p = path)); [| reflexivity].
    apply append_assoc.
  - intros p. now rewrite Hs2.
Qed.

Lemma file_Write_inv (f : osFile) (b : string) (o o' : World) (r : option error) :
  file_Write f b o = (r, o') ->
  world_step [EvWrite f b] (name f)
    (match r with None => b | Some _ => "" end) o o'.
Proof.
  unfold file_Write, bind, emit, gets, modify, ret, nextFault. simpl.
  destruct (is_open _ f); simpl.
  - destruct (faults o) as [|[c|] rest]; simpl; intros [= <- <-];
      try (apply world_step_quiet; reflexivity).
    + repeat split; file_effect o.
    + repeat split; file_effect o.
  - intros [= <- <-]. apply world_step_quiet; reflexivity.
Qed.

Lemma file_Sync_inv (f : osFile) (o o' : World) (r : option error) :
  file_Sync f o = (r, o') ->
  match r with
  | None => world_sync [EvSync f] (name f) o o'
  | Some _ => world_step [EvSync f] (name f) "" o o'
  end.
Proof.
  unfold file_Sync, bind, emit, gets, modify, ret, nextFault. simpl.
  destruct (is_open _ f); simpl.
  - destruct (faults o) as [|[c|] rest]; simpl; intros [= <- <-];
      try (apply world_step_quiet; reflexivity).
    + repeat split; file_effect o.
    + repeat split; file_effect o.
  - intros [= <- <-]. apply world_step_quiet; reflexivity.
Qed.

Lemma file_Stat_inv (f : osFile) (o o' : World) (r : result Z) :
  file_Stat f o = (r, o') ->
  world_step [EvStat f] (name f) "" o o'
  /\ match r with
     | Ok sz => sz = Z.of_nat (String.length (file_data o (name f)))
     | Err _ => True
     end.
Proof.
  unfold file_Stat, bind, emit, gets, modify, ret, nextFault. simpl.
  destruct (is_open _ f); simpl.
  - destruct (faults o) as [|[c|] rest]; simpl; intros [= <- <-];
      (split; [apply world_step_quiet; reflexivity | auto]).
  - intros [= <- <-]. split; [apply world_step_quiet; reflexivity | auto].
Qed.

Lemma file_Close_inv (f : osFile) (o o' : World) (r : option error) :
  file_Close f o = (r, o') -> world_step [EvClose f] (name f) "" o o'.
Proof.
  unfold file_Close, bind, emit, gets, modify, ret, nextFault. simpl.
  destruct (is_open _ f); simpl.
  - destruct (faults o) as [|[c|] rest]; simpl; intros [= <- <-];
      apply world_step_quiet; reflexivity.
  - intros [= <- <-]. apply world_step_quiet; reflexivity.
Qed.

Lemma create_keeps_files (path : string) (o o1 : World) :
  fs o !! path = None ->
  fs o1 = <[path := emptyFile]> (fs o) ->
  (forall p, file_data o1 p = file_data o p)
  /\ (forall p, file_synced o1 p = file_synced o p).
Proof.
  intros Hn Ho1. split; intros p; unfold emptyFile in Ho1.
  - rewrite (file_data_insert _ o _ _ _ Ho1). unfold file_data.
    destruct (decide (p = path)) as [->|]; [now rewrite Hn | reflexivity].
  - rewrite (file_synced_insert _ o _ _ _ Ho1). unfold file_synced.
    destruct (decide (p = path)) as [->|]; [now rewrite Hn | reflexivity].
Qed.

Lemma os_OpenFile_inv (path : string) (flags : Z) (o o' : World)
    (r : result osFile) :
  os_OpenFile path flags o = (r, o') ->
  world_step [EvOpenFile path flags] path "" o o'
  /\ match r with
     | Ok f => name f = path
     | Err _ => True
     end.
Proof.
  unfold os_OpenFile, bind, emit, gets, modify, ret, nextFault. simpl.
  destruct (faults o) as [|[c|] rest]; simpl;
    try (intros [= <- <-]; split; [apply world_step_quiet; reflexivity | auto]);
    destruct (fs o !! path) as [[|f]|] eqn:E; simpl;
    try (intros [= <- <-]; split; [apply world_step_quiet; reflexivity | auto]);
    destruct (Z.land flags O_CREATE =? 0); simpl;
    intros [= <- <-];
    (split; [apply world_step_quiet; try reflexivity | auto]);
    intros p; eapply (create_keeps_files path o); try exact E; reflexivity.
Qed.
(** ** The buffered writer *)

Lemma no_rotation_app (evs1 evs2 : list Event) :
  no_rotation evs1 -> no_rotation evs2 -> no_rotation (evs1 ++ evs2).
Proof.
  unfold no_rotation. intros H1 H2. now rewrite forallb_app, H1, H2.
Qed.

Lemma writer_events_no_rotation (evs : list Event) :
  writer_events evs -> no_rotation evs.
Proof.
  unfold writer_events, no_rotation. induction evs as [|ev evs IH]; simpl;
    [reflexivity |].
  intros H. apply andb_true_iff in H as [H1 H2].
  rewrite (IH H2), andb_true_r. now destruct ev.
Qed.

Lemma writer_events_app (evs1 evs2 : list Event) :
  writer_events evs1 -> writer_events evs2 -> writer_events (evs1 ++ evs2).
Proof.
  unfold writer_events. intros H1 H2. now rewrite forallb_app, H1, H2.
Qed.

Ltac conjs := repeat match goal with |- _ /\ _ => split end.

Lemma world_step_refl (path : string) (o : World) : world_step [] path "" o o.
Proof. apply world_step_quiet; auto. now rewrite app_nil_r. Qed.

Lemma Writer_Flush_inv (b b' : Writer) (o o' : World) (err : option error) :
  Writer_Flush b o = ((err, b'), o') ->
  wr b' = wr b /\ size b' = size b
  /\ match err with
     | None =>
         werr b = None /\ werr b' = None /\ buf b' = ""
         /\ world_step
              (EvFlush (wr b) ::
               match buf b with
               | EmptyString => []
               | _ => [EvWrite (wr b) (buf b)]
               end)
              (name (wr b)) (buf b) o o'
     | Some e =>
         werr b' = Some e /\ buf b' = buf b
         /\ exists evs, writer_events evs
                        /\ world_step evs (name (wr b)) "" o o'
     end.
Proof.
  unfold Writer_Flush, bind, emit, modify, ret. simpl.
  set (o0 := set_trace _ o).
  assert (H0 : world_step [EvFlush (wr b)] (name (wr b)) "" o o0)
    by (apply world_step_quiet; reflexivity).
  destruct (werr b) as [e|] eqn:Ee.
  - intros [= <- <- <-]. conjs; auto. exists [EvFlush (wr b)]. now split.
  - destruct (buf b) as [|c pending] eqn:Eb.
    + intros [= <- <- <-]. conjs; auto; apply H0.
    + destruct (file_Write (wr b) (String c pending) o0) as [[e|] o1] eqn:Ew;
        apply file_Write_inv in Ew; intros [= <- <- <-]; simpl.
      * conjs; auto.
        exists [EvFlush (wr b); EvWrite (wr b) (String c pending)].
        split; [reflexivity |].
        apply (world_step_trans _ _ _ _ _ _ _ _ H0 Ew).
      * conjs; auto;
          apply (world_step_trans _ _ _ _ _ _ _ _ H0 Ew).
Qed.

Lemma Writer_Write_inv (b b' : Writer) (p : string) (o o' : World)
    (err : option error) :
  Writer_Write b p o = ((err, b'), o') ->
  wr b' = wr b /\ size b' = size b
  /\ exists evs written,
       writer_events evs
       /\ world_step evs (name (wr b)) written o o'
       /\ match err with
          | None =>
              werr b = None /\ werr b' = None
              /\ written +:+ buf b' = buf b +:+ p
          | Some e => werr b' = Some e
          end.
Proof.
  unfold Writer_Write.
  destruct (werr b) as [e|] eqn:Ee.
  { intros [= <- <- <-]. conjs; auto. exists [], "".
    conjs; auto using world_step_refl; reflexivity. }
  destruct (String.length p <=? Available b)%nat.
  { intros [= <- <- <-]. conjs; auto. exists [], "".
    conjs; auto using world_step_refl; reflexivity. }
  destruct (buf b) as [|c pending] eqn:Eb.
  { unfold bind, ret.
    destruct (file_Write (wr b) p o) as [[e|] o1] eqn:Ew;
      pose proof (file_Write_inv _ _ _ _ _ Ew) as Hw;
      intros [= <- <- <-]; (split; [reflexivity |]); (split; [reflexivity |]).
    - exists [EvWrite (wr b) p], "". split; [reflexivity |]. now split.
    - exists [EvWrite (wr b) p], p. split; [reflexivity |].
      split; [exact Hw |]. rewrite Eb, append_nil_r. auto. }
  unfold bind, ret.
  set (b0 := set_buf _ b).
  destruct (Writer_Flush b0 o) as [[[e|] b1] o1] eqn:Ef;
    apply Writer_Flush_inv in Ef; destruct Ef as (Hwr & Hsz & Hf).
  { intros [= <- <- <-]. destruct Hf as (He & _ & evs & Hq & Hs).
    split; [exact Hwr |]. split; [exact Hsz |]. exists evs, "". auto. }
  destruct Hf as (_ & He1 & Hb1 & Hs).
  set (evs1 := EvFlush (wr b0) :: _) in Hs.
  assert (Hq1 : writer_events evs1) by (subst evs1; destruct (buf b0); reflexivity).
  destruct (String.length _ <=? Available b1)%nat.
  { intros [= <- <- <-]. split; [exact Hwr |]. split; [exact Hsz |].
    exists evs1, (buf b0). split; [exact Hq1 |]. split; [exact Hs |].
    split; [auto |]. split; [exact He1 |]. simpl. rewrite Hb1.
    subst b0. simpl. rewrite append_assoc, append_nil_l, take_drop.
    reflexivity. }
  destruct (file_Write (wr b1) _ o1) as [[e|] o2] eqn:Ew;
    pose proof (file_Write_inv _ _ _ _ _ Ew) as Hw;
    rewrite Hwr in Hw; intros [= <- <- <-];
    (split; [exact Hwr |]); (split; [exact Hsz |]).
  - exists (evs1 ++ [EvWrite (wr b0) (string_drop (Available b) p)])%list,
           (buf b0 +:+ "").
    split; [apply writer_events_app; [exact Hq1 | reflexivity] |].
    split; [| reflexivity].
    apply (world_step_trans _ _ _ _ _ _ _ _ Hs Hw).
  - exists (evs1 ++ [EvWrite (wr b0) (string_drop (Available b) p)])%list,
           (buf b0 +:+ string_drop (Available b) p).
    split; [apply writer_events_app; [exact Hq1 | reflexivity] |].
    split; [apply (world_step_trans _ _ _ _ _ _ _ _ Hs Hw) |].
    split; [auto |]. split; [exact He1 |].
    rewrite Hb1, append_nil_r. subst b0. simpl.
    rewrite append_assoc, take_drop. reflexivity.
Qed.

(** ** The steps of an append *)

Lemma same_position_refl (w : WAL) : same_position w w.
Proof. repeat split. Qed.

Lemma same_position_trans (w1 w2 w3 : WAL) :
  same_position w1 w2 -> same_position w2 w3 -> same_position w1 w3.
Proof.
  intros (H1 & H2 & H3 & H4 & H5) (K1 & K2 & K3 & K4 & K5).
  repeat split; congruence.
Qed.

Section EngineFacts.

Context {P : Type}.
Variable jsonMarshal : LogEntry P -> option string.

Lemma Encode_inv (entry : LogEntry P) (w w' : WAL) (o o' : World)
    (err : option error) :
  Encode jsonMarshal entry (w, o) = (err, (w', o')) ->
  same_position w w'
  /\ exists evs written,
       writer_events evs
       /\ world_step (EvEncode (Offset entry) (Topic entry) :: evs)
            (name (wr (writer w))) written o o'
       /\ match err with
          | None =>
              exists js,
                jsonMarshal entry = Some js
                /\ werr (writer w') = None
                /\ written +:+ buf (writer w') =
                   buf (writer w) +:+ js +:+ String "010" ""
          | Some _ =>
              writer w' = writer w \/ exists e, werr (writer w') = Some e
          end.
Proof.
  unfold Encode, bind, liftW, getWAL, gets, modifyWAL, modify, ret, emit.
  simpl. set (o0 := set_trace _ o).
  assert (H0 : world_step [EvEncode (Offset entry) (Topic entry)]
                 (name (wr (writer w))) "" o o0)
    by (apply world_step_quiet; reflexivity).
  destruct (enc_err (encoder w)) as [e|].
  { intros [= <- <- <-]. split; [apply same_position_refl |].
    exists [], "". split; [reflexivity |]. split; [exact H0 | now left]. }
  destruct (jsonMarshal entry) as [js|].
  2:{ intros [= <- <- <-]. split; [apply same_position_refl |].
      exists [], "". split; [reflexivity |]. split; [exact H0 | now left]. }
  destruct (Writer_Write _ _ _) as [[e b] o1] eqn:Ew.
  apply Writer_Write_inv in Ew.
  destruct Ew as (Hwr & Hsz & evs & written & Hq & Hs & Hm).
  pose proof (world_step_trans _ _ _ _ _ _ _ _ H0 Hs) as Hs'.
  destruct e as [e|]; simpl; intros [= <- <- <-];
    (split; [repeat split; auto |]); exists evs, written;
    (split; [exact Hq |]); (split; [exact Hs' |]); [right; eauto |].
  exists js. destruct Hm as (_ & He & Hb). auto.
Qed.

Lemma FlushE_inv (w w' : WAL) (o o' : World) (err : option error) :
  FlushE (w, o) = (err, (w', o')) ->
  same_position w w'
  /\ match err with
     | None =>
         buf (writer w') = "" /\ werr (writer w') = None
         /\ exists o1,
              world_step
                (EvFlush (wr (writer w)) ::
                 match buf (writer w) with
                 | EmptyString => []
                 | _ => [EvWrite (wr (writer w)) (buf (writer w))]
                 end)
                (name (wr (writer w))) (buf (writer w)) o o1
              /\ world_sync [EvSync (currentSegment w)]
                   (name (currentSegment w)) o1 o'
     | Some e =>
         exists c evs written,
           writer_events evs
           /\ ((e = Errorf "failed to flush writer" c
                /\ world_step evs (name (wr (writer w))) written o o')
               \/ (e = Errorf "failed to sync segment file" c
                   /\ world_step (evs ++ [EvSync (currentSegment w)])
                        (name (wr (writer w))) written o o'))
     end.
Proof.
  unfold FlushE, bind, liftW, getWAL, gets, modifyWAL, modify, ret.
  simpl.
  destruct (Writer_Flush (writer w) o) as [[e b] o1] eqn:Ef.
  apply Writer_Flush_inv in Ef. destruct Ef as (Hwr & Hsz & Hf).
  destruct e as [e|]; simpl.
  { intros [= <- <- <-]. destruct Hf as (_ & _ & evs & Hq & Hs).
    split; [repeat split; auto |].
    exists e, evs, "". split; [exact Hq |]. left. now split. }
  destruct Hf as (_ & He & Hb & Hs).
  destruct (file_Sync (currentSegment w) o1) as [[e|] o2] eqn:Es;
    apply file_Sync_inv in Es; intros [= <- <- <-];
    (split; [repeat split; auto |]).
  - set (evs1 := EvFlush _ :: _) in Hs.
    exists e, evs1, (buf (writer w) +:+ "").
    split; [subst evs1; now destruct (buf (writer w)) |].
    right. split; [reflexivity |].
    apply (world_step_trans _ _ _ _ _ _ _ _ Hs).
    eapply world_step_repath. exact Es.
  - simpl. split; [exact Hb |]. split; [exact He |]. eauto.
Qed.

End EngineFacts.

Lemma segmentFileName_frame (d : string) (i : Z) (o o' : World) (n : string) :
  segmentFileName d i o = (n, o') ->
  trace o' = trace o
  /\ (forall p, file_data o' p = file_data o p)
  /\ (forall p, file_synced o' p = file_synced o p)
  /\ (cache_consistent (segmentNameCache o) ->
      n = segmentPath d i /\ cache_consistent (segmentNameCache o')).
Proof.
  intros H.
  assert (Hfs : fs o' = fs o /\ trace o' = trace o).
  { revert H. unfold segmentFileName, bind, gets, ret, modify. simpl.
    destruct (segmentNameCache o !! cacheKey d i); intros [= <- <-]; auto. }
  destruct Hfs as [Hfs Ht].
  split; [exact Ht |].
  split; [intros p; unfold file_data; now rewrite Hfs |].
  split; [intros p; unfold file_synced; now rewrite Hfs |].
  intros Hc. destruct (segmentFileName_spec d i o Hc) as (Hn & Hc' & _).
  rewrite H in Hn, Hc'. auto.
Qed.

Section RotationFacts.

Context {P : Type}.
Variable jsonMarshal : LogEntry P -> option string.

(** A rotation that succeeds on an engine whose buffer is empty. *)
Lemma rotateSegment_ok (w w' : WAL) (o o' : World) :
  rotateSegment (w, o) = (None, (w', o')) ->
  wal_wf w -> buf (writer w) = "" ->
  let f := currentSegment w in
  let index' := wrap64 (currentSegmentIndex w + 1) in
  directory w' = directory w
  /\ currentSegmentIndex w' = index'
  /\ offset w' = wrap64 (offset w + 1)
  /\ writer w' = NewWriterSize (currentSegment w') bufferSize
  /\ encoder w' = NewEncoder
  /\ trace o' = (trace o ++ [EvFlush f; EvSync f; EvClose f;
                             EvOpenFile (name (currentSegment w')) openFlags])%list
  /\ (forall p, file_data o' p = file_data o p)
  /\ (forall p, file_synced o' p =
                if decide (p = name f) then file_data o p else file_synced o p)
  /\ (cache_consistent (segmentNameCache o) ->
      name (currentSegment w') = segmentPath (directory w) index'
      /\ cache_consistent (segmentNameCache o')).
Proof.
  intros H Hwf Hbuf. simpl.
  unfold rotateSegment, bind in H.
  destruct (FlushE (w, o)) as [[e|] [w1 o1]] eqn:Ef; [discriminate |].
  apply FlushE_inv in Ef.
  destruct Ef as ((Ho1 & Hi1 & Hc1 & Hd1 & Hw1) & Hb1 & He1 & o0 & Hs0 & Hs1).
  rewrite Hbuf in Hs0. rewrite Hwf in Hs0.
  unfold getWAL, gets, liftW, modifyWAL, modify, ret in H. simpl in H.
  destruct (file_Close (currentSegment w1) o1) as [[e|] o2] eqn:Ec;
    [discriminate |].
  apply file_Close_inv in Ec. rewrite Hc1 in Ec.
  simpl in H.
  destruct (segmentFileName _ _ o2) as [path o3] eqn:En.
  apply segmentFileName_frame in En.
  destruct En as (Ht3 & Hd3 & Hs3 & Hcache). simpl in H.
  destruct (os_OpenFile path openFlags o3) as [[f'|e] o4] eqn:Eo;
    simpl in H; [| discriminate].
  apply os_OpenFile_inv in Eo. destruct Eo as (Hs4 & Hn).
  simpl in H. injection H as <- <-. simpl.
  pose proof (world_step_data _ _ _ _ Hs0) as Hd0.
  pose proof (world_step_data _ _ _ _ Ec) as Hd2.
  pose proof (world_step_data _ _ _ _ Hs4) as Hd4.
  destruct Hs0 as (Ht0 & Hk0 & _ & Hy0).
  destruct Hs1 as (Ht1 & Hk1 & Hdd1 & Hy1).
  destruct Ec as (Ht2 & Hk2 & _ & Hy2).
  destruct Hs4 as (Ht4 & Hk4 & _ & Hy4).
  split; [exact Hd1 |]. split; [now rewrite Hi1 |].
  split; [now rewrite Ho1 |]. split; [reflexivity |].
  split; [reflexivity |].
  split.
  { rewrite Ht4, Ht3, Ht2, Ht1, Ht0, Hn. now rewrite <- !app_assoc. }
  split.
  { intros p. now rewrite Hd4, Hd3, Hd2, Hdd1, Hd0. }
  split.
  { intros p. rewrite Hy4, Hs3, Hy2, Hy1, Hy0, Hd0. reflexivity. }
  intros Hc. rewrite Hd1, Hi1 in Hcache.
  destruct Hcache as [Hp Hc3]; [now rewrite Hk2, Hk1, Hk0 |].
  split; [congruence |]. now rewrite Hk4.
Qed.

(** A rotation never separates the writer from the current segment. *)
Lemma rotateSegment_wf (w w' : WAL) (o o' : World) (err : option error) :
  rotateSegment (w, o) = (err, (w', o')) -> wal_wf w -> wal_wf w'.
Proof.
  unfold wal_wf. intros H Hwf.
  unfold rotateSegment, bind in H.
  destruct (FlushE (w, o)) as [[e|] [w1 o1]] eqn:Ef;
    apply FlushE_inv in Ef; destruct Ef as ((_ & _ & Hc1 & _ & Hw1) & _).
  { injection H as <- <- <-. congruence. }
  unfold getWAL, gets, liftW, modifyWAL, modify, ret in H. simpl in H.
  destruct (file_Close (currentSegment w1) o1) as [[e|] o2].
  { injection H as <- <- <-. congruence. }
  simpl in H.
  destruct (segmentFileName _ _ o2) as [path o3]. simpl in H.
  destruct (os_OpenFile path openFlags o3) as [[f'|e] o4]; simpl in H;
    injection H as <- <- <-; simpl; congruence.
Qed.

End RotationFacts.

(** ** A whole append *)

Ltac list_eq := repeat (rewrite <- ?app_assoc; simpl); reflexivity.

Section AppendFacts.

Context {P : Type}.
Variable jsonMarshal : LogEntry P -> option string.

(** The first two steps of [WriteLog], both successful: the entry is in
    the segment file and durable. *)
Lemma written_and_synced (entry : LogEntry P) (w w1 w2 : WAL)
    (o o1 o2 : World) :
  Encode jsonMarshal entry (w, o) = (None, (w1, o1)) ->
  FlushE (w1, o1) = (None, (w2, o2)) ->
  wal_wf w ->
  let seg := name (currentSegment w) in
  same_position w w2
  /\ buf (writer w2) = "" /\ werr (writer w2) = None
  /\ exists js evs,
       jsonMarshal entry = Some js
       /\ writer_events evs
       /\ trace o2 = (trace o ++ EvEncode (Offset entry) (Topic entry) :: evs
                              ++ [EvSync (currentSegment w)])%list
       /\ segmentNameCache o2 = segmentNameCache o
       /\ (forall p, file_data o2 p =
                     if decide (p = seg)
                     then file_data o seg +:+ buf (writer w) +:+ js +:+ String "010" ""
                     else file_data o p)
       /\ (forall p, file_synced o2 p =
                     if decide (p = seg) then file_data o2 p
                     else file_synced o p).
Proof.
  intros He Hf Hwf seg.
  apply Encode_inv in He.
  destruct He as (Hp1 & evs1 & written & Hq1 & Hs1 & js & Hjs & Hw1 & Hb1).
  apply FlushE_inv in Hf.
  destruct Hf as (Hp2 & Hb2 & Hw2 & o1' & Hs2 & Hy).
  pose proof Hp1 as (_ & _ & Hc1 & _ & Hwr1).
  rewrite Hwr1 in Hs2. rewrite Hc1 in Hy. rewrite Hwf in Hs1, Hs2.
  fold seg in Hs1, Hs2, Hy.
  set (evs2 := EvFlush _ :: _) in Hs2.
  assert (Hq2 : writer_events evs2)
    by (subst evs2; now destruct (buf (writer w1))).
  pose proof (world_step_trans _ _ _ _ _ _ _ _ Hs1 Hs2) as Hs.
  rewrite Hb1 in Hs.
  destruct Hs as (Ht & Hk & Hd & Hsy).
  destruct Hy as (Ht' & Hk' & Hd' & Hsy').
  split; [eapply same_position_trans; eauto |].
  split; [exact Hb2 |]. split; [exact Hw2 |].
  exists js, (evs1 ++ evs2)%list.
  split; [exact Hjs |].
  split; [apply writer_events_app; [exact Hq1 | exact Hq2] |].
  split.
  { rewrite Ht', Ht. list_eq. }
  split; [congruence |].
  split.
  { intros p. rewrite Hd', Hd. now destruct (decide (p = seg)) as [->|]. }
  intros p. rewrite Hsy', Hd', Hsy. reflexivity.
Qed.

(** What a successful [WriteLog] has done. *)
Lemma WriteLog_ok (topic : string) (payload : P) (w w' : WAL) (o o' : World) :
  WriteLog jsonMarshal topic payload (w, o) = (None, (w', o')) ->
  wal_wf w ->
  let seg := currentSegment w in
  exists js evs,
    jsonMarshal {| Offset := offset w; Topic := topic; Payload := payload |}
      = Some js
    /\ writer_events evs
    /\ let data' := file_data o (name seg) +:+ buf (writer w) +:+ js +:+ String "010" "" in
       (forall p, file_data o' p =
                  if decide (p = name seg) then data' else file_data o p)
       /\ (forall p, file_synced o' p =
                     if decide (p = name seg) then data' else file_synced o p)
       /\ directory w' = directory w
       /\ wal_wf w'
       /\ buf (writer w') = "" /\ werr (writer w') = None
       /\ if maxSegmentSize <=? Z.of_nat (String.length data')
          then
            currentSegmentIndex w' = wrap64 (currentSegmentIndex w + 1)
            /\ offset w' = wrap64 (wrap64 (offset w + 1) + 1)
            /\ writer w' = NewWriterSize (currentSegment w') bufferSize
            /\ encoder w' = NewEncoder
            /\ trace o' =
               (trace o ++ EvEncode (offset w) topic :: evs ++
                [EvSync seg; EvStat seg; EvFlush seg; EvSync seg; EvClose seg;
                 EvOpenFile (name (currentSegment w')) openFlags])%list
            /\ (cache_consistent (segmentNameCache o) ->
                name (currentSegment w') =
                  segmentPath (directory w)
                    (wrap64 (currentSegmentIndex w + 1))
                /\ cache_consistent (segmentNameCache o'))
          else
            currentSegmentIndex w' = currentSegmentIndex w
            /\ offset w' = wrap64 (offset w + 1)
            /\ currentSegment w' = seg
            /\ trace o' =
               (trace o ++ EvEncode (offset w) topic :: evs ++
                [EvSync seg; EvStat seg])%list
            /\ segmentNameCache o' = segmentNameCache o.
Proof.
  intros H Hwf seg. unfold WriteLog, bind in H.
  unfold getWAL at 1, gets in H. simpl in H.
  destruct (Encode _ _ (w, o)) as [[e|] [w1 o1]] eqn:He; [discriminate |].
  destruct (FlushE (w1, o1)) as [[e|] [w2 o2]] eqn:Hf; [discriminate |].
  destruct (written_and_synced _ _ _ _ _ _ _ He Hf Hwf)
    as (Hpos & Hb2 & Hw2 & js & evs & Hjs & Hq & Ht & Hk & Hd & Hsy).
  simpl in Ht, Hd, Hsy. fold seg in Hd, Hsy.
  destruct Hpos as (Hoff & Hidx & Hseg & Hdir & Hwr).
  unfold getWAL, gets, liftW, modifyWAL, modify, ret in H. simpl in H.
  destruct (file_Stat (currentSegment w2) o2) as [[sz|e] o3] eqn:Est;
    simpl in H; [| discriminate].
  apply file_Stat_inv in Est. destruct Est as (Hst & Hsz).
  rewrite Hseg in Hst, Hsz. fold seg in Hst, Hsz.
  pose proof (world_step_data _ _ _ _ Hst) as Hd3.
  destruct Hst as (Ht3 & Hk3 & _ & Hsy3).
  rewrite Hd in Hsz. destruct (decide (name seg = name seg)) as [_|Hne]; [| now elim Hne].
  exists js, evs. split; [exact Hjs |]. split; [exact Hq |]. simpl.
  rewrite <- Hsz.
  assert (Hwf2 : wal_wf (set_offset (wrap64 (offset w2 + 1)) w2)).
  { unfold wal_wf. simpl. congruence. }
  destruct (maxSegmentSize <=? sz) eqn:Hrot.
  - destruct (rotateSegment _) as [[e|] [w4 o4]] eqn:Er; [discriminate |].
    injection H as <- <-.
    pose proof (rotateSegment_wf _ _ _ _ _ Er Hwf2) as Hwf4.
    apply rotateSegment_ok in Er; [| exact Hwf2 | exact Hb2].
    simpl in Er.
    destruct Er as (Hdir4 & Hidx4 & Hoff4 & Hwr4 & Henc4 & Ht4 & Hd4 & Hsy4 & Hc4).
    split; [intros p; now rewrite Hd4, Hd3, Hd |].
    split.
    { intros p. rewrite Hsy4, Hsy3, Hsy, Hd3, Hd, Hseg.
      fold seg. destruct (decide (p = name seg)); reflexivity. }
    split; [congruence |]. split; [exact Hwf4 |].
    split; [now rewrite Hwr4 |]. split; [now rewrite Hwr4 |].
    split; [congruence |]. split; [congruence |].
    split; [exact Hwr4 |]. split; [exact Henc4 |].
    split.
    { rewrite Ht4, Ht3, Ht, Hseg. fold seg. list_eq. }
    intros Hc. rewrite Hk3, Hk, Hdir, Hidx in Hc4. auto.
  - injection H as <- <-. simpl.
    split; [intros p; now rewrite Hd3, Hd |].
    split.
    { intros p. rewrite Hsy3, Hsy, Hd.
      destruct (decide (p = name seg)); reflexivity. }
    split; [exact Hdir |]. split; [exact Hwf2 |].
    split; [exact Hb2 |]. split; [exact Hw2 |].
    split; [exact Hidx |]. split; [congruence |]. split; [exact Hseg |].
    split; [| congruence].
    rewrite Ht3, Ht. list_eq.
Qed.

End AppendFacts.

(** ** Opening the log *)

Lemma os_MkdirAll_inv (path : string) (o o' : World) (r : option error) :
  os_MkdirAll path o = (r, o') -> world_step [EvMkdirAll path] path "" o o'.
Proof.
  unfold os_MkdirAll, bind, emit, gets, modify, ret, nextFault. simpl.
  destruct (fs o !! path) as [[|f]|] eqn:E; simpl;
    try (intros [= <- <-]; apply world_step_quiet; reflexivity).
  destruct (faults o) as [|[c|] rest]; simpl; intros [= <- <-];
    apply world_step_quiet; try reflexivity; intros p.
  - unfold file_data. simpl. rewrite lookup_insert.
    destruct (decide (path = p)) as [<-|]; [now rewrite E | reflexivity].
  - unfold file_synced. simpl. rewrite lookup_insert.
    destruct (decide (path = p)) as [<-|]; [now rewrite E | reflexivity].
  - unfold file_data. simpl. rewrite lookup_insert.
    destruct (decide (path = p)) as [<-|]; [now rewrite E | reflexivity].
  - unfold file_synced. simpl. rewrite lookup_insert.
    destruct (decide (path = p)) as [<-|]; [now rewrite E | reflexivity].
Qed.

Lemma os_ReadDir_inv (path : string) (o o' : World) (r : result (list DirEntry)) :
  os_ReadDir path o = (r, o') -> world_step [EvReadDir path] path "" o o'.
Proof.
  unfold os_ReadDir, bind, emit, gets, modify, ret, nextFault. simpl.
  destruct (fs o !! path) as [[|f]|] eqn:E; simpl;
    try (intros [= <- <-]; apply world_step_quiet; reflexivity).
  destruct (faults o) as [|[c|] rest]; simpl; intros [= <- <-];
    apply world_step_quiet; reflexivity.
Qed.

Lemma findLastSegemtIndex_inv (d : string) (o o' : World) (r : Z * option error) :
  findLastSegemtIndex d o = (r, o') -> world_step [EvReadDir d] d "" o o'.
Proof.
  unfold findLastSegemtIndex, bind, ret.
  destruct (os_ReadDir d o) as [[entries|e] o1] eqn:E;
    apply os_ReadDir_inv in E.
  - destruct (_ =? 0); intros [= <- <-]; exact E.
  - intros [= <- <-]. exact E.
Qed.

(** What [newWriteAheadLOG] returns when it succeeds. *)
Lemma newWriteAheadLOG_ok (o o' : World) (w : WAL) :
  newWriteAheadLOG o = (Ok w, o') ->
  let path := name (currentSegment w) in
  directory w = walDir
  /\ wal_wf w
  /\ writer w = NewWriterSize (currentSegment w) bufferSize
  /\ encoder w = NewEncoder
  /\ offset w = wrap64 (1 + Z.of_nat (String.length (file_data o path)))
  /\ (forall p, file_data o' p = file_data o p)
  /\ (forall p, file_synced o' p = file_synced o p)
  /\ trace o' = (trace o ++ [EvMkdirAll walDir; EvReadDir walDir;
                             EvOpenFile path openFlags;
                             EvStat (currentSegment w)])%list
  /\ currentSegmentIndex w
     = fst (fst (findLastSegemtIndex walDir (snd (os_MkdirAll walDir o))))
  /\ (cache_consistent (segmentNameCache o) ->
      path = segmentPath walDir (currentSegmentIndex w)
      /\ cache_consistent (segmentNameCache o')).
Proof.
  intros H. unfold newWriteAheadLOG, bind in H.
  destruct (os_MkdirAll walDir o) as [[e|] o1] eqn:E1; [discriminate |].
  destruct (findLastSegemtIndex walDir o1) as [[idx [e|]] o2] eqn:E2;
    [discriminate |].
  assert (Hidx : idx = fst (fst (findLastSegemtIndex walDir o1)))
    by now rewrite E2.
  apply os_MkdirAll_inv in E1.
  apply findLastSegemtIndex_inv in E2.
  destruct (segmentFileName walDir idx o2) as [path o3] eqn:E3.
  apply segmentFileName_frame in E3. destruct E3 as (Ht3 & Hd3 & Hs3 & Hc3).
  destruct (os_OpenFile path openFlags o3) as [[f|e] o4] eqn:E4;
    [| discriminate].
  apply os_OpenFile_inv in E4. destruct E4 as (E4 & Hn).
  unfold calculateOffset, bind, ret in H.
  destruct (file_Stat f o4) as [[sz|e] o5] eqn:E5.
  2:{ destruct (file_Close f o5); discriminate. }
  apply file_Stat_inv in E5. destruct E5 as (E5 & Hsz).
  injection H as <- <-.
  cbn [directory currentSegment writer currentSegmentIndex offset encoder].
  pose proof (world_step_data _ _ _ _ E1) as Hd1.
  pose proof (world_step_data _ _ _ _ E2) as Hd2.
  pose proof (world_step_data _ _ _ _ E4) as Hd4.
  pose proof (world_step_data _ _ _ _ E5) as Hd5.
  destruct E1 as (Ht1 & Hk1 & _ & Hy1). destruct E2 as (Ht2 & Hk2 & _ & Hy2).
  destruct E4 as (Ht4 & Hk4 & _ & Hy4). destruct E5 as (Ht5 & Hk5 & _ & Hy5).
  split; [reflexivity |]. split; [reflexivity |]. split; [reflexivity |].
  split; [reflexivity |].
  split. { now rewrite Hsz, Hd4, Hd3, Hd2, Hd1. }
  split. { intros p. now rewrite Hd5, Hd4, Hd3, Hd2, Hd1. }
  split. { intros p. now rewrite Hy5, Hy4, Hs3, Hy2, Hy1. }
  split. { rewrite Ht5, Ht4, Ht3, Ht2, Ht1, Hn. list_eq. }
  split; [exact Hidx |].
  intros Hc. rewrite Hk2, Hk1 in Hc3. destruct (Hc3 Hc) as [Hp Hc'].
  split; [congruence |]. now rewrite Hk5, Hk4.
Qed.

Lemma wrap64_small (z : Z) : in_int64 z -> wrap64 z = z.
Proof.
  unfold wrap64, in_int64. intros H.
  rewrite Z.mod_small; lia.
Qed.

(** C6: the offset of a freshly opened engine is 1 plus the size in bytes of
    the segment file it resumes, whatever the number of records in that
    file: 1 for an empty file and for a file that did not exist; and this
    is the offset of the first entry written. *)
Theorem newWriteAheadLOG_offset_from_size :
  forall (o o' : World) (w : WAL),
    newWriteAheadLOG o = (Ok w, o') ->
    let path := name (currentSegment w) in
    let sz := Z.of_nat (String.length (file_data o path)) in
    offset w = wrap64 (1 + sz)
    /\ (sz < 2 ^ 63 - 1 -> offset w = 1 + sz)
    /\ (file_data o path = "" -> offset w = 1)
    /\ (fs o !! path = None -> offset w = 1)
    /\ file_data o' path = file_data o path
    /\ (cache_consistent (segmentNameCache o) ->
        path = segmentPath walDir (currentSegmentIndex w))
    /\ currentSegmentIndex w
       = fst (fst (findLastSegemtIndex walDir (snd (os_MkdirAll walDir o))))
    /\ forall (P : Type) (jsonMarshal : LogEntry P -> option string)
              (topic : string) (payload : P) (w1 : WAL) (o1 : World),
         WriteLog jsonMarshal topic payload (w, o') = (None, (w1, o1)) ->
         exists js,
           jsonMarshal {| Offset := wrap64 (1 + sz); Topic := topic;
                          Payload := payload |} = Some js
           /\ file_data o1 path = file_data o path +:+ js +:+ String "010" "".
Proof.
  intros o o' w H path sz.
  destruct (newWriteAheadLOG_ok _ _ _ H)
    as (Hdir & Hwf & Hwr & Henc & Hoff & Hd & Hsy & Ht & Hidx & Hc).
  fold path in Hoff, Hc. fold sz in Hoff.
  split; [exact Hoff |].
  split. { intros Hs. rewrite Hoff. apply wrap64_small. unfold in_int64. lia. }
  split. { intros He. rewrite Hoff. subst sz. now rewrite He. }
  split. { intros Hn. rewrite Hoff. subst sz. unfold file_data. now rewrite Hn. }
  split; [apply Hd |].
  split; [intros Hk; exact (proj1 (Hc Hk)) |].
  split; [exact Hidx |].
  intros P jsonMarshal topic payload w1 o1 Hw.
  destruct (WriteLog_ok _ _ _ _ _ _ _ Hw Hwf) as (js & evs & Hjs & _ & Hd1 & _).
  exists js. rewrite <- Hoff. split; [exact Hjs |].
  rewrite Hd1. fold path. destruct (decide (path = path)) as [_|Hne];
    [| now elim Hne].
  rewrite Hd, Hwr. reflexivity.
Qed.

(** The engine opened on a segment that holds one record of 49 bytes starts
    at offset 50, not at 2. *)
Lemma newWriteAheadLOG_offset_from_size_witness :
  newWriteAheadLOG oneRecordWorld
    = (Ok resumedWAL, snd (newWriteAheadLOG oneRecordWorld))
  /\ String.length record1 = 49%nat
  /\ offset resumedWAL = 1 + 49.
Proof.
  assert (H : newWriteAheadLOG oneRecordWorld
              = (Ok resumedWAL, snd (newWriteAheadLOG oneRecordWorld)))
    by (vm_compute; reflexivity).
  split; [exact H |]. split; [reflexivity |].
  destruct (newWriteAheadLOG_offset_from_size _ _ _ H) as (_ & Hsz & _).
  apply Hsz. vm_compute. reflexivity.
Defined.

(** ** Rotation *)

Lemma cache_consistent_empty : cache_consistent ∅.
Proof. intros d i cached. rewrite lookup_empty. discriminate. Qed.

Lemma freshWorld_spec :
  newWriteAheadLOG emptyWorld = (Ok freshWAL, freshWorld)
  /\ wal_wf freshWAL
  /\ cache_consistent (segmentNameCache freshWorld).
Proof.
  assert (H : newWriteAheadLOG emptyWorld = (Ok freshWAL, freshWorld))
    by (vm_compute; reflexivity).
  split; [exact H |]. split; [reflexivity |].
  apply (newWriteAheadLOG_ok _ _ _ H). apply cache_consistent_empty.
Qed.

(** C5: when, after the write, the current segment has reached
    [maxSegmentSize], the append that succeeds has, after the size check and
    in this order, flushed the buffered writer, fsynced and closed the
    segment, and opened with [O_CREATE|O_RDWR|O_APPEND] the file of the
    segment whose index is the previous index plus 1; the engine then holds
    that index, that file and a fresh buffered writer on it, and the next
    append writes its line to the new segment. *)
Theorem rotation_sequence :
  forall (P : Type) (jsonMarshal : LogEntry P -> option string)
         (topic : string) (payload : P) (w w' : WAL) (o o' : World),
    WriteLog jsonMarshal topic payload (w, o) = (None, (w', o')) ->
    wal_wf w ->
    cache_consistent (segmentNameCache o) ->
    in_int64 (currentSegmentIndex w + 1) ->
    maxSegmentSize
      <= Z.of_nat (String.length (file_data o' (name (currentSegment w)))) ->
    let old := currentSegment w in
    let path' := segmentPath (directory w) (currentSegmentIndex w + 1) in
    (exists before,
        trace o' = (before ++ [EvStat old; EvFlush old; EvSync old; EvClose old;
                               EvOpenFile path' openFlags])%list)
    /\ Z.land openFlags O_APPEND = O_APPEND
    /\ Z.land openFlags O_CREATE = O_CREATE
    /\ currentSegmentIndex w' = currentSegmentIndex w + 1
    /\ name (currentSegment w') = path'
    /\ writer w' = NewWriterSize (currentSegment w') bufferSize
    /\ forall (topic2 : string) (payload2 : P) (w'' : WAL) (o'' : World),
         WriteLog jsonMarshal topic2 payload2 (w', o') = (None, (w'', o'')) ->
         exists js,
           jsonMarshal {| Offset := offset w'; Topic := topic2;
                          Payload := payload2 |} = Some js
           /\ file_data o'' path' = file_data o' path' +:+ js +:+ String "010" "".
Proof.
  intros P jsonMarshal topic payload w w' o o' H Hwf Hc Hidx Hsz old path'.
  destruct (WriteLog_ok _ _ _ _ _ _ _ H Hwf)
    as (js & evs & Hjs & Hq & Hd & Hsy & Hdir & Hwf' & Hb' & He' & Hrot).
  subst old. rewrite Hd in Hsz.
  destruct (decide (name (currentSegment w) = name (currentSegment w)))
    as [_|Hne]; [| now elim Hne].
  apply Z.leb_le in Hsz. rewrite Hsz in Hrot.
  destruct Hrot as (Hi & Ho & Hw & Hen & Ht & Hp).
  destruct (Hp Hc) as [Hn Hc'].
  rewrite (wrap64_small _ Hidx) in Hi, Hn. fold path' in Hn.
  split.
  { exists (trace o ++ EvEncode (offset w) topic :: evs
            ++ [EvSync (currentSegment w)])%list.
    rewrite Ht, Hn. list_eq. }
  split; [reflexivity |]. split; [reflexivity |].
  split; [exact Hi |]. split; [exact Hn |]. split; [exact Hw |].
  intros topic2 payload2 w'' o'' H2.
  destruct (WriteLog_ok _ _ _ _ _ _ _ H2 Hwf') as (js2 & _ & Hjs2 & _ & Hd2 & _).
  exists js2. split; [exact Hjs2 |].
  rewrite Hd2, Hn, Hb'. destruct (decide (path' = path')) as [_|Hne];
    [reflexivity | now elim Hne].
Qed.

(** The fresh engine rotates on its first append when the line written is
    longer than the threshold. *)
Lemma rotation_sequence_witness :
  currentSegmentIndex (fst rotatedState) = 2
  /\ name (currentSegment (fst rotatedState)) = "wal_data/wal_2.log"
  /\ writer (fst rotatedState)
     = NewWriterSize {| fd := 4; name := "wal_data/wal_2.log" |} bufferSize.
Proof.
  destruct freshWorld_spec as (_ & Hwf & Hc).
  assert (H : WriteLog demoMarshal "orders" bigPayload (freshWAL, freshWorld)
              = (None, (fst rotatedState, snd rotatedState)))
    by (vm_compute; reflexivity).
  assert (Hidx : in_int64 (currentSegmentIndex freshWAL + 1))
    by (unfold in_int64; simpl; lia).
  assert (Hsz : maxSegmentSize
                <= Z.of_nat (String.length
                     (file_data (snd rotatedState) (name (currentSegment freshWAL)))))
    by (vm_compute; discriminate).
  destruct (rotation_sequence _ _ _ _ _ _ _ _ H Hwf Hc Hidx Hsz)
    as (_ & _ & _ & Hi & Hn & Hw & _).
  split; [exact Hi |]. split; [exact Hn |]. rewrite Hw. vm_compute. reflexivity.
Defined.

(** ** Appends that fail *)

Lemma writer_events_not_sync (evs : list Event) (f : osFile) :
  writer_events evs -> ~ In (EvSync f) evs.
Proof.
  unfold writer_events. induction evs as [|ev evs IH]; simpl; [tauto |].
  intros H [Heq|Hin]; apply andb_true_iff in H as [H1 H2].
  - subst ev. discriminate.
  - now apply IH.
Qed.

Section FailureFacts.

Context {P : Type}.
Variable jsonMarshal : LogEntry P -> option string.

(** [WriteLog] stops at the first step that fails and wraps its error. *)
Lemma WriteLog_encode_failure (topic : string) (payload : P) (s s1 : St)
    (c : error) :
  Encode jsonMarshal
    {| Offset := offset (fst s); Topic := topic; Payload := payload |} s
    = (Some c, s1) ->
  WriteLog jsonMarshal topic payload s
    = (Some (Errorf "failed to encode log entry" c), s1).
Proof.
  intros H. unfold WriteLog, bind. unfold getWAL at 1, gets.
  now rewrite H.
Qed.

Lemma WriteLog_flush_failure (topic : string) (payload : P) (s s1 s2 : St)
    (c : error) :
  Encode jsonMarshal
    {| Offset := offset (fst s); Topic := topic; Payload := payload |} s
    = (None, s1) ->
  FlushE s1 = (Some c, s2) ->
  WriteLog jsonMarshal topic payload s
    = (Some (Errorf "failed to flush log entry" c), s2).
Proof.
  intros H1 H2. unfold WriteLog, bind. unfold getWAL at 1, gets.
  now rewrite H1, H2.
Qed.

(** Every call of [WriteLog] starts by encoding an entry that carries the
    current value of the offset counter. *)
Lemma WriteLog_first_event (topic : string) (payload : P) (w w' : WAL)
    (o o' : World) (r : option error) :
  WriteLog jsonMarshal topic payload (w, o) = (r, (w', o')) ->
  exists evs, trace o' = (trace o ++ EvEncode (offset w) topic :: evs)%list.
Proof.
  intros H. unfold WriteLog, bind in H.
  unfold getWAL at 1, gets in H. simpl in H.
  destruct (Encode _ _ (w, o)) as [[e|] [w1 o1]] eqn:He;
    apply Encode_inv in He;
    destruct He as (Hp1 & evs1 & wr1 & _ & (Ht1 & _) & _).
  { injection H as <- <- <-. eauto. }
  destruct (FlushE (w1, o1)) as [[e|] [w2 o2]] eqn:Hf;
    apply FlushE_inv in Hf; destruct Hf as ((_ & _ & Hc2 & _) & Hf).
  { injection H as <- <- <-.
    destruct Hf as (c & evs & wr2 & _ & [[_ (Ht & _)]|[_ (Ht & _)]]);
      eexists; rewrite Ht, Ht1; list_eq. }
  destruct Hf as (_ & _ & o1' & (Ht2 & _) & (Ht3 & _)).
  unfold getWAL, gets, liftW, modifyWAL, modify, ret in H. simpl in H.
  destruct (file_Stat (currentSegment w2) o2) as [[sz|e] o3] eqn:Est;
    simpl in H; apply file_Stat_inv in Est; destruct Est as ((Ht4 & _) & _).
  2:{ injection H as <- <- <-. eexists. rewrite Ht4, Ht3, Ht2, Ht1. list_eq. }
  destruct (maxSegmentSize <=? sz).
  2:{ injection H as <- <- <-. eexists. rewrite Ht4, Ht3, Ht2, Ht1. list_eq. }
  destruct (rotateSegment _) as [er [w4 o4]] eqn:Er.
  assert (Ht5 : exists evs, trace o4 = (trace o3 ++ evs)%list).
  { clear H. unfold rotateSegment, bind in Er.
    destruct (FlushE _) as [[e|] [w5 o5]] eqn:Hf5;
      apply FlushE_inv in Hf5; destruct Hf5 as ((_ & _ & Hc5 & _) & Hf5).
    { injection Er as <- <- <-.
      destruct Hf5 as (c & evs & wr2 & _ & [[_ (Ht & _)]|[_ (Ht & _)]]);
        eauto. }
    destruct Hf5 as (_ & _ & o5' & (Ht5 & _) & (Ht6 & _)).
    unfold getWAL, gets, liftW, modifyWAL, modify, ret in Er. simpl in Er.
    destruct (file_Close (currentSegment w5) o5) as [[e|] o6] eqn:Ec;
      apply file_Close_inv in Ec; destruct Ec as (Ht7 & _); simpl in Er.
    { injection Er as <- <- <-. eexists. rewrite Ht7, Ht6, Ht5. list_eq. }
    destruct (segmentFileName _ _ o6) as [path o7] eqn:En.
    apply segmentFileName_frame in En. destruct En as (Ht8 & _).
    simpl in Er.
    destruct (os_OpenFile path openFlags o7) as [[f'|e] o8] eqn:Eo;
      apply os_OpenFile_inv in Eo; destruct Eo as ((Ht9 & _) & _);
      simpl in Er; injection Er as <- <- <-;
      eexists; rewrite Ht9, Ht8, Ht7, Ht6, Ht5; list_eq. }
  destruct Ht5 as [evs5 Ht5].
  destruct er; injection H as <- <- <-;
    eexists; rewrite Ht5, Ht4, Ht3, Ht2, Ht1; list_eq.
Qed.

End FailureFacts.

(** C7: when [WriteLog] fails at the encode step, or at the flush or the
    fsync step that follows, it returns an error whose message names the
    step; the offset counter, the segment index and the current segment are
    what they were, no segment has been closed or opened, and the next call
    encodes its entry with the same offset. *)
Theorem WriteLog_failure_before_commit :
  forall (P : Type) (jsonMarshal : LogEntry P -> option string)
         (topic : string) (payload : P) (w w' : WAL) (o o' : World)
         (r : option error),
    WriteLog jsonMarshal topic payload (w, o) = (r, (w', o')) ->
    failsBeforeCommit jsonMarshal topic payload (w, o) ->
    (exists e k evs,
        r = Some e /\ failedStep e = Some k
        /\ (k = AtEncode \/ k = AtFlush \/ k = AtSync)
        /\ (k = AtEncode <->
            fst (Encode jsonMarshal
                   {| Offset := offset w; Topic := topic; Payload := payload |}
                   (w, o)) <> None)
        /\ trace o' = (trace o ++ EvEncode (offset w) topic :: evs)%list
        /\ no_rotation evs
        /\ (k = AtSync <-> In (EvSync (currentSegment w)) evs))
    /\ offset w' = offset w
    /\ currentSegmentIndex w' = currentSegmentIndex w
    /\ currentSegment w' = currentSegment w
    /\ forall (topic2 : string) (payload2 : P) (r2 : option error)
              (w2 : WAL) (o2 : World),
         WriteLog jsonMarshal topic2 payload2 (w', o') = (r2, (w2, o2)) ->
         exists evs2,
           trace o2 = (trace o' ++ EvEncode (offset w) topic2 :: evs2)%list.
Proof.
  intros P jsonMarshal topic payload w w' o o' r H Hfail.
  assert (Hmain :
    (exists e k evs,
        r = Some e /\ failedStep e = Some k
        /\ (k = AtEncode \/ k = AtFlush \/ k = AtSync)
        /\ (k = AtEncode <->
            fst (Encode jsonMarshal
                   {| Offset := offset w; Topic := topic; Payload := payload |}
                   (w, o)) <> None)
        /\ trace o' = (trace o ++ EvEncode (offset w) topic :: evs)%list
        /\ no_rotation evs
        /\ (k = AtSync <-> In (EvSync (currentSegment w)) evs))
    /\ same_position w w').
  { destruct Hfail as [(c & [w1 o1] & He)|([w1 o1] & c & [w2 o2] & He & Hf)];
      simpl in He.
    - rewrite (WriteLog_encode_failure _ _ _ _ _ _ He) in H.
      injection H as <- <- <-.
      pose proof (Encode_inv _ _ _ _ _ _ _ He)
        as (Hpos & evs & wr1 & Hq & (Ht & _) & _).
      split; [| exact Hpos].
      exists (Errorf "failed to encode log entry" c), AtEncode, evs.
      split; [reflexivity |]. split; [reflexivity |]. split; [now left |].
      split; [split; [intros _; now rewrite He | reflexivity] |].
      split; [exact Ht |].
      split; [now apply writer_events_no_rotation |].
      split; [discriminate |].
      intros Hin. now apply writer_events_not_sync in Hin.
    - rewrite (WriteLog_flush_failure _ _ _ _ _ _ _ He Hf) in H.
      injection H as <- <- <-.
      pose proof (Encode_inv _ _ _ _ _ _ _ He)
        as (Hpos1 & evs1 & wr1 & Hq1 & (Ht1 & _) & _).
      pose proof (FlushE_inv _ _ _ _ _ Hf) as (Hpos2 & c' & evs2 & wr2 & Hq2 & Hcase).
      split; [| eapply same_position_trans; eauto].
      destruct Hpos1 as (_ & _ & Hseg1 & _).
      assert (Hq : writer_events (evs1 ++ evs2))
        by now apply writer_events_app.
      destruct Hcase as [[-> (Ht2 & _)]|[-> (Ht2 & _)]].
      + exists (Errorf "failed to flush log entry"
                  (Errorf "failed to flush writer" c')), AtFlush,
               (evs1 ++ evs2)%list.
        split; [reflexivity |]. split; [reflexivity |]. split; [auto |].
        split; [split; [discriminate | intros Hn; now rewrite He in Hn] |].
        split; [rewrite Ht2, Ht1; list_eq |].
        split; [now apply writer_events_no_rotation |].
        split; [discriminate |].
        intros Hin. now apply writer_events_not_sync in Hin.
      + exists (Errorf "failed to flush log entry"
                  (Errorf "failed to sync segment file" c')), AtSync,
               (evs1 ++ evs2 ++ [EvSync (currentSegment w)])%list.
        split; [reflexivity |]. split; [reflexivity |]. split; [auto |].
        split; [split; [discriminate | intros Hn; now rewrite He in Hn] |].
        split; [rewrite Ht2, Ht1, Hseg1; list_eq |].
        split.
        { rewrite app_assoc. apply no_rotation_app;
            [now apply writer_events_no_rotation | reflexivity]. }
        split; [intros _ | reflexivity].
        rewrite app_assoc. apply in_or_app. right. now left. }
  destruct Hmain as (Hm & Hoff & Hidx & Hseg & _).
  split; [exact Hm |]. split; [exact Hoff |]. split; [exact Hidx |].
  split; [exact Hseg |].
  intros topic2 payload2 r2 w2 o2 H2.
  apply WriteLog_first_event in H2. now rewrite Hoff in H2.
Qed.

(** The first append to the fresh engine when its fsync fails. *)
Lemma WriteLog_failure_before_commit_witness :
  let r := WriteLog demoMarshal "orders" payload1 (freshWAL, syncFailsWorld) in
  fst r = Some (Errorf "failed to flush log entry"
                  (Errorf "failed to sync segment file" (Errno 5)))
  /\ offset (fst (snd r)) = 1
  /\ currentSegmentIndex (fst (snd r)) = 1.
Proof.
  set (r := WriteLog demoMarshal "orders" payload1 (freshWAL, syncFailsWorld)).
  assert (H : WriteLog demoMarshal "orders" payload1 (freshWAL, syncFailsWorld)
              = (fst r, (fst (snd r), snd (snd r))))
    by (vm_compute; reflexivity).
  assert (Hf : failsBeforeCommit demoMarshal "orders" payload1
                 (freshWAL, syncFailsWorld)).
  { right.
    exists (snd (Encode demoMarshal
                   {| Offset := 1; Topic := "orders"; Payload := payload1 |}
                   (freshWAL, syncFailsWorld))),
           (Errorf "failed to sync segment file" (Errno 5)), (snd r).
    split; vm_compute; reflexivity. }
  destruct (WriteLog_failure_before_commit _ _ _ _ _ _ _ _ _ H Hf)
    as (_ & Hoff & Hidx & _).
  split; [vm_compute; reflexivity |]. split; [exact Hoff | exact Hidx].
Defined.

Lemma failedStep_flush_not_stat (c : error) :
  failedStep (Errorf "failed to flush log entry" c) <> Some AtStat.
Proof.
  simpl. destruct c as [| | | | | | | |msg c']; try discriminate.
  destruct (String.eqb msg "failed to flush writer"); [discriminate |].
  destruct (String.eqb msg "failed to sync segment file"); discriminate.
Qed.

(** C10: when [WriteLog] returns the error of the size check (the [Stat]
    after the flush and the fsync), the line of the entry is durable in the
    segment file and the offset counter has not moved; the next append that
    succeeds adds a second durable line, for an entry that carries the same
    offset. *)
Theorem stat_failure_reuses_offset :
  forall (P : Type) (jsonMarshal : LogEntry P -> option string)
         (topic : string) (payload : P) (w w' : WAL) (o o' : World) (e : error),
    WriteLog jsonMarshal topic payload (w, o) = (Some e, (w', o')) ->
    failedStep e = Some AtStat ->
    wal_wf w ->
    let seg := name (currentSegment w) in
    exists js,
      jsonMarshal {| Offset := offset w; Topic := topic; Payload := payload |}
        = Some js
      /\ file_synced o' seg
         = file_data o seg +:+ buf (writer w) +:+ js +:+ String "010" ""
      /\ (exists evs,
            trace o' = (trace o ++ EvEncode (offset w) topic :: evs ++
                        [EvSync (currentSegment w); EvStat (currentSegment w)])%list
            /\ writer_events evs)
      /\ offset w' = offset w
      /\ forall (topic2 : string) (payload2 : P) (w'' : WAL) (o'' : World),
           WriteLog jsonMarshal topic2 payload2 (w', o') = (None, (w'', o'')) ->
           exists js2,
             jsonMarshal {| Offset := offset w; Topic := topic2;
                            Payload := payload2 |} = Some js2
             /\ file_synced o'' seg
                = file_synced o' seg +:+ js2 +:+ String "010" "".
Proof.
  intros P jsonMarshal topic payload w w' o o' e H Hstep Hwf seg.
  unfold WriteLog, bind in H. unfold getWAL at 1, gets in H. simpl in H.
  destruct (Encode _ _ (w, o)) as [[c|] [w1 o1]] eqn:He.
  { injection H as <- <- <-. discriminate. }
  destruct (FlushE (w1, o1)) as [[c|] [w2 o2]] eqn:Hf.
  { injection H as <- <- <-. now apply failedStep_flush_not_stat in Hstep. }
  destruct (written_and_synced _ _ _ _ _ _ _ _ He Hf Hwf)
    as (Hpos & Hb2 & Hw2 & js & evs & Hjs & Hq & Ht & Hk & Hd & Hsy).
  simpl in Hjs, Ht, Hd, Hsy. fold seg in Hd, Hsy.
  destruct Hpos as (Hoff & Hidx & Hseg & Hdir & Hwr).
  unfold getWAL, gets, liftW, modifyWAL, modify, ret in H. simpl in H.
  destruct (file_Stat (currentSegment w2) o2) as [[sz|c] o3] eqn:Est;
    simpl in H.
  { destruct (maxSegmentSize <=? sz); [| discriminate].
    destruct (rotateSegment _) as [[c|] s4]; [| discriminate].
    injection H as <- <-. discriminate. }
  injection H as <- <- <-.
  apply file_Stat_inv in Est. destruct Est as (Hst & _).
  pose proof (world_step_data _ _ _ _ Hst) as Hd3.
  destruct Hst as (Ht3 & Hk3 & _ & Hsy3).
  assert (Hdata : file_data o3 seg
                  = file_data o seg +:+ buf (writer w) +:+ js +:+ String "010" "").
  { rewrite Hd3, Hd. destruct (decide (seg = seg)) as [_|Hne];
      [reflexivity | now elim Hne]. }
  assert (Hsynced : file_synced o3 seg = file_data o3 seg).
  { rewrite Hsy3, Hsy, Hd3. destruct (decide (seg = seg)) as [_|Hne];
      [reflexivity | now elim Hne]. }
  exists js. split; [exact Hjs |].
  split; [now rewrite Hsynced |].
  split.
  { exists evs. split; [| exact Hq]. rewrite Ht3, Ht, Hseg. list_eq. }
  split; [exact Hoff |].
  intros topic2 payload2 w'' o'' H2.
  assert (Hwf2 : wal_wf w2) by (unfold wal_wf in *; congruence).
  destruct (WriteLog_ok _ _ _ _ _ _ _ H2 Hwf2)
    as (js2 & _ & Hjs2 & _ & _ & Hsy'' & _).
  exists js2. rewrite <- Hoff. split; [exact Hjs2 |].
  rewrite Hsy'', Hseg, Hb2. fold seg.
  destruct (decide (seg = seg)) as [_|Hne]; [| now elim Hne].
  now rewrite Hsynced.
Qed.

(** The fresh engine when the [Stat] of its first append fails: the record
    with offset 1 is durable, and the append that follows writes a second
    record with offset 1. *)
Lemma stat_failure_reuses_offset_witness :
  let r1 := WriteLog demoMarshal "orders" payload1 (freshWAL, statFailsWorld) in
  let r2 := WriteLog demoMarshal "orders" payload2 (snd r1) in
  fst r1 = Some (Errorf "failed to get file info" (Errno 5))
  /\ fst r2 = None
  /\ file_synced (snd (snd r1)) "wal_data/wal_1.log"
     = demoLine {| Offset := 1; Topic := "orders"; Payload := payload1 |}
  /\ file_synced (snd (snd r2)) "wal_data/wal_1.log"
     = demoLine {| Offset := 1; Topic := "orders"; Payload := payload1 |}
       +:+ demoLine {| Offset := 1; Topic := "orders"; Payload := payload2 |}.
Proof.
  set (r1 := WriteLog demoMarshal "orders" payload1 (freshWAL, statFailsWorld)).
  set (r2 := WriteLog demoMarshal "orders" payload2 (snd r1)).
  assert (H1 : WriteLog demoMarshal "orders" payload1 (freshWAL, statFailsWorld)
               = (Some (Errorf "failed to get file info" (Errno 5)),
                  (fst (snd r1), snd (snd r1))))
    by (vm_compute; reflexivity).
  assert (H2 : WriteLog demoMarshal "orders" payload2 (fst (snd r1), snd (snd r1))
               = (None, (fst (snd r2), snd (snd r2))))
    by (vm_compute; reflexivity).
  destruct (stat_failure_reuses_offset _ _ _ _ _ _ _ _ _ H1 eq_refl eq_refl)
    as (js & Hjs & Hsy & _ & _ & Hnext).
  destruct (Hnext _ _ _ _ H2) as (js2 & Hjs2 & Hsy2).
  injection Hjs as <-. injection Hjs2 as <-.
  split; [vm_compute; reflexivity |]. split; [vm_compute; reflexivity |].
  split; [etransitivity; [exact Hsy | vm_compute; reflexivity] |].
  etransitivity; [exact Hsy2 |].
  etransitivity; [apply (f_equal (fun x => x +:+ _)); exact Hsy |].
  vm_compute. reflexivity.
Defined.

(** ** Offsets across a rotation *)

(** A successful append advances the offset counter by 1 when it does not
    rotate and by 2 when it does: [rotateSegment] adds 1 to the counter that
    [WriteLog] has already advanced. *)
Lemma WriteLog_offset_advance :
  forall (P : Type) (jsonMarshal : LogEntry P -> option string)
         (topic : string) (payload : P) (w w' : WAL) (o o' : World),
    WriteLog jsonMarshal topic payload (w, o) = (None, (w', o')) ->
    wal_wf w ->
    in_int64 (offset w) -> in_int64 (offset w + 2) ->
    let sz := Z.of_nat (String.length (file_data o' (name (currentSegment w)))) in
    (sz < maxSegmentSize -> offset w' = offset w + 1)
    /\ (maxSegmentSize <= sz -> offset w' = offset w + 2).
Proof.
  intros P jsonMarshal topic payload w w' o o' H Hwf Hr0 Hr2 sz.
  destruct (WriteLog_ok _ _ _ _ _ _ _ H Hwf)
    as (js & evs & Hjs & Hq & Hd & _ & _ & _ & _ & _ & Hrot).
  subst sz. rewrite Hd.
  destruct (decide (name (currentSegment w) = name (currentSegment w)))
    as [_|Hne]; [| now elim Hne].
  assert (H1 : wrap64 (offset w + 1) = offset w + 1)
    by (apply wrap64_small; unfold in_int64 in *; lia).
  destruct (Z.leb_spec maxSegmentSize
              (Z.of_nat (String.length
                 (file_data o (name (currentSegment w)) +:+ buf (writer w)
                  +:+ js +:+ String "010" "")))) as [Hge|Hlt].
  - destruct Hrot as (_ & Ho & _). split; [lia |]. intros _.
    rewrite Ho, H1. rewrite wrap64_small; [lia |].
    unfold in_int64 in *. lia.
  - destruct Hrot as (_ & Ho & _). split; [| lia]. intros _. now rewrite Ho.
Qed.

(** C1 fails on the code where an append rotates: on the fresh engine, an
    append whose line fills the segment is followed by an append whose entry
    carries offset 3; the entries written carry 1 and 3, and no entry ever
    carries offset 2. *)
Theorem rotation_skips_an_offset :
  let r1 := WriteLog demoMarshal "orders" bigPayload (freshWAL, freshWorld) in
  let r2 := WriteLog demoMarshal "orders" payload1 (snd r1) in
  fst r1 = None /\ fst r2 = None
  /\ offset freshWAL = 1
  /\ offset (fst (snd r1)) = 3
  /\ offset (fst (snd r2)) = 4
  /\ file_data (snd (snd r2)) "wal_data/wal_1.log"
     = demoLine {| Offset := 1; Topic := "orders"; Payload := bigPayload |}
  /\ file_data (snd (snd r2)) "wal_data/wal_2.log"
     = demoLine {| Offset := 3; Topic := "orders"; Payload := payload1 |}
  /\ trace (snd (snd r2))
     = (trace freshWorld ++
        [EvEncode 1 "orders";
         EvFlush (currentSegment freshWAL);
         EvWrite (currentSegment freshWAL)
           (demoLine {| Offset := 1; Topic := "orders"; Payload := bigPayload |});
         EvSync (currentSegment freshWAL);
         EvStat (currentSegment freshWAL);
         EvFlush (currentSegment freshWAL);
         EvSync (currentSegment freshWAL);
         EvClose (currentSegment freshWAL);
         EvOpenFile "wal_data/wal_2.log" openFlags;
         EvEncode 3 "orders";
         EvFlush (currentSegment (fst (snd r1)));
         EvWrite (currentSegment (fst (snd r1)))
           (demoLine {| Offset := 3; Topic := "orders"; Payload := payload1 |});
         EvSync (currentSegment (fst (snd r1)));
         EvStat (currentSegment (fst (snd r1)))])%list.
Proof. vm_compute. repeat split; reflexivity. Qed.

(** ** Counters across appends of any outcome *)

Lemma appendAll_cons {P : Type} (jsonMarshal : LogEntry P -> option string)
    (req : string * P) (rest : list (string * P)) (s : St) :
  appendAll jsonMarshal (req :: rest) s =
  let (r, s1) := WriteLog jsonMarshal (fst req) (snd req) s in
  let (rs, s2) := appendAll jsonMarshal rest s1 in
  (r :: rs, s2).
Proof.
  simpl. unfold bind, ret.
  destruct (WriteLog _ _ _ s) as [r s1].
  now destruct (appendAll _ rest s1).
Qed.

Section Counters.

Context {P : Type}.
Variable jsonMarshal : LogEntry P -> option string.

(** A rotation adds one to the index and to the counter when it succeeds;
    when it fails the counter stays, and the index has moved only if the
    failure came after line 148. *)
Lemma rotateSegment_counters (w w' : WAL) (o o' : World) (r : option error) :
  rotateSegment (w, o) = (r, (w', o')) ->
  match r with
  | None =>
      offset w' = wrap64 (offset w + 1)
      /\ currentSegmentIndex w' = wrap64 (currentSegmentIndex w + 1)
  | Some _ =>
      offset w' = offset w
      /\ (currentSegmentIndex w' = currentSegmentIndex w
          \/ currentSegmentIndex w' = wrap64 (currentSegmentIndex w + 1))
  end.
Proof.
  intros H. unfold rotateSegment, bind in H.
  destruct (FlushE (w, o)) as [[e|] [w1 o1]] eqn:Ef;
    apply FlushE_inv in Ef; destruct Ef as ((Ho1 & Hi1 & _) & _).
  { injection H as <- <- <-. auto. }
  unfold getWAL, gets, liftW, modifyWAL, modify, ret in H. simpl in H.
  destruct (file_Close (currentSegment w1) o1) as [[e|] o2].
  { injection H as <- <- <-. auto. }
  simpl in H.
  destruct (segmentFileName _ _ o2) as [path o3]. simpl in H.
  destruct (os_OpenFile path openFlags o3) as [[f'|e] o4]; simpl in H;
    injection H as <- <- <-; simpl; rewrite ?Ho1, ?Hi1; auto.
Qed.

(** What one call of [WriteLog] does to the counter and to the index,
    whatever its outcome. *)
Lemma WriteLog_counters (topic : string) (payload : P) (w w' : WAL)
    (o o' : World) (r : option error) :
  WriteLog jsonMarshal topic payload (w, o) = (r, (w', o')) ->
  (offset w' = wrap64 (offset w + 1)
   \/ offset w' = wrap64 (wrap64 (offset w + 1) + 1)
   \/ (r <> None /\ offset w' = offset w))
  /\ (currentSegmentIndex w' = currentSegmentIndex w
      \/ currentSegmentIndex w' = wrap64 (currentSegmentIndex w + 1)).
Proof.
  intros H.
  unfold WriteLog, bind in H. unfold getWAL at 1, gets in H. simpl in H.
  destruct (Encode _ _ (w, o)) as [[c|] [w1 o1]] eqn:He;
    apply Encode_inv in He; destruct He as ((Ho1 & Hi1 & _) & _).
  { injection H as <- <- <-.
    split; [right; right; split; [discriminate | exact Ho1] | left; exact Hi1]. }
  destruct (FlushE (w1, o1)) as [[c|] [w2 o2]] eqn:Hf;
    apply FlushE_inv in Hf; destruct Hf as ((Ho2 & Hi2 & _) & _).
  { injection H as <- <- <-.
    split; [right; right; split; [discriminate | congruence] | left; congruence]. }
  unfold getWAL, gets, liftW, modifyWAL, modify, ret in H. simpl in H.
  destruct (file_Stat (currentSegment w2) o2) as [[sz|c] o3]; simpl in H.
  2:{ injection H as <- <- <-.
      split; [right; right; split; [discriminate | congruence]
             | left; congruence]. }
  destruct (maxSegmentSize <=? sz).
  2:{ injection H as <- <- <-. simpl. split; [left | left]; congruence. }
  destruct (rotateSegment _) as [r4 [w4 o4]] eqn:Er.
  apply rotateSegment_counters in Er. simpl in Er.
  destruct r4 as [c|]; injection H as <- <- <-; destruct Er as (Ho4 & Hi4).
  - split; [left; congruence |].
    destruct Hi4 as [-> | ->]; [left | right]; congruence.
  - split; [right; left; congruence | right; congruence].
Qed.

(** Over a run of appends, whatever their outcomes, neither the counter
    nor the index goes down, as long as they do not overflow. *)
Lemma appendAll_counters (reqs : list (string * P)) :
  forall (w w' : WAL) (o o' : World) (rs : list (option error)),
    appendAll jsonMarshal reqs (w, o) = (rs, (w', o')) ->
    let n := Z.of_nat (length reqs) in
    (in_int64 (offset w) -> in_int64 (offset w + 2 * n) ->
     offset w <= offset w' <= offset w + 2 * n)
    /\ (in_int64 (currentSegmentIndex w) ->
        in_int64 (currentSegmentIndex w + n) ->
        currentSegmentIndex w <= currentSegmentIndex w'
          <= currentSegmentIndex w + n).
Proof.
  induction reqs as [|req rest IH]; intros w w' o o' rs H n; subst n.
  - injection H as <- <- <-. simpl. split; intros; lia.
  - rewrite appendAll_cons in H.
    destruct (WriteLog _ _ _ (w, o)) as [r [w1 o1]] eqn:Hw.
    destruct (appendAll _ rest (w1, o1)) as [rs1 [w2 o2]] eqn:Hr.
    injection H as <- <- <-.
    apply WriteLog_counters in Hw. destruct Hw as (Ho & Hi).
    destruct (IH _ _ _ _ _ Hr) as (IHo & IHi).
    simpl length. unfold in_int64 in *. split.
    + intros H1 H2.
      assert (E1 : wrap64 (offset w + 1) = offset w + 1)
        by (apply wrap64_small; unfold in_int64; lia).
      assert (E2 : wrap64 (offset w + 1 + 1) = offset w + 2)
        by (rewrite wrap64_small; unfold in_int64; lia).
      rewrite E1, E2 in Ho.
      destruct Ho as [Ho | [Ho | [_ Ho]]]; rewrite Ho in IHo; lia.
    + intros H1 H2.
      assert (E1 : wrap64 (currentSegmentIndex w + 1) = currentSegmentIndex w + 1)
        by (apply wrap64_small; unfold in_int64; lia).
      rewrite E1 in Hi.
      destruct Hi as [Hi | Hi]; rewrite Hi in IHi; lia.
Qed.

End Counters.

(** ** The reply of the write endpoint *)

(** A reply with status 201 comes from a successful [WriteLog]; its offset
    and segment index are those of the engine once the appends of
    [between] have run, and its file name is that of the current segment
    once those of [late] have run too. *)
Lemma handleWrite_created (jsonMarshal : LogEntry GoMap -> option string)
    (between late : list (string * GoMap))
    (request : Request) (w w' : WAL) (o o' : World) (resp : Response) :
  handleWrite jsonMarshal between late request (w, o) = (resp, (w', o')) ->
  status resp = StatusCreated ->
  exists payload w1 o1 rs w2 o2 rs',
    decodeMap (RequestBody request) = Ok payload
    /\ WriteLog jsonMarshal (requestTopic request) payload (w, o)
       = (None, (w1, o1))
    /\ appendAll jsonMarshal between (w1, o1) = (rs, (w2, o2))
    /\ appendAll jsonMarshal late (w2, o2) = (rs', (w', o'))
    /\ resp = {| status := StatusCreated;
                 body := JSONBody
                   {| reply_offset := offset w2;
                      reply_segment := currentSegmentIndex w2;
                      reply_topic := requestTopic request;
                      reply_payload := payload;
                      reply_message := "Log entry written successfully";
                      reply_fileSize := name (currentSegment w') |} |}.
Proof.
  unfold handleWrite. fold (requestTopic request).
  destruct (decodeMap (RequestBody request)) as [payload|e].
  2:{ intros [= <- <- <-]. discriminate. }
  unfold bind.
  destruct (WriteLog _ _ _ (w, o)) as [[e|] [w1 o1]] eqn:Hw.
  { intros [= <- <- <-]. discriminate. }
  destruct (appendAll jsonMarshal between (w1, o1)) as [rs [w2 o2]] eqn:Hb.
  unfold getWAL, gets, ret. simpl.
  destruct (appendAll jsonMarshal late (w2, o2)) as [rs' [w3 o3]] eqn:Hl.
  simpl. intros [= <- <- <-] _.
  exists payload, w1, o1, rs, w2, o2, rs'. auto 10.
Qed.

(** C2, as stated, fails: the first append after opening an empty directory
    writes the entry with offset 1 and the reply carries offset 2, with no
    other request in sight. *)
Lemma first_append_reports_offset_2 :
  let r := handleWrite demoMarshal [] [] (postWrite "orders" body1)
             (freshWAL, freshWorld) in
  newWriteAheadLOG emptyWorld = (Ok freshWAL, freshWorld)
  /\ fst r = {| status := StatusCreated; body := JSONBody firstReply |}
  /\ file_data (snd (snd r)) "wal_data/wal_1.log" = demoLine firstEntry
  /\ Offset firstEntry = 1
  /\ reply_offset firstReply = 2
  /\ reply_offset firstReply <> Offset firstEntry.
Proof. vm_compute. repeat split; try reflexivity. discriminate. Qed.

(** C2, amended: the reply of a successful append carries the offset counter
    as [handleWrite] reads it under its second lock, after its [WriteLog]
    has returned and after the appends of other requests that completed in
    between; the entry written carries the value the counter had before
    the call.  Barring overflow the reply is greater than the offset of the
    entry; it is that offset plus 1 when the append did not rotate and no
    other append came in between.  After opening an empty directory, one
    request after the other, the first append writes offset 1 and replies
    2, the second writes offset 2 and replies 3. *)
Theorem handleWrite_reports_advanced_offset :
  (forall (jsonMarshal : LogEntry GoMap -> option string)
          (between late : list (string * GoMap)) (request : Request)
          (w w' : WAL) (o o' : World) (resp : Response),
      handleWrite jsonMarshal between late request (w, o) = (resp, (w', o')) ->
      status resp = StatusCreated ->
      wal_wf w ->
      let seg := name (currentSegment w) in
      exists payload reply js w1 o1 rs w2 o2,
        decodeMap (RequestBody request) = Ok payload
        /\ body resp = JSONBody reply
        /\ jsonMarshal {| Offset := offset w; Topic := requestTopic request;
                          Payload := payload |} = Some js
        /\ WriteLog jsonMarshal (requestTopic request) payload (w, o)
           = (None, (w1, o1))
        /\ file_data o1 seg
           = file_data o seg +:+ buf (writer w) +:+ js +:+ String "010" ""
        /\ appendAll jsonMarshal between (w1, o1) = (rs, (w2, o2))
        /\ reply_offset reply = offset w2
        /\ (between = [] ->
            Z.of_nat (String.length (file_data o1 seg)) < maxSegmentSize ->
            reply_offset reply = wrap64 (offset w + 1)
            /\ (in_int64 (offset w + 1) -> reply_offset reply = offset w + 1))
        /\ (in_int64 (offset w) ->
            in_int64 (offset w + 2 * (1 + Z.of_nat (length between))) ->
            offset w < reply_offset reply
              <= offset w + 2 * (1 + Z.of_nat (length between))))
  /\ (let r1 := handleWrite demoMarshal [] [] (postWrite "orders" body1)
                  (freshWAL, freshWorld) in
      let r2 := handleWrite demoMarshal [] [] (postWrite "orders" body2)
                  (snd r1) in
      newWriteAheadLOG emptyWorld = (Ok freshWAL, freshWorld)
      /\ (exists reply, body (fst r1) = JSONBody reply /\ reply_offset reply = 2)
      /\ (exists reply, body (fst r2) = JSONBody reply /\ reply_offset reply = 3)
      /\ file_data (snd (snd r2)) "wal_data/wal_1.log"
         = demoLine {| Offset := 1; Topic := "orders"; Payload := payload1 |}
           +:+ demoLine {| Offset := 2; Topic := "orders"; Payload := payload2 |}).
Proof.
  split.
  - intros jsonMarshal between late request w w' o o' resp H Hst Hwf seg.
    destruct (handleWrite_created _ _ _ _ _ _ _ _ _ H Hst)
      as (payload & w1 & o1 & rs & w2 & o2 & rs' & Hdec & Hw & Hb & Hl & ->).
    destruct (WriteLog_ok _ _ _ _ _ _ _ Hw Hwf)
      as (js & evs & Hjs & Hq & Hd & _ & _ & _ & _ & _ & Hrot).
    eexists payload, _, js, w1, o1, rs, w2, o2.
    split; [exact Hdec |]. split; [reflexivity |]. split; [exact Hjs |].
    split; [exact Hw |].
    assert (Hdata : file_data o1 seg
              = file_data o seg +:+ buf (writer w) +:+ js +:+ String "010" "").
    { rewrite Hd. subst seg.
      destruct (decide (name (currentSegment w) = name (currentSegment w)))
        as [_|Hne]; [reflexivity | now elim Hne]. }
    split; [exact Hdata |]. split; [exact Hb |]. split; [reflexivity |].
    simpl. split.
    + intros -> Hlt. injection Hb as _ <- _. rewrite Hdata in Hlt.
      apply Z.leb_gt in Hlt. subst seg. rewrite Hlt in Hrot.
      destruct Hrot as (_ & Ho & _). split; [exact Ho |].
      intros Hr. rewrite Ho. now apply wrap64_small.
    + intros Hr1 Hr2.
      assert (Hstep : offset w1 = offset w + 1 \/ offset w1 = offset w + 2).
      { unfold in_int64 in *.
        destruct (maxSegmentSize <=? _).
        - right. destruct Hrot as (_ & -> & _).
          rewrite (wrap64_small (offset w + 1)) by (unfold in_int64; lia).
          rewrite wrap64_small by (unfold in_int64; lia). lia.
        - left. destruct Hrot as (_ & -> & _).
          now rewrite wrap64_small by (unfold in_int64; lia). }
      destruct (appendAll_counters _ _ _ _ _ _ _ Hb) as (Hbound & _).
      unfold in_int64 in *.
      destruct Hstep as [E | E]; rewrite E in Hbound;
        (assert (Hb' := Hbound ltac:(lia) ltac:(lia))); lia.
  - vm_compute. repeat split; eexists; split; reflexivity.
Qed.

(** The first append to the fresh engine while another request appends
    between its [WriteLog] and its second lock, through the theorem: the
    entry carries offset 1 and the reply offset 3. *)
Lemma handleWrite_reports_advanced_offset_witness :
  let r := handleWrite demoMarshal [("audit", payload2)] []
             (postWrite "orders" body1) (freshWAL, freshWorld) in
  exists reply,
    body (fst r) = JSONBody reply
    /\ 1 < reply_offset reply <= 1 + 2 * (1 + 1)
    /\ reply_offset reply = 3
    /\ file_data (snd (snd r)) "wal_data/wal_1.log"
       = demoLine {| Offset := 1; Topic := "orders"; Payload := payload1 |}
         +:+ demoLine {| Offset := 2; Topic := "audit"; Payload := payload2 |}.
Proof.
  set (r := handleWrite demoMarshal [("audit", payload2)] []
              (postWrite "orders" body1) (freshWAL, freshWorld)).
  assert (H : handleWrite demoMarshal [("audit", payload2)] []
                (postWrite "orders" body1) (freshWAL, freshWorld)
              = (fst r, (fst (snd r), snd (snd r))))
    by (vm_compute; reflexivity).
  assert (Hst : status (fst r) = StatusCreated) by (vm_compute; reflexivity).
  destruct (proj1 handleWrite_reports_advanced_offset _ _ _ _ _ _ _ _ _
              H Hst eq_refl)
    as (payload & reply & js & w1 & o1 & rs & w2 & o2
        & Hdec & Hb & Hjs & Hw & Hd & Hrun & Ho & _ & Hbound).
  exists reply. split; [exact Hb |].
  split; [apply Hbound; unfold in_int64; simpl; lia |].
  split.
  - assert (Hb' : body (fst r)
                  = JSONBody {| reply_offset := 3;
                                reply_segment := 1;
                                reply_topic := "orders";
                                reply_payload := payload1;
                                reply_message := "Log entry written successfully";
                                reply_fileSize := "wal_data/wal_1.log" |})
      by (vm_compute; reflexivity).
    rewrite Hb in Hb'. now injection Hb' as ->.
  - vm_compute. reflexivity.
Defined.

(** C3, as stated, fails: on the fresh engine, an append whose line fills
    segment 1 writes its record to [wal_1.log], leaves [wal_2.log] empty, and
    replies with segment 2, with no other request in sight. *)
Lemma rotating_append_reports_new_segment :
  let r := handleWrite demoMarshal [] [] (postWrite "orders" bigBody)
             (freshWAL, freshWorld) in
  currentSegmentIndex freshWAL = 1
  /\ fst r = {| status := StatusCreated; body := JSONBody bigReply |}
  /\ file_data (snd (snd r)) (segmentPath walDir 1) = demoLine bigEntry
  /\ file_data (snd (snd r)) (segmentPath walDir 2) = ""
  /\ reply_segment bigReply = 2
  /\ reply_segment bigReply <> currentSegmentIndex freshWAL.
Proof. vm_compute. repeat split; try reflexivity. discriminate. Qed.

(** C3, amended: the record of a successful append is always written to
    the segment that was current when its [WriteLog] began.  The reply
    carries the segment index as [handleWrite] reads it under its second
    lock, and the name of the segment that is current when the reply is
    built: with no append of another request in between, that is the
    index of the record's segment when the append did not rotate and the
    next index, whose segment is still without the record, when it did;
    appends of other requests that rotate in between move it further.
    Barring overflow the index reported is never below that of the
    record's segment. *)
Theorem handleWrite_reports_current_segment :
  forall (jsonMarshal : LogEntry GoMap -> option string)
         (between late : list (string * GoMap)) (request : Request)
         (w w' : WAL) (o o' : World) (resp : Response),
    handleWrite jsonMarshal between late request (w, o) = (resp, (w', o')) ->
    status resp = StatusCreated ->
    wal_wf w ->
    let seg := name (currentSegment w) in
    exists payload reply js w1 o1 rs w2 o2 rs',
      decodeMap (RequestBody request) = Ok payload
      /\ body resp = JSONBody reply
      /\ jsonMarshal {| Offset := offset w; Topic := requestTopic request;
                        Payload := payload |} = Some js
      /\ WriteLog jsonMarshal (requestTopic request) payload (w, o)
         = (None, (w1, o1))
      /\ file_data o1 seg
         = file_data o seg +:+ buf (writer w) +:+ js +:+ String "010" ""
      /\ (forall p, p <> seg -> file_data o1 p = file_data o p)
      /\ appendAll jsonMarshal between (w1, o1) = (rs, (w2, o2))
      /\ appendAll jsonMarshal late (w2, o2) = (rs', (w', o'))
      /\ reply_segment reply = currentSegmentIndex w2
      /\ reply_fileSize reply = name (currentSegment w')
      /\ (between = [] ->
          Z.of_nat (String.length (file_data o1 seg)) < maxSegmentSize ->
          reply_segment reply = currentSegmentIndex w
          /\ (late = [] -> currentSegment w' = currentSegment w))
      /\ (between = [] ->
          maxSegmentSize <= Z.of_nat (String.length (file_data o1 seg)) ->
          reply_segment reply = wrap64 (currentSegmentIndex w + 1)
          /\ (in_int64 (currentSegmentIndex w + 1) ->
              reply_segment reply = currentSegmentIndex w + 1)
          /\ (late = [] -> cache_consistent (segmentNameCache o) ->
              name (currentSegment w')
              = segmentPath (directory w) (wrap64 (currentSegmentIndex w + 1))))
      /\ (in_int64 (currentSegmentIndex w) ->
          in_int64 (currentSegmentIndex w + 1 + Z.of_nat (length between)) ->
          currentSegmentIndex w <= reply_segment reply
            <= currentSegmentIndex w + 1 + Z.of_nat (length between)).
Proof.
  intros jsonMarshal between late request w w' o o' resp H Hst Hwf seg.
  destruct (handleWrite_created _ _ _ _ _ _ _ _ _ H Hst)
    as (payload & w1 & o1 & rs & w2 & o2 & rs' & Hdec & Hw & Hb & Hl & ->).
  destruct (WriteLog_ok _ _ _ _ _ _ _ Hw Hwf)
    as (js & evs & Hjs & Hq & Hd & _ & _ & _ & _ & _ & Hrot).
  eexists payload, _, js, w1, o1, rs, w2, o2, rs'.
  split; [exact Hdec |]. split; [reflexivity |]. split; [exact Hjs |].
  split; [exact Hw |].
  assert (Hdata : file_data o1 seg
            = file_data o seg +:+ buf (writer w) +:+ js +:+ String "010" "").
  { rewrite Hd. subst seg.
    destruct (decide (name (currentSegment w) = name (currentSegment w)))
      as [_|Hne]; [reflexivity | now elim Hne]. }
  split; [exact Hdata |].
  split.
  { intros p Hp. rewrite Hd. fold seg.
    destruct (decide (p = seg)); [contradiction | reflexivity]. }
  split; [exact Hb |]. split; [exact Hl |].
  split; [reflexivity |]. split; [reflexivity |].
  simpl. rewrite Hdata. subst seg.
  split; [| split].
  - intros -> Hlt. injection Hb as _ <- <-.
    apply Z.leb_gt in Hlt. rewrite Hlt in Hrot.
    destruct Hrot as (Hi & _ & Hs & _). split; [exact Hi |].
    intros ->. injection Hl as _ <- _. exact Hs.
  - intros -> Hge. injection Hb as _ <- <-.
    apply Z.leb_le in Hge. rewrite Hge in Hrot.
    destruct Hrot as (Hi & _ & _ & _ & _ & Hp).
    split; [exact Hi |].
    split; [intros Hr; now rewrite Hi, wrap64_small |].
    intros -> Hc. injection Hl as _ <- _. exact (proj1 (Hp Hc)).
  - intros Hr1 Hr2.
    assert (Hstep : currentSegmentIndex w1 = currentSegmentIndex w
                    \/ currentSegmentIndex w1 = currentSegmentIndex w + 1).
    { unfold in_int64 in *.
      destruct (maxSegmentSize <=? _).
      - right. destruct Hrot as (-> & _).
        now rewrite wrap64_small by (unfold in_int64; lia).
      - left. now destruct Hrot as (-> & _). }
    destruct (appendAll_counters _ _ _ _ _ _ _ Hb) as (_ & Hbound).
    unfold in_int64 in *.
    destruct Hstep as [E | E]; rewrite E in Hbound;
      (assert (Hb' := Hbound ltac:(lia) ltac:(lia))); lia.
Qed.

(** The rotating first append to the fresh engine, one request alone,
    through the theorem. *)
Lemma handleWrite_reports_current_segment_witness :
  let r := handleWrite demoMarshal [] [] (postWrite "orders" bigBody)
             (freshWAL, freshWorld) in
  exists reply,
    body (fst r) = JSONBody reply
    /\ reply_segment reply = 1 + 1
    /\ file_data (snd (snd r)) "wal_data/wal_1.log" = demoLine bigEntry.
Proof.
  set (r := handleWrite demoMarshal [] [] (postWrite "orders" bigBody)
              (freshWAL, freshWorld)).
  assert (H : handleWrite demoMarshal [] [] (postWrite "orders" bigBody)
                (freshWAL, freshWorld)
              = (fst r, (fst (snd r), snd (snd r))))
    by (vm_compute; reflexivity).
  assert (Hst : status (fst r) = StatusCreated) by (vm_compute; reflexivity).
  assert (Hidx : in_int64 (currentSegmentIndex freshWAL + 1))
    by (unfold in_int64; simpl; lia).
  destruct (handleWrite_reports_current_segment _ _ _ _ _ _ _ _ _ H Hst eq_refl)
    as (payload & reply & js & w1 & o1 & rs & w2 & o2 & rs'
        & Hdec & Hb & Hjs & Hw & Hd & _ & _ & _ & _ & _ & _ & Hge & _).
  exists reply. split; [exact Hb |].
  split.
  - apply Hge; [reflexivity | | exact Hidx].
    rewrite Hd. injection Hdec as <-. injection Hjs as <-.
    vm_compute. discriminate.
  - vm_compute. reflexivity.
Defined.

(** ** The write endpoint *)



(** An object with a number that no [float64] holds is answered with
    400, and nothing is appended. *)
Example out_of_range_number_is_rejected :
  ServerHTTP demoMarshal [] [] rangeRequest (freshWAL, freshWorld)
  = (http_Error "Invalid payload" StatusBadRequest, (freshWAL, freshWorld)).
Proof. vm_compute. reflexivity. Qed.



(** ** Invariants of a running engine *)

Section Invariants.

Context {P : Type}.
Variable jsonMarshal : LogEntry P -> option string.

Lemma FlushE_cache (w w' : WAL) (o o' : World) (err : option error) :
  FlushE (w, o) = (err, (w', o')) ->
  segmentNameCache o' = segmentNameCache o.
Proof.
  intros H. apply FlushE_inv in H. destruct H as (_ & H).
  destruct err as [e|].
  - destruct H as (c & evs & wr1 & _ & [[_ (_ & Hk & _)]|[_ (_ & Hk & _)]]);
      exact Hk.
  - destruct H as (_ & _ & o1 & (_ & Hk1 & _) & (_ & Hk2 & _)). congruence.
Qed.

Lemma rotateSegment_cache (w w' : WAL) (o o' : World) (err : option error) :
  rotateSegment (w, o) = (err, (w', o')) ->
  cache_consistent (segmentNameCache o) ->
  cache_consistent (segmentNameCache o').
Proof.
  intros H Hc. unfold rotateSegment, bind in H.
  destruct (FlushE (w, o)) as [[e|] [w1 o1]] eqn:Ef;
    apply FlushE_cache in Ef.
  { injection H as <- <- <-. now rewrite Ef. }
  unfold getWAL, gets, liftW, modifyWAL, modify, ret in H. simpl in H.
  destruct (file_Close (currentSegment w1) o1) as [[e|] o2] eqn:Ec;
    apply file_Close_inv in Ec; destruct Ec as (_ & Hk2 & _); simpl in H.
  { injection H as <- <- <-. now rewrite Hk2, Ef. }
  destruct (segmentFileName _ _ o2) as [path o3] eqn:En.
  apply segmentFileName_frame in En. destruct En as (_ & _ & _ & Hc3).
  destruct Hc3 as [_ Hc3]; [now rewrite Hk2, Ef |].
  simpl in H.
  destruct (os_OpenFile path openFlags o3) as [[f'|e] o4] eqn:Eo;
    apply os_OpenFile_inv in Eo; destruct Eo as ((_ & Hk4 & _) & _);
    simpl in H; injection H as <- <- <-; now rewrite Hk4.
Qed.

Lemma FlushE_clean (w w' : WAL) (o o' : World) (err : option error) :
  FlushE (w, o) = (err, (w', o')) -> buffer_clean w'.
Proof.
  unfold FlushE, bind, liftW, getWAL, gets, modifyWAL, modify, ret,
    buffer_clean. simpl.
  destruct (Writer_Flush (writer w) o) as [[e b] o1] eqn:Ef.
  apply Writer_Flush_inv in Ef. destruct Ef as (_ & _ & Hf).
  destruct e as [e|]; simpl.
  { intros [= <- <- <-]. simpl. destruct Hf as (He & _). congruence. }
  destruct Hf as (_ & _ & Hb & _).
  destruct (file_Sync (currentSegment w) o1) as [[e|] o2];
    intros [= <- <- <-]; simpl; auto.
Qed.

Lemma rotateSegment_clean (w w' : WAL) (o o' : World) (err : option error) :
  rotateSegment (w, o) = (err, (w', o')) -> buffer_clean w'.
Proof.
  intros H. unfold rotateSegment, bind in H.
  destruct (FlushE (w, o)) as [[e|] [w1 o1]] eqn:Ef;
    apply FlushE_clean in Ef.
  { now injection H as <- <- <-. }
  unfold getWAL, gets, liftW, modifyWAL, modify, ret in H. simpl in H.
  destruct (file_Close (currentSegment w1) o1) as [[e|] o2]; simpl in H.
  { now injection H as <- <- <-. }
  destruct (segmentFileName _ _ o2) as [path o3]. simpl in H.
  destruct (os_OpenFile path openFlags o3) as [[f'|e] o4]; simpl in H;
    injection H as <- <- <-; [unfold buffer_clean; simpl; auto | exact Ef].
Qed.

(** Whatever its outcome, [WriteLog] keeps the writer on the current
    segment and the name cache consistent, and leaves no bytes in a buffer
    that is not in error. *)
Lemma WriteLog_invariant (topic : string) (payload : P) (w w' : WAL)
    (o o' : World) (r : option error) :
  WriteLog jsonMarshal topic payload (w, o) = (r, (w', o')) ->
  wal_wf w -> cache_consistent (segmentNameCache o) -> buffer_clean w ->
  wal_wf w' /\ cache_consistent (segmentNameCache o') /\ buffer_clean w'.
Proof.
  intros H Hwf Hc Hbc. unfold WriteLog, bind in H.
  unfold getWAL at 1, gets in H. simpl in H.
  destruct (Encode _ _ (w, o)) as [[e|] [w1 o1]] eqn:He;
    apply Encode_inv in He;
    destruct He as ((_ & _ & Hs1 & _ & Hw1) & evs1 & wr1 & _ & (_ & Hk1 & _) & Hm).
  { injection H as <- <- <-. unfold wal_wf in *. split; [congruence |].
    split; [now rewrite Hk1 |].
    unfold buffer_clean in *. destruct Hm as [->|[e' He']];
      [exact Hbc | congruence]. }
  destruct (FlushE (w1, o1)) as [[e|] [w2 o2]] eqn:Hf;
    pose proof (FlushE_cache _ _ _ _ _ Hf) as Hk2;
    pose proof (FlushE_clean _ _ _ _ _ Hf) as Hbc2;
    apply FlushE_inv in Hf; destruct Hf as ((_ & _ & Hs2 & _ & Hw2) & _).
  { injection H as <- <- <-. unfold wal_wf in *. split; [congruence |].
    split; [now rewrite Hk2, Hk1 | exact Hbc2]. }
  assert (Hwf2 : wal_wf w2) by (unfold wal_wf in *; congruence).
  unfold getWAL, gets, liftW, modifyWAL, modify, ret in H. simpl in H.
  destruct (file_Stat (currentSegment w2) o2) as [[sz|e] o3] eqn:Est;
    simpl in H; apply file_Stat_inv in Est; destruct Est as ((_ & Hk3 & _) & _).
  2:{ injection H as <- <- <-. split; [exact Hwf2 |].
      split; [now rewrite Hk3, Hk2, Hk1 | exact Hbc2]. }
  assert (Hc3 : cache_consistent (segmentNameCache o3))
    by now rewrite Hk3, Hk2, Hk1.
  destruct (maxSegmentSize <=? sz).
  2:{ injection H as <- <- <-. split; [exact Hwf2 |]. split; [exact Hc3 |].
      exact Hbc2. }
  destruct (rotateSegment _) as [er [w4 o4]] eqn:Er.
  assert (wal_wf w4 /\ cache_consistent (segmentNameCache o4)
          /\ buffer_clean w4) as Hres.
  { split; [| split].
    - eapply rotateSegment_wf; [exact Er | exact Hwf2].
    - eapply rotateSegment_cache; [exact Er | exact Hc3].
    - eapply rotateSegment_clean; exact Er. }
  destruct er; injection H as <- <- <-; exact Hres.
Qed.

End Invariants.

Lemma reachable_invariant {P : Type} (jsonMarshal : LogEntry P -> option string)
    (s : St) :
  reachable jsonMarshal s ->
  wal_wf (fst s) /\ cache_consistent (segmentNameCache (snd s))
  /\ buffer_clean (fst s).
Proof.
  induction 1 as [o o' w Hc H|[w o] [w' o'] topic payload r _ IH H].
  - destruct (newWriteAheadLOG_ok _ _ _ H)
      as (_ & Hwf & Hwr & _ & _ & _ & _ & _ & _ & Hk).
    split; [exact Hwf |]. split; [now apply Hk |].
    unfold buffer_clean. simpl. now rewrite Hwr.
  - destruct IH as (Hwf & Hc & Hbc). eapply WriteLog_invariant; eauto.
Qed.

(** In a reachable state, a successful append adds exactly the line of its
    entry to the current segment, and the line is durable. *)
Lemma WriteLog_ok_reachable {P : Type} (jsonMarshal : LogEntry P -> option string)
    (topic : string) (payload : P) (w w' : WAL) (o o' : World) :
  reachable jsonMarshal (w, o) ->
  WriteLog jsonMarshal topic payload (w, o) = (None, (w', o')) ->
  let seg := name (currentSegment w) in
  exists js,
    jsonMarshal {| Offset := offset w; Topic := topic; Payload := payload |}
      = Some js
    /\ file_data o' seg = file_data o seg +:+ js +:+ String "010" ""
    /\ file_synced o' seg = file_data o' seg
    /\ reachable jsonMarshal (w', o').
Proof.
  intros Hr H seg.
  destruct (reachable_invariant _ _ Hr) as (Hwf & Hc & Hbc). simpl in *.
  destruct (WriteLog_ok _ _ _ _ _ _ _ H Hwf)
    as (js & evs & Hjs & _ & Hd & Hsy & _).
  assert (Hw : werr (writer w) = None).
  { unfold WriteLog, bind in H. unfold getWAL at 1, gets in H. simpl in H.
    destruct (Encode _ _ (w, o)) as [[e|] [w1 o1]] eqn:He; [discriminate |].
    clear H. unfold Encode, bind, liftW, getWAL, gets, modifyWAL, modify,
      ret, emit in He. simpl in He.
    destruct (enc_err (encoder w)); [discriminate |].
    destruct (jsonMarshal _); [| discriminate].
    destruct (Writer_Write _ _ _) as [[e b] o2] eqn:Ew.
    apply Writer_Write_inv in Ew.
    destruct Ew as (_ & _ & evs' & wr' & _ & _ & Hm).
    destruct e; [discriminate | apply Hm]. }
  exists js. split; [exact Hjs |].
  rewrite Hsy, Hd. fold seg.
  destruct (decide (seg = seg)) as [_|Hne]; [| now elim Hne].
  rewrite (Hbc Hw). split; [reflexivity |]. split; [reflexivity |].
  eapply reach_append; eauto.
Qed.

(** * Lemmas for the further properties *)
(** ** Descriptors and the fault script *)

Lemma is_open_fdtable (o o' : World) (f : osFile) :
  fdtable o' = fdtable o -> is_open o' f = is_open o f.
Proof. unfold is_open. now intros ->. Qed.

Lemma file_Write_env (f : osFile) (b : string) (o o' : World) (r : option error) :
  file_Write f b o = (r, o') -> call_env no_error f o o' r.
Proof.
  unfold file_Write, bind, emit, gets, modify, ret, nextFault, call_env. simpl.
  change (is_open (set_trace _ o) f) with (is_open o f).
  destruct (is_open o f) eqn:Eo; simpl.
  - destruct (faults o) as [|[c|] rest] eqn:Ef; simpl; intros [= <- <-]; simpl;
      conjs; simpl; auto; intros; try congruence.
  - intros [= <- <-]; simpl; conjs; simpl; auto; intros; try congruence.
Qed.

Lemma file_Sync_env (f : osFile) (o o' : World) (r : option error) :
  file_Sync f o = (r, o') -> call_env no_error f o o' r.
Proof.
  unfold file_Sync, bind, emit, gets, modify, ret, nextFault, call_env. simpl.
  change (is_open (set_trace _ o) f) with (is_open o f).
  destruct (is_open o f) eqn:Eo; simpl.
  - destruct (faults o) as [|[c|] rest] eqn:Ef; simpl; intros [= <- <-]; simpl;
      conjs; simpl; auto; intros; try congruence.
  - intros [= <- <-]; simpl; conjs; simpl; auto; intros; try congruence.
Qed.

Lemma file_Stat_env (f : osFile) (o o' : World) (r : result Z) :
  file_Stat f o = (r, o') -> call_env is_Ok f o o' r.
Proof.
  unfold file_Stat, bind, emit, gets, modify, ret, nextFault, call_env. simpl.
  change (is_open (set_trace _ o) f) with (is_open o f).
  destruct (is_open o f) eqn:Eo; simpl.
  - destruct (faults o) as [|[c|] rest] eqn:Ef; simpl; intros [= <- <-]; simpl;
      conjs; simpl; auto; intros; try congruence.
  - intros [= <- <-]; simpl; conjs; simpl; auto; intros; try congruence.
Qed.

(** The same for the buffered writer.  On a closed descriptor no byte
    reaches a file, and a call can only succeed by buffering. *)
Lemma Writer_Flush_env (b b' : Writer) (o o' : World) (err : option error) :
  Writer_Flush b o = ((err, b'), o') ->
  fdtable o' = fdtable o
  /\ (faults o = [] -> faults o' = [])
  /\ (is_open o (wr b) = false ->
      same_files o o' /\ (err = None -> buf b = ""))
  /\ (werr b = None -> is_open o (wr b) = true -> faults o = [] -> err = None).
Proof.
  unfold Writer_Flush, bind, emit, modify, ret. simpl.
  set (o0 := set_trace _ o).
  destruct (werr b) as [e|] eqn:Ee.
  { intros [= <- <- <-]. conjs; auto; try discriminate.
    intros _. split; [intros p; reflexivity | discriminate]. }
  destruct (buf b) as [|c pending] eqn:Eb.
  { intros [= <- <- <-]. conjs; auto.
    intros _. split; [intros p; reflexivity | auto]. }
  destruct (file_Write (wr b) (String c pending) o0) as [r o1] eqn:Ew.
  pose proof (file_Write_inv _ _ _ _ _ Ew) as Hs.
  apply file_Write_env in Ew. destruct Ew as (Hfd & Hfl & Hop & Hok).
  change (is_open o0 (wr b)) with (is_open o (wr b)) in Hop, Hok.
  change (faults o0) with (faults o) in Hfl, Hok.
  change (fdtable o0) with (fdtable o) in Hfd.
  destruct r as [e|]; intros [= <- <- <-]; conjs; auto.
  - intros Hc. split; [| discriminate].
    intros p. now rewrite (world_step_data _ _ _ _ Hs).
  - intros _ Ho Hf. specialize (Hok Ho Hf). discriminate.
  - intros Hc. specialize (Hop eq_refl). congruence.
Qed.

Lemma Writer_Write_env (b b' : Writer) (p : string) (o o' : World)
    (err : option error) :
  Writer_Write b p o = ((err, b'), o') ->
  fdtable o' = fdtable o
  /\ (faults o = [] -> faults o' = [])
  /\ (is_open o (wr b) = false ->
      same_files o o' /\ (err = None -> buf b' = buf b +:+ p))
  /\ (werr b = None -> is_open o (wr b) = true -> faults o = [] -> err = None).
Proof.
  unfold Writer_Write.
  destruct (werr b) as [e|] eqn:Ee.
  { intros [= <- <- <-]. conjs; auto; try discriminate.
    intros _. split; [intros q; reflexivity | discriminate]. }
  destruct (String.length p <=? Available b)%nat.
  { intros [= <- <- <-]. conjs; auto.
    intros _. split; [intros q; reflexivity | reflexivity]. }
  destruct (buf b) as [|c pending] eqn:Eb.
  { unfold bind, ret.
    destruct (file_Write (wr b) p o) as [r o1] eqn:Ew.
    pose proof (file_Write_inv _ _ _ _ _ Ew) as Hs.
    apply file_Write_env in Ew. destruct Ew as (Hfd & Hfl & Hop & Hok).
    destruct r as [e|]; intros [= <- <- <-]; conjs; auto.
    - intros Hc. split; [| discriminate].
      intros q. now rewrite (world_step_data _ _ _ _ Hs).
    - intros _ Ho Hf. specialize (Hok Ho Hf). discriminate.
    - intros Hc. specialize (Hop eq_refl). congruence. }
  unfold bind, ret.
  set (b0 := set_buf _ b).
  destruct (Writer_Flush b0 o) as [[e1 b1] o1] eqn:Ef.
  pose proof (Writer_Flush_inv _ _ _ _ _ Ef) as (Hwr & _ & Hinv).
  apply Writer_Flush_env in Ef. destruct Ef as (Hfd & Hfl & Hcl & Hok).
  change (wr b0) with (wr b) in Hcl, Hok, Hwr.
  destruct e1 as [e1|].
  { intros [= <- <- <-]. conjs; auto.
    intros Hc. split; [apply Hcl, Hc | discriminate]. }
  destruct (String.length _ <=? Available b1)%nat.
  { intros [= <- <- <-]. conjs; auto.
    intros Hc. destruct (Hcl Hc) as [_ Hb]. specialize (Hb eq_refl).
    subst b0. simpl in Hb. rewrite append_cons in Hb. discriminate. }
  destruct (file_Write (wr b1) _ o1) as [r o2] eqn:Ew.
  apply file_Write_env in Ew. destruct Ew as (Hfd2 & Hfl2 & Hop2 & Hok2).
  rewrite Hwr in Hop2, Hok2.
  rewrite (is_open_fdtable o o1 _ Hfd) in Hop2, Hok2.
  assert (Hcontra : is_open o (wr b) = false -> False).
  { intros Hc. destruct (Hcl Hc) as [_ Hb]. specialize (Hb eq_refl).
    subst b0. simpl in Hb. rewrite append_cons in Hb. discriminate. }
  destruct r as [e|]; intros [= <- <- <-]; conjs; auto; try congruence;
    try (intros Hc; now elim Hcontra).
  intros _ Ho Hf. specialize (Hok2 Ho (Hfl Hf)). discriminate.
Qed.

Section EnvironmentFacts.

Context {P : Type}.
Variable jsonMarshal : LogEntry P -> option string.

Lemma Encode_env (entry : LogEntry P) (w w' : WAL) (o o' : World)
    (err : option error) :
  Encode jsonMarshal entry (w, o) = (err, (w', o')) ->
  fdtable o' = fdtable o
  /\ (faults o = [] -> faults o' = [])
  /\ (err = None -> encoder w' = encoder w)
  /\ (is_open o (wr (writer w)) = false ->
      same_files o o'
      /\ (err = None ->
          exists js, jsonMarshal entry = Some js
                     /\ buf (writer w') = buf (writer w) +:+ js +:+ String "010" ""))
  /\ (enc_err (encoder w) = None -> jsonMarshal entry <> None ->
      werr (writer w) = None -> is_open o (wr (writer w)) = true ->
      faults o = [] -> err = None).
Proof.
  unfold Encode, bind, liftW, getWAL, gets, modifyWAL, modify, ret, emit.
  simpl. set (o0 := set_trace _ o).
  destruct (enc_err (encoder w)) as [e|].
  { intros [= <- <- <-]. conjs; auto; try discriminate.
    intros _. split; [intros p; reflexivity | discriminate]. }
  destruct (jsonMarshal entry) as [js|].
  2:{ intros [= <- <- <-]. conjs; auto; try congruence.
      intros _. split; [intros p; reflexivity | discriminate]. }
  destruct (Writer_Write _ _ _) as [[e b] o1] eqn:Ew.
  apply Writer_Write_env in Ew. destruct Ew as (Hfd & Hfl & Hcl & Hok).
  change (is_open o0 (wr (writer w))) with (is_open o (wr (writer w))) in Hcl, Hok.
  change (faults o0) with (faults o) in Hfl, Hok.
  change (fdtable o0) with (fdtable o) in Hfd.
  assert (Hfiles : same_files o0 o1 -> same_files o o1) by auto.
  destruct e as [e|]; simpl; intros [= <- <- <-]; simpl; conjs; auto;
    try discriminate.
  - intros Hc. split; [apply Hfiles, Hcl, Hc | discriminate].
  - intros Hc. split; [apply Hfiles, Hcl, Hc |].
    intros _. exists js. split; [reflexivity |]. now apply Hcl.
Qed.

Lemma FlushE_env (w w' : WAL) (o o' : World) (err : option error) :
  FlushE (w, o) = (err, (w', o')) ->
  fdtable o' = fdtable o
  /\ (faults o = [] -> faults o' = [])
  /\ encoder w' = encoder w
  /\ (err = None -> is_open o (currentSegment w) = true)
  /\ (is_open o (wr (writer w)) = false ->
      same_files o o' /\ (err = None -> buf (writer w) = ""))
  /\ (werr (writer w) = None -> is_open o (wr (writer w)) = true ->
      is_open o (currentSegment w) = true -> faults o = [] -> err = None).
Proof.
  unfold FlushE, bind, liftW, getWAL, gets, modifyWAL, modify, ret.
  simpl.
  destruct (Writer_Flush (writer w) o) as [[e b] o1] eqn:Ef.
  apply Writer_Flush_env in Ef. destruct Ef as (Hfd & Hfl & Hcl & Hok).
  destruct e as [e|]; simpl.
  { intros [= <- <- <-]. simpl. conjs; auto; try discriminate.
    - intros Hc. split; [apply Hcl, Hc | discriminate].
    - intros He Ho _ Hf. specialize (Hok He Ho Hf). discriminate. }
  destruct (file_Sync (currentSegment w) o1) as [r o2] eqn:Es.
  pose proof (file_Sync_inv _ _ _ _ Es) as Hs.
  apply file_Sync_env in Es. destruct Es as (Hfd2 & Hfl2 & Hop2 & Hok2).
  rewrite (is_open_fdtable o o1 _ Hfd) in Hop2, Hok2.
  assert (Hfiles : same_files o1 o2).
  { intros p. destruct r; [apply (world_step_data _ _ _ _ Hs) | apply Hs]. }
  destruct r as [e|]; intros [= <- <- <-]; simpl; conjs; auto;
    try congruence; try discriminate.
  - intros Hc. split; [| discriminate].
    intros p. rewrite Hfiles. now apply Hcl.
  - intros _ _ Ho Hf. specialize (Hok2 Ho (Hfl Hf)). discriminate.
  - intros Hc. split; [| intros _; now apply Hcl].
    intros p. rewrite Hfiles. now apply Hcl.
Qed.

End EnvironmentFacts.

Lemma file_Close_env (f : osFile) (o o' : World) (r : option error) :
  file_Close f o = (r, o') ->
  is_open o' f = false
  /\ (faults o = [] -> faults o' = [])
  /\ (forall msg c, r <> Some (Errorf msg c))
  /\ (r = None -> is_open o f = true)
  /\ (is_open o f = true -> faults o = [] -> r = None).
Proof.
  unfold file_Close, bind, emit, gets, modify, ret, nextFault. simpl.
  change (is_open (set_trace _ o) f) with (is_open o f).
  assert (Hdel : forall o1, fdtable o1 = delete (fd f) (fdtable o) ->
                            is_open o1 f = false).
  { intros o1 H1. unfold is_open. rewrite H1, lookup_delete_eq.
    now apply bool_decide_eq_false. }
  destruct (is_open o f) eqn:Eo; simpl.
  - destruct (faults o) as [|[c|] rest] eqn:Ef; simpl; intros [= <- <-]; simpl;
      conjs; auto; intros; try congruence; try discriminate.
  - intros [= <- <-]; simpl; conjs; auto; intros; congruence.
Qed.

Lemma os_OpenFile_env (path : string) (flags : Z) (o o' : World)
    (r : result osFile) :
  os_OpenFile path flags o = (r, o') ->
  (faults o = [] -> faults o' = [])
  /\ match r with
     | Ok f =>
         is_open o' f = true /\ f = {| fd := nextfd o; name := path |}
         /\ fdtable o' = <[nextfd o := path]> (fdtable o)
     | Err e =>
         fdtable o' = fdtable o
         /\ (faults o = [] -> Z.land flags O_CREATE <> 0 ->
             e = ErrIsDir /\ fs o !! path = Some Dir)
     end.
Proof.
  unfold os_OpenFile, bind, emit, gets, modify, ret, nextFault. simpl.
  assert (Hins : forall o1 n, fdtable o1 = <[n := path]> (fdtable o) ->
                   is_open o1 {| fd := n; name := path |} = true).
  { intros o1 n H1. unfold is_open. simpl. rewrite H1, lookup_insert_eq.
    now apply bool_decide_eq_true. }
  destruct (faults o) as [|[c|] rest] eqn:Ef; simpl;
    try (intros [= <- <-]; simpl; split; [congruence |];
         split; [reflexivity | congruence]).
  - destruct (fs o !! path) as [[|f]|] eqn:E; simpl.
    + intros [= <- <-]. simpl. auto.
    + intros [= <- <-]. simpl. auto.
    + destruct (Z.land flags O_CREATE =? 0) eqn:Ez; simpl;
        intros [= <- <-]; simpl; [| auto].
      split; [auto |]. split; [reflexivity |]. intros _ Hz.
      apply Z.eqb_eq in Ez. contradiction.
  - destruct (fs o !! path) as [[|f]|] eqn:E; simpl.
    + intros [= <- <-]. simpl. split; [congruence |].
      split; [reflexivity | congruence].
    + intros [= <- <-]. simpl. split; [congruence |]. auto.
    + destruct (Z.land flags O_CREATE =? 0) eqn:Ez; simpl;
        intros [= <- <-]; simpl; (split; [congruence |]); [| auto].
      split; [reflexivity | congruence].
Qed.

Lemma segmentFileName_env (d : string) (i : Z) (o o' : World) (n : string) :
  segmentFileName d i o = (n, o') ->
  fs o' = fs o /\ fdtable o' = fdtable o /\ faults o' = faults o.
Proof.
  unfold segmentFileName, bind, gets, modify, ret. simpl.
  destruct (segmentNameCache o !! cacheKey d i); intros [= <- <-]; auto.
Qed.

Lemma Writer_Flush_empty (b : Writer) (o : World) :
  werr b = None -> buf b = "" ->
  Writer_Flush b o = ((None, b), snd (emit (EvFlush (wr b)) o)).
Proof.
  intros He Hb. unfold Writer_Flush, bind, ret. simpl. now rewrite He, Hb.
Qed.

Lemma os_MkdirAll_fdtable (path : string) (o o' : World) (r : option error) :
  os_MkdirAll path o = (r, o') -> fdtable o' = fdtable o.
Proof.
  unfold os_MkdirAll, bind, emit, gets, modify, ret, nextFault. simpl.
  destruct (fs o !! path) as [[|f]|]; simpl; try (now intros [= <- <-]).
  change (faults (set_trace _ o)) with (faults o).
  destruct (faults o) as [|[c|] rest]; simpl; now intros [= <- <-].
Qed.

Lemma file_Close_fdtable (f : osFile) (o o' : World) (r : option error) :
  file_Close f o = (r, o') -> is_open o f = true ->
  fdtable o' = delete (fd f) (fdtable o).
Proof.
  unfold file_Close, bind, emit, gets, modify, ret, nextFault. simpl.
  change (is_open (set_trace _ o) f) with (is_open o f).
  intros H Ho. rewrite Ho in H. simpl in H.
  destruct (faults o) as [|[c|] rest]; simpl in H; now injection H as <- <-.
Qed.

Section RotationFailure.

Context {P : Type}.
Variable jsonMarshal : LogEntry P -> option string.

(** [FlushE] on an empty buffer writes nothing. *)
Lemma FlushE_empty (w w' : WAL) (o o' : World) (err : option error) :
  FlushE (w, o) = (err, (w', o')) ->
  werr (writer w) = None -> buf (writer w) = "" ->
  writer w' = writer w
  /\ same_files o o'
  /\ (forall p, file_synced o' p = file_synced o p
                \/ file_synced o' p = file_data o p)
  /\ (forall e, err = Some e ->
                exists c, e = Errorf "failed to sync segment file" c).
Proof.
  intros H He Hb.
  unfold FlushE, bind, liftW, getWAL, gets, modifyWAL, modify, ret in H.
  simpl in H. rewrite (Writer_Flush_empty _ _ He Hb) in H. simpl in H.
  destruct (file_Sync (currentSegment w) _) as [r o2] eqn:Es.
  apply file_Sync_inv in Es.
  destruct r as [e|]; injection H as <- <- <-; simpl.
  - pose proof (world_step_data _ _ _ _ Es) as Hd.
    destruct Es as (_ & _ & _ & Hs).
    split; [reflexivity |].
    split; [intros p; now rewrite Hd |].
    split; [intros p; left; now rewrite Hs |]. intros e0 [= <-]. eauto.
  - destruct Es as (_ & _ & Hd & Hs).
    split; [reflexivity |].
    split; [intros p; now rewrite Hd |].
    split; [| discriminate].
    intros p. rewrite Hs. destruct (decide _); auto.
Qed.

(** A rotation that fails, started on an empty buffer: no file changes, the
    counter and the current segment stay; the index has moved on exactly
    when the failure is that of opening the new segment; and once the
    rotation has got as far as [Close], the descriptor of the current
    segment is gone. *)
Lemma rotateSegment_failed (w w' : WAL) (o o' : World) (c : error) :
  rotateSegment (w, o) = (Some c, (w', o')) ->
  werr (writer w) = None -> buf (writer w) = "" ->
  offset w' = offset w
  /\ currentSegment w' = currentSegment w
  /\ writer w' = writer w
  /\ directory w' = directory w
  /\ same_files o o'
  /\ (forall p, file_synced o' p = file_synced o p
                \/ file_synced o' p = file_data o p)
  /\ match rotateFailedStep c with
     | Some RotFlush =>
         currentSegmentIndex w' = currentSegmentIndex w
         /\ fdtable o' = fdtable o
     | Some RotClose =>
         currentSegmentIndex w' = currentSegmentIndex w
         /\ is_open o' (currentSegment w) = false
     | Some RotOpen =>
         currentSegmentIndex w' = wrap64 (currentSegmentIndex w + 1)
         /\ is_open o' (currentSegment w) = false
     | None => False
     end.
Proof.
  intros H He Hb.
  unfold rotateSegment, bind in H.
  destruct (FlushE (w, o)) as [[e|] [w1 o1]] eqn:Ef.
  { injection H as <- <- <-.
    pose proof (FlushE_inv _ _ _ _ _ Ef) as ((Ho1 & Hi1 & Hc1 & Hd1 & _) & _).
    pose proof (FlushE_env _ _ _ _ _ Ef) as (Hfd & _).
    destruct (FlushE_empty _ _ _ _ _ Ef He Hb) as (Hw & Hf & Hs & Hc).
    destruct (Hc _ eq_refl) as [c ->].
    change (rotateFailedStep (Errorf "failed to sync segment file" c))
      with (Some RotFlush).
    conjs; auto. }
  pose proof (FlushE_inv _ _ _ _ _ Ef) as ((Ho1 & Hi1 & Hc1 & Hd1 & _) & _).
  destruct (FlushE_empty _ _ _ _ _ Ef He Hb) as (Hw & Hf & Hs & _).
  unfold getWAL, gets, liftW, modifyWAL, modify, ret in H. simpl in H.
  destruct (file_Close (currentSegment w1) o1) as [r o2] eqn:Ec.
  pose proof (file_Close_inv _ _ _ _ Ec) as Hq2.
  apply file_Close_env in Ec. destruct Ec as (Hcl & _ & Hne & _).
  rewrite Hc1 in Hcl.
  assert (Hf2 : same_files o o2).
  { intros p. now rewrite (world_step_data _ _ _ _ Hq2). }
  assert (Hs2 : forall p, file_synced o2 p = file_synced o p
                          \/ file_synced o2 p = file_data o p).
  { intros p. destruct Hq2 as (_ & _ & _ & Hy). rewrite Hy. apply Hs. }
  destruct r as [e|]; simpl in H.
  { injection H as <- <- <-. conjs; auto.
    destruct e as [| | | | | | | |msg c0]; simpl; auto. now elim (Hne msg c0). }
  destruct (segmentFileName _ _ o2) as [path o3] eqn:En.
  pose proof (segmentFileName_frame _ _ _ _ _ En) as (_ & Hd3 & Hy3 & _).
  apply segmentFileName_env in En. destruct En as (_ & Hfd3 & _).
  simpl in H.
  destruct (os_OpenFile path openFlags o3) as [[f'|e] o4] eqn:Eo;
    simpl in H; [discriminate |].
  pose proof (os_OpenFile_inv _ _ _ _ _ Eo) as (Hq4 & _).
  apply os_OpenFile_env in Eo. destruct Eo as (_ & Hfd4 & _).
  injection H as <- <- <-.
  change (rotateFailedStep (Errorf "failed to open new segment file" e))
    with (Some RotOpen).
  simpl. conjs; auto.
  - intros p. now rewrite (world_step_data _ _ _ _ Hq4), Hd3.
  - intros p. destruct Hq4 as (_ & _ & _ & Hy). rewrite Hy, Hy3. apply Hs2.
  - now rewrite Hi1.
  - rewrite <- Hcl. apply is_open_fdtable. congruence.
Qed.

End RotationFailure.

Section RotationFailureOfAppend.

Context {P : Type}.
Variable jsonMarshal : LogEntry P -> option string.

(** An append whose rotation fails. *)
Lemma WriteLog_rotate_failed (topic : string) (payload : P) (w w' : WAL)
    (o o' : World) (e : error) :
  WriteLog jsonMarshal topic payload (w, o) = (Some e, (w', o')) ->
  failedStep e = Some AtRotate ->
  wal_wf w ->
  let seg := name (currentSegment w) in
  exists js c,
    e = Errorf "failed to rotate segment" c
    /\ jsonMarshal {| Offset := offset w; Topic := topic; Payload := payload |}
       = Some js
    /\ (forall p, file_data o' p =
                  if decide (p = seg)
                  then file_data o seg +:+ buf (writer w) +:+ js +:+ String "010" ""
                  else file_data o p)
    /\ file_synced o' seg = file_data o' seg
    /\ maxSegmentSize <= Z.of_nat (String.length (file_data o' seg))
    /\ offset w' = wrap64 (offset w + 1)
    /\ currentSegment w' = currentSegment w
    /\ wal_wf w'
    /\ match rotateFailedStep c with
       | Some RotFlush =>
           currentSegmentIndex w' = currentSegmentIndex w
           /\ is_open o' (currentSegment w') = true
       | Some RotClose =>
           currentSegmentIndex w' = currentSegmentIndex w
           /\ is_open o' (currentSegment w') = false
       | Some RotOpen =>
           currentSegmentIndex w' = wrap64 (currentSegmentIndex w + 1)
           /\ is_open o' (currentSegment w') = false
       | None => False
       end.
Proof.
  intros H Hstep Hwf seg.
  unfold WriteLog, bind in H. unfold getWAL at 1, gets in H. simpl in H.
  destruct (Encode _ _ (w, o)) as [[c|] [w1 o1]] eqn:He.
  { injection H as <- <- <-. discriminate. }
  destruct (FlushE (w1, o1)) as [[c|] [w2 o2]] eqn:Hf.
  { injection H as <- <- <-. simpl in Hstep.
    destruct c as [| | | | | | | |msg c']; try discriminate.
    simpl in Hstep.
    destruct (String.eqb msg "failed to flush writer"); [discriminate |].
    destruct (String.eqb msg "failed to sync segment file"); discriminate. }
  destruct (written_and_synced _ _ _ _ _ _ _ _ He Hf Hwf)
    as (Hpos & Hb2 & Hw2 & js & evs & Hjs & Hq & Ht & Hk & Hd & Hsy).
  simpl in Hjs, Ht, Hd, Hsy. fold seg in Hd, Hsy.
  destruct Hpos as (Hoff & Hidx & Hseg & Hdir & Hwr).
  pose proof (FlushE_env _ _ _ _ _ Hf) as (Hfd2 & _ & _ & Hopen & _).
  specialize (Hopen eq_refl).
  assert (Hseg1 : currentSegment w1 = currentSegment w).
  { apply Encode_inv in He. now destruct He as ((_ & _ & Hc & _) & _). }
  rewrite Hseg1 in Hopen.
  unfold getWAL, gets, liftW, modifyWAL, modify, ret in H. simpl in H.
  destruct (file_Stat (currentSegment w2) o2) as [[sz|c] o3] eqn:Est;
    simpl in H.
  2:{ injection H as <- <- <-. discriminate. }
  pose proof (file_Stat_inv _ _ _ _ Est) as (Hst & Hsz).
  apply file_Stat_env in Est. destruct Est as (Hfd3 & _).
  pose proof (world_step_data _ _ _ _ Hst) as Hd3.
  destruct Hst as (Ht3 & Hk3 & _ & Hsy3).
  destruct (maxSegmentSize <=? sz) eqn:Esz; [| discriminate].
  apply Z.leb_le in Esz.
  destruct (rotateSegment _) as [[c|] [w4 o4]] eqn:Er; [| discriminate].
  injection H as <- <- <-.
  apply rotateSegment_failed in Er; [| exact Hw2 | exact Hb2].
  simpl in Er.
  destruct Er as (Ho4 & Hc4 & Hw4 & Hdir4 & Hf4 & Hs4 & Hcase).
  assert (Hdata : forall p, file_data o4 p =
                    if decide (p = seg)
                    then file_data o seg +:+ buf (writer w) +:+ js +:+ String "010" ""
                    else file_data o p).
  { intros p. now rewrite Hf4, Hd3, Hd. }
  assert (Hds : file_data o4 seg = file_data o2 seg).
  { now rewrite Hf4, Hd3. }
  assert (Hsy2 : file_synced o2 seg = file_data o2 seg).
  { rewrite Hsy. destruct (decide (seg = seg)) as [_|Hne];
      [reflexivity | now elim Hne]. }
  exists js, c. split; [reflexivity |]. split; [exact Hjs |].
  split; [exact Hdata |].
  split.
  { rewrite Hds. destruct (Hs4 seg) as [-> | ->].
    - now rewrite Hsy3.
    - now rewrite Hd3. }
  split.
  { rewrite Hds. rewrite Hsz in Esz. unfold seg. now rewrite <- Hseg. }
  split; [now rewrite Ho4, Hoff |].
  split; [now rewrite Hc4 |].
  split; [unfold wal_wf in *; rewrite Hw4, Hc4; congruence |].
  rewrite Hc4, Hseg.
  destruct (rotateFailedStep c) as [[| |]|]; auto.
  - destruct Hcase as [-> Hfd4]. rewrite Hseg in *. split; [exact Hidx |].
    rewrite <- Hopen. apply is_open_fdtable. congruence.
  - destruct Hcase as [-> Hcl]. now rewrite Hseg in Hcl.
  - destruct Hcase as [-> Hcl]. rewrite Hseg in Hcl. now rewrite Hidx.
Qed.

End RotationFailureOfAppend.

Section ClosedSegment.

Context {P : Type}.
Variable jsonMarshal : LogEntry P -> option string.

(** An append on an engine whose current segment is closed. *)
Lemma WriteLog_closed (topic : string) (payload : P) (w w' : WAL)
    (o o' : World) (r : option error) :
  WriteLog jsonMarshal topic payload (w, o) = (r, (w', o')) ->
  wal_wf w -> is_open o (currentSegment w) = false ->
  (exists e k, r = Some e /\ failedStep e = Some k
               /\ (k = AtEncode \/ k = AtFlush \/ k = AtSync))
  /\ same_position w w'
  /\ same_files o o'
  /\ fdtable o' = fdtable o.
Proof.
  intros H Hwf Hcl.
  unfold WriteLog, bind in H. unfold getWAL at 1, gets in H. simpl in H.
  destruct (Encode _ _ (w, o)) as [[c|] [w1 o1]] eqn:He;
    pose proof (Encode_inv _ _ _ _ _ _ _ He) as (Hpos1 & _);
    apply Encode_env in He; destruct He as (Hfd1 & _ & _ & Hc1 & _);
    rewrite Hwf in Hc1; specialize (Hc1 Hcl); destruct Hc1 as (Hf1 & _).
  { injection H as <- <- <-. split; [| auto].
    exists (Errorf "failed to encode log entry" c), AtEncode. auto. }
  destruct (FlushE (w1, o1)) as [[c|] [w2 o2]] eqn:Hf;
    pose proof (FlushE_inv _ _ _ _ _ Hf) as (Hpos2 & Hinv);
    apply FlushE_env in Hf; destruct Hf as (Hfd2 & _ & _ & Hop2 & Hc2 & _).
  - injection H as <- <- <-.
    assert (Hcl1 : is_open o1 (wr (writer w1)) = false).
    { destruct Hpos1 as (_ & _ & _ & _ & ->). rewrite Hwf, <- Hcl.
      now apply is_open_fdtable. }
    destruct (Hc2 Hcl1) as (Hf2 & _).
    split.
    { destruct Hinv as (c0 & evs & written & _ & [[-> _] | [-> _]]).
      - exists (Errorf "failed to flush log entry"
                  (Errorf "failed to flush writer" c0)), AtFlush. auto.
      - exists (Errorf "failed to flush log entry"
                  (Errorf "failed to sync segment file" c0)), AtSync. auto. }
    split; [eapply same_position_trans; eauto |].
    split; [| congruence].
    intros p. now rewrite Hf2, Hf1.
  - specialize (Hop2 eq_refl).
    destruct Hpos1 as (_ & _ & Hs1 & _). rewrite Hs1 in Hop2.
    rewrite (is_open_fdtable o o1 _ Hfd1) in Hop2. congruence.
Qed.

End ClosedSegment.


Section BrokenWriter.

Context {P : Type}.
Variable jsonMarshal : LogEntry P -> option string.

Lemma Encode_broken (entry : LogEntry P) (w w' : WAL) (o o' : World)
    (err : option error) :
  Encode jsonMarshal entry (w, o) = (err, (w', o')) ->
  writer_broken w ->
  err <> None /\ writer_broken w' /\ same_files o o'
  /\ trace o' = (trace o ++ [EvEncode (Offset entry) (Topic entry)])%list.
Proof.
  intros H Hbr.
  unfold Encode, bind, liftW, getWAL, gets, modifyWAL, modify, ret, emit in H.
  simpl in H.
  destruct (enc_err (encoder w)) as [e|] eqn:Ee.
  { injection H as <- <- <-.
    split; [discriminate |]. split; [right; congruence |].
    split; [intros p; reflexivity | reflexivity]. }
  destruct Hbr as [Hbr | Hbr]; [| congruence].
  destruct (jsonMarshal entry) as [js|].
  2:{ injection H as <- <- <-.
      split; [discriminate |]. split; [now left |].
      split; [intros p; reflexivity | reflexivity]. }
  unfold Writer_Write in H.
  destruct (werr (writer w)) as [e|] eqn:Ew; [| congruence].
  simpl in H. injection H as <- <- <-.
  split; [discriminate |]. split; [right; discriminate |].
  split; [intros p; reflexivity | reflexivity].
Qed.

(** An append on an engine whose writer is in error. *)
Lemma WriteLog_broken (topic : string) (payload : P) (w w' : WAL)
    (o o' : World) (r : option error) :
  WriteLog jsonMarshal topic payload (w, o) = (r, (w', o')) ->
  writer_broken w ->
  (exists c, r = Some (Errorf "failed to encode log entry" c))
  /\ same_position w w'
  /\ same_files o o'
  /\ writer_broken w'
  /\ trace o' = (trace o ++ [EvEncode (offset w) topic])%list.
Proof.
  intros H Hbr.
  unfold WriteLog, bind in H. unfold getWAL at 1, gets in H. simpl in H.
  destruct (Encode _ _ (w, o)) as [err [w1 o1]] eqn:He.
  pose proof (Encode_inv _ _ _ _ _ _ _ He) as (Hpos & _).
  destruct (Encode_broken _ _ _ _ _ _ He Hbr) as (Hne & Hbr1 & Hf & Ht).
  destruct err as [c|]; [| congruence].
  injection H as <- <- <-. eauto 10.
Qed.

End BrokenWriter.

Section Runs.

Context {P : Type}.
Variable jsonMarshal : LogEntry P -> option string.

Lemma FlushE_flush_failure (w w' : WAL) (o o' : World) (c : error) :
  FlushE (w, o) = (Some (Errorf "failed to flush writer" c), (w', o')) ->
  werr (writer w') = Some c.
Proof.
  unfold FlushE, bind, liftW, getWAL, gets, modifyWAL, modify, ret.
  simpl.
  destruct (Writer_Flush (writer w) o) as [[e b] o1] eqn:Ef.
  apply Writer_Flush_inv in Ef. destruct Ef as (_ & _ & Hf).
  destruct e as [e|]; simpl.
  - intros [= <- <- <-]. simpl. apply Hf.
  - destruct (file_Sync (currentSegment w) o1) as [[e|] o2]; discriminate.
Qed.

Lemma WriteLog_flush_breaks (topic : string) (payload : P) (w w' : WAL)
    (o o' : World) (e : error) :
  WriteLog jsonMarshal topic payload (w, o) = (Some e, (w', o')) ->
  failedStep e = Some AtFlush ->
  writer_broken w' /\ same_position w w'.
Proof.
  intros H Hstep.
  unfold WriteLog, bind in H. unfold getWAL at 1, gets in H. simpl in H.
  destruct (Encode _ _ (w, o)) as [[c|] [w1 o1]] eqn:He.
  { injection H as <- <- <-. discriminate. }
  apply Encode_inv in He. destruct He as (Hpos1 & _).
  destruct (FlushE (w1, o1)) as [[c|] [w2 o2]] eqn:Hf.
  { injection H as <- <- <-.
    pose proof (FlushE_inv _ _ _ _ _ Hf) as (Hpos2 & c0 & evs & written & _ & Hc).
    split; [| eapply same_position_trans; eauto].
    destruct Hc as [[-> _] | [-> _]]; [| discriminate].
    left. rewrite (FlushE_flush_failure _ _ _ _ _ Hf). discriminate. }
  unfold getWAL, gets, liftW, modifyWAL, modify, ret in H. simpl in H.
  destruct (file_Stat (currentSegment w2) o2) as [[sz|c] o3]; simpl in H.
  - destruct (maxSegmentSize <=? sz); [| discriminate].
    destruct (rotateSegment _) as [[c|] s4]; [| discriminate].
    injection H as <- _. discriminate.
  - injection H as <- <- <-. discriminate.
Qed.

(** A run of appends on an engine whose writer is in error. *)
Lemma appendAll_broken (reqs : list (string * P)) :
  forall (w w' : WAL) (o o' : World) (rs : list (option error)),
    appendAll jsonMarshal reqs (w, o) = (rs, (w', o')) ->
    writer_broken w ->
    length rs = length reqs
    /\ Forall (fun r => exists c,
                 r = Some (Errorf "failed to encode log entry" c)) rs
    /\ same_position w w'
    /\ same_files o o'
    /\ trace o' = (trace o ++ map (fun req => EvEncode (offset w) (fst req)) reqs)%list.
Proof.
  induction reqs as [|req rest IH]; intros w w' o o' rs H Hbr.
  - injection H as <- <- <-. simpl. rewrite app_nil_r.
    conjs; auto using same_position_refl. intros p; reflexivity.
  - rewrite appendAll_cons in H.
    destruct (WriteLog _ _ _ (w, o)) as [r [w1 o1]] eqn:Hw.
    destruct (appendAll _ rest (w1, o1)) as [rs1 [w2 o2]] eqn:Hr.
    injection H as <- <- <-.
    destruct (WriteLog_broken _ _ _ _ _ _ _ _ Hw Hbr)
      as (Hr1 & Hpos1 & Hf1 & Hbr1 & Ht1).
    destruct (IH _ _ _ _ _ Hr Hbr1) as (Hlen & Hall & Hpos2 & Hf2 & Ht2).
    split; [simpl; congruence |].
    split; [constructor; assumption |].
    split; [eapply same_position_trans; eauto |].
    split; [intros p; now rewrite Hf2, Hf1 |].
    rewrite Ht2, Ht1. destruct Hpos1 as (-> & _). simpl.
    now rewrite <- app_assoc.
Qed.

(** A run of appends on an engine whose current segment is closed. *)
Lemma appendAll_closed (reqs : list (string * P)) :
  forall (w w' : WAL) (o o' : World) (rs : list (option error)),
    appendAll jsonMarshal reqs (w, o) = (rs, (w', o')) ->
    wal_wf w -> is_open o (currentSegment w) = false ->
    length rs = length reqs
    /\ Forall (fun r => exists e k,
                 r = Some e /\ failedStep e = Some k
                 /\ (k = AtEncode \/ k = AtFlush \/ k = AtSync)) rs
    /\ same_position w w'
    /\ same_files o o'
    /\ is_open o' (currentSegment w') = false.
Proof.
  induction reqs as [|req rest IH]; intros w w' o o' rs H Hwf Hcl.
  - injection H as <- <- <-. simpl.
    conjs; auto using same_position_refl. intros p; reflexivity.
  - rewrite appendAll_cons in H.
    destruct (WriteLog _ _ _ (w, o)) as [r [w1 o1]] eqn:Hw.
    destruct (appendAll _ rest (w1, o1)) as [rs1 [w2 o2]] eqn:Hr.
    injection H as <- <- <-.
    destruct (WriteLog_closed _ _ _ _ _ _ _ _ Hw Hwf Hcl)
      as (Hr1 & Hpos1 & Hf1 & Hfd1).
    assert (Hwf1 : wal_wf w1).
    { destruct Hpos1 as (_ & _ & Hs & _ & Hwr). unfold wal_wf in *. congruence. }
    assert (Hcl1 : is_open o1 (currentSegment w1) = false).
    { destruct Hpos1 as (_ & _ & -> & _). rewrite <- Hcl.
      now apply is_open_fdtable. }
    destruct (IH _ _ _ _ _ Hr Hwf1 Hcl1) as (Hlen & Hall & Hpos2 & Hf2 & Hcl2).
    split; [simpl; congruence |].
    split; [constructor; assumption |].
    split; [eapply same_position_trans; eauto |].
    split; [intros p; now rewrite Hf2, Hf1 | exact Hcl2].
Qed.

End Runs.

(** ** Files only grow *)

Lemma same_files_grows (path : string) (o o' : World) :
  same_files o o' -> grows path o o'.
Proof.
  intros H. exists "". intros p. rewrite H, append_nil_r.
  now destruct (decide _).
Qed.

Lemma world_step_grows (evs : list Event) (path bytes : string) (o o' : World) :
  world_step evs path bytes o o' -> grows path o o'.
Proof. intros (_ & _ & Hd & _). now exists bytes. Qed.

Lemma grows_trans (path : string) (o1 o2 o3 : World) :
  grows path o1 o2 -> grows path o2 o3 -> grows path o1 o3.
Proof.
  intros [b1 H1] [b2 H2]. exists (b1 +:+ b2). intros p.
  rewrite H2, H1. destruct (decide _); [now rewrite append_assoc | reflexivity].
Qed.

Section Growth.

Context {P : Type}.
Variable jsonMarshal : LogEntry P -> option string.

Lemma FlushE_grows (w w' : WAL) (o o' : World) (err : option error) :
  FlushE (w, o) = (err, (w', o')) -> grows (name (wr (writer w))) o o'.
Proof.
  intros H. apply FlushE_inv in H. destruct H as (_ & H).
  destruct err as [e|].
  - destruct H as (c & evs & written & _ & [[_ Hs] | [_ Hs]]);
      eapply world_step_grows; eauto.
  - destruct H as (_ & _ & o1 & Hs & (_ & _ & Hd & _)).
    eapply grows_trans; [eapply world_step_grows; eauto |].
    now apply same_files_grows.
Qed.

Lemma rotateSegment_grows (w w' : WAL) (o o' : World) (err : option error) :
  rotateSegment (w, o) = (err, (w', o')) -> grows (name (wr (writer w))) o o'.
Proof.
  intros H. unfold rotateSegment, bind in H.
  destruct (FlushE (w, o)) as [[e|] [w1 o1]] eqn:Ef;
    apply FlushE_grows in Ef.
  { now injection H as <- <- <-. }
  unfold getWAL, gets, liftW, modifyWAL, modify, ret in H. simpl in H.
  destruct (file_Close (currentSegment w1) o1) as [r o2] eqn:Ec.
  apply file_Close_inv in Ec.
  pose proof (world_step_data _ _ _ _ Ec) as Hd2.
  destruct r as [e|]; simpl in H.
  { injection H as <- <- <-.
    eapply grows_trans; [exact Ef | now apply same_files_grows]. }
  destruct (segmentFileName _ _ o2) as [path o3] eqn:En.
  apply segmentFileName_frame in En. destruct En as (_ & Hd3 & _).
  simpl in H.
  destruct (os_OpenFile path openFlags o3) as [r o4] eqn:Eo.
  apply os_OpenFile_inv in Eo. destruct Eo as (Hq4 & _).
  pose proof (world_step_data _ _ _ _ Hq4) as Hd4.
  assert (Hg : grows (name (wr (writer w))) o o4).
  { eapply grows_trans; [exact Ef |]. apply same_files_grows.
    intros p. now rewrite Hd4, Hd3, Hd2. }
  destruct r as [f'|e]; simpl in H; now injection H as <- <- <-.
Qed.

Lemma WriteLog_grows (topic : string) (payload : P) (w w' : WAL)
    (o o' : World) (r : option error) :
  WriteLog jsonMarshal topic payload (w, o) = (r, (w', o')) ->
  grows (name (wr (writer w))) o o'.
Proof.
  intros H.
  unfold WriteLog, bind in H. unfold getWAL at 1, gets in H. simpl in H.
  destruct (Encode _ _ (w, o)) as [err [w1 o1]] eqn:He.
  apply Encode_inv in He.
  destruct He as ((_ & _ & _ & _ & Hwr1) & evs & written & _ & Hs & _).
  apply world_step_grows in Hs.
  destruct err as [c|].
  { now injection H as <- <- <-. }
  destruct (FlushE (w1, o1)) as [err [w2 o2]] eqn:Hf.
  pose proof (FlushE_inv _ _ _ _ _ Hf) as ((_ & _ & _ & _ & Hwr2) & _).
  apply FlushE_grows in Hf. rewrite Hwr1 in Hf.
  pose proof (grows_trans _ _ _ _ Hs Hf) as Hg2.
  destruct err as [c|].
  { now injection H as <- <- <-. }
  unfold getWAL, gets, liftW, modifyWAL, modify, ret in H. simpl in H.
  destruct (file_Stat (currentSegment w2) o2) as [r3 o3] eqn:Est.
  apply file_Stat_inv in Est. destruct Est as (Hst & _).
  pose proof (world_step_data _ _ _ _ Hst) as Hd3.
  assert (Hg3 : grows (name (wr (writer w))) o o3).
  { eapply grows_trans; [exact Hg2 | now apply same_files_grows]. }
  destruct r3 as [sz|c]; simpl in H.
  2:{ now injection H as <- <- <-. }
  destruct (maxSegmentSize <=? sz).
  2:{ now injection H as <- <- <-. }
  destruct (rotateSegment _) as [r4 [w4 o4]] eqn:Er.
  apply rotateSegment_grows in Er. simpl in Er. rewrite Hwr2, Hwr1 in Er.
  pose proof (grows_trans _ _ _ _ Hg3 Er) as Hg4.
  destruct r4; now injection H as <- <- <-.
Qed.

End Growth.

Section SyncFailure.

Context {P : Type}.
Variable jsonMarshal : LogEntry P -> option string.

(** When the [fsync] of [FlushE] fails, the buffer has already gone to the
    file. *)
Lemma FlushE_sync_failure (w w' : WAL) (o o' : World) (c : error) :
  FlushE (w, o) = (Some (Errorf "failed to sync segment file" c), (w', o')) ->
  buf (writer w') = "" /\ werr (writer w') = None
  /\ world_step
       ((EvFlush (wr (writer w)) ::
         match buf (writer w) with
         | EmptyString => []
         | _ => [EvWrite (wr (writer w)) (buf (writer w))]
         end) ++ [EvSync (currentSegment w)])
       (name (wr (writer w))) (buf (writer w)) o o'.
Proof.
  unfold FlushE, bind, liftW, getWAL, gets, modifyWAL, modify, ret.
  simpl.
  destruct (Writer_Flush (writer w) o) as [[e b] o1] eqn:Ef.
  apply Writer_Flush_inv in Ef. destruct Ef as (_ & _ & Hf).
  destruct e as [e|]; simpl; [discriminate |].
  destruct Hf as (_ & He & Hb & Hs).
  destruct (file_Sync (currentSegment w) o1) as [[e|] o2] eqn:Es;
    [| discriminate].
  apply file_Sync_inv in Es. intros [= <- <- <-]. simpl.
  split; [exact Hb |]. split; [exact He |].
  pose proof (world_step_trans _ _ _ _ _ _ _ _ Hs
                (world_step_repath _ _ (name (wr (writer w))) _ _ Es)) as Hk.
  rewrite append_nil_r in Hk. exact Hk.
Qed.

End SyncFailure.

Section Progress.

Context {P : Type}.
Variable jsonMarshal : LogEntry P -> option string.

Lemma rotateSegment_healthy (w w' : WAL) (o o' : World) (r : option error) :
  rotateSegment (w, o) = (r, (w', o')) ->
  healthy (w, o) -> faults o = [] ->
  (r = None /\ healthy (w', o') /\ faults o' = [])
  \/ r = Some (Errorf "failed to open new segment file" ErrIsDir).
Proof.
  intros H (Hwf & Hop & He & Hen & Hb) Hfl. simpl in *.
  unfold rotateSegment, bind in H.
  destruct (FlushE (w, o)) as [err [w1 o1]] eqn:Ef.
  pose proof (FlushE_inv _ _ _ _ _ Ef) as ((_ & _ & Hc1 & _ & _) & _).
  apply FlushE_env in Ef. destruct Ef as (Hfd1 & Hfl1 & _ & _ & _ & Hok1).
  rewrite Hwf in Hok1. specialize (Hok1 He Hop Hop Hfl). subst err.
  unfold getWAL, gets, liftW, modifyWAL, modify, ret in H. simpl in H.
  destruct (file_Close (currentSegment w1) o1) as [r2 o2] eqn:Ec.
  apply file_Close_env in Ec. destruct Ec as (_ & Hfl2 & _ & _ & Hok2).
  rewrite Hc1, (is_open_fdtable o o1 _ Hfd1) in Hok2.
  specialize (Hok2 Hop (Hfl1 Hfl)). subst r2. simpl in H.
  destruct (segmentFileName _ _ o2) as [path o3] eqn:En.
  apply segmentFileName_env in En. destruct En as (_ & _ & Hfl3).
  simpl in H.
  destruct (os_OpenFile path openFlags o3) as [[f'|e] o4] eqn:Eo;
    apply os_OpenFile_env in Eo; destruct Eo as (Hfl4 & Ho4);
    simpl in H; injection H as <- <- <-.
  - left. split; [reflexivity |]. destruct Ho4 as (Hopen & _).
    assert (Hf4 : faults o4 = []) by (apply Hfl4; rewrite Hfl3; auto).
    split; [| exact Hf4].
    unfold healthy, wal_wf. simpl. auto.
  - right. destruct Ho4 as (_ & Hdir).
    destruct Hdir as [-> _]; [rewrite Hfl3; auto | discriminate | reflexivity].
Qed.

(** An append on a healthy engine, in a world where no system call fails
    any more. *)
Lemma WriteLog_healthy (topic : string) (payload : P) (w w' : WAL)
    (o o' : World) (r : option error) :
  WriteLog jsonMarshal topic payload (w, o) = (r, (w', o')) ->
  healthy (w, o) -> faults o = [] ->
  jsonMarshal {| Offset := offset w; Topic := topic; Payload := payload |}
    <> None ->
  (r = None /\ healthy (w', o') /\ faults o' = [])
  \/ r = Some errNextSegmentIsDir.
Proof.
  intros H (Hwf & Hop & He & Hen & Hb) Hfl Hjs. simpl in *.
  unfold WriteLog, bind in H. unfold getWAL at 1, gets in H. simpl in H.
  destruct (Encode _ _ (w, o)) as [err [w1 o1]] eqn:Hen1.
  pose proof (Encode_inv _ _ _ _ _ _ _ Hen1)
    as ((_ & _ & Hc1 & _ & Hwr1) & evs & written & _ & _ & Hm).
  apply Encode_env in Hen1.
  destruct Hen1 as (Hfd1 & Hfl1 & Henc1 & _ & Hok1).
  rewrite Hwf in Hok1. specialize (Hok1 Hen Hjs He Hop Hfl). subst err.
  destruct Hm as (js & _ & He1 & _). specialize (Henc1 eq_refl).
  destruct (FlushE (w1, o1)) as [err [w2 o2]] eqn:Hf.
  pose proof (FlushE_inv _ _ _ _ _ Hf) as ((_ & _ & Hc2 & _ & Hwr2) & Hinv).
  apply FlushE_env in Hf.
  destruct Hf as (Hfd2 & Hfl2 & Henc2 & _ & _ & Hok2).
  rewrite Hwr1, Hwf, Hc1, (is_open_fdtable o o1 _ Hfd1) in Hok2.
  specialize (Hok2 He1 Hop Hop (Hfl1 Hfl)). subst err.
  destruct Hinv as (Hb2 & He2 & _).
  assert (Hop2 : is_open o2 (currentSegment w2) = true).
  { rewrite Hc2, Hc1, <- Hop. apply is_open_fdtable. congruence. }
  unfold getWAL, gets, liftW, modifyWAL, modify, ret in H. simpl in H.
  destruct (file_Stat (currentSegment w2) o2) as [r3 o3] eqn:Est.
  apply file_Stat_env in Est. destruct Est as (Hfd3 & Hfl3 & _ & Hok3).
  specialize (Hok3 Hop2 (Hfl2 (Hfl1 Hfl))).
  destruct r3 as [sz|c]; [| discriminate]. simpl in H.
  assert (Hh3 : healthy (set_offset (wrap64 (offset w2 + 1)) w2, o3)).
  { unfold healthy, wal_wf. simpl. conjs; auto; try congruence.
    rewrite <- Hop2. now apply is_open_fdtable. }
  assert (Hf3 : faults o3 = []) by auto.
  destruct (maxSegmentSize <=? sz).
  2:{ injection H as <- <- <-. left. auto. }
  destruct (rotateSegment _) as [r4 [w4 o4]] eqn:Er.
  destruct (rotateSegment_healthy _ _ _ _ _ Er Hh3 Hf3) as [(-> & Hh4 & Hf4) | ->];
    injection H as <- <- <-; [left; auto | right; reflexivity].
Qed.

Lemma os_MkdirAll_faults (path : string) (o o' : World) (r : option error) :
  os_MkdirAll path o = (r, o') -> faults o = [] -> faults o' = [].
Proof.
  unfold os_MkdirAll, bind, emit, gets, modify, ret, nextFault. simpl.
  intros H Hf.
  destruct (fs o !! path) as [[|f]|]; simpl in H;
    try (injection H as <- <-; exact Hf).
  change (faults (set_trace _ o)) with (faults o) in H. rewrite Hf in H.
  simpl in H. injection H as <- <-. exact Hf.
Qed.

Lemma findLastSegemtIndex_faults (d : string) (o o' : World)
    (r : Z * option error) :
  findLastSegemtIndex d o = (r, o') ->
  fdtable o' = fdtable o /\ (faults o = [] -> faults o' = []).
Proof.
  unfold findLastSegemtIndex, os_ReadDir, bind, emit, gets, modify, ret,
    nextFault. simpl.
  destruct (fs o !! d) as [[|f]|]; simpl;
    try (intros [= <- <-]; auto; fail).
  destruct (faults o) as [|[c|] rest] eqn:Ef; simpl;
    try (intros [= <- <-]; simpl; split; [reflexivity | congruence]).
  all: destruct (_ =? 0); intros [= <- <-]; simpl;
    (split; [reflexivity | congruence]).
Qed.

(** [newWriteAheadLOG] returns a healthy engine. *)
Lemma newWriteAheadLOG_healthy (o o' : World) (w : WAL) :
  newWriteAheadLOG o = (Ok w, o') ->
  healthy (w, o') /\ (faults o = [] -> faults o' = []).
Proof.
  intros H.
  pose proof (newWriteAheadLOG_ok _ _ _ H) as (_ & Hwf & Hw & He & _).
  unfold newWriteAheadLOG, bind in H.
  destruct (os_MkdirAll walDir o) as [[e|] o1] eqn:Em; [discriminate |].
  pose proof (os_MkdirAll_faults _ _ _ _ Em) as Hfl1.
  destruct (findLastSegemtIndex walDir o1) as [[idx err] o2] eqn:Ei.
  apply findLastSegemtIndex_faults in Ei. destruct Ei as (_ & Hfl2).
  destruct err as [e|]; [discriminate |].
  destruct (segmentFileName walDir idx o2) as [path o3] eqn:En.
  apply segmentFileName_env in En. destruct En as (_ & _ & Hfl3).
  destruct (os_OpenFile path openFlags o3) as [[file|e] o4] eqn:Eo;
    [| discriminate].
  apply os_OpenFile_env in Eo. destruct Eo as (Hfl4 & Hopen & _).
  unfold calculateOffset, bind in H.
  destruct (file_Stat file o4) as [[sz|e] o5] eqn:Est; simpl in H.
  2:{ destruct (file_Close file o5); discriminate. }
  apply file_Stat_env in Est. destruct Est as (Hfd5 & Hfl5 & _).
  injection H as <- <-.
  split.
  - unfold healthy. simpl. conjs; auto.
    rewrite <- Hopen. now apply is_open_fdtable.
  - intros Hf. apply Hfl5, Hfl4. rewrite Hfl3. auto.
Qed.

End Progress.

(** ** Paths *)

Lemma uint_string_slash_free (d : Decimal.uint) :
  slash_free (NilEmpty.string_of_uint d) = true.
Proof. induction d; simpl; auto. Qed.

Lemma itoa_slash_free (z : Z) : slash_free (itoa z) = true.
Proof.
  unfold itoa, NilZero.string_of_int, NilZero.string_of_uint.
  destruct (Z.to_int z) as [d|d]; destruct d; simpl;
    auto using uint_string_slash_free.
Qed.

Lemma slash_free_app (s1 s2 : string) :
  slash_free s1 = true -> slash_free s2 = true -> slash_free (s1 +:+ s2) = true.
Proof.
  intros H1 H2. induction s1 as [|c s1 IH]; [now rewrite append_nil_l |].
  rewrite append_cons. simpl in *. apply andb_true_iff in H1 as [-> H1].
  simpl. auto.
Qed.

Lemma segmentBaseName_slash_free (i : Z) : slash_free (segmentBaseName i) = true.
Proof.
  unfold segmentBaseName. apply slash_free_app; [reflexivity |].
  apply slash_free_app; [apply itoa_slash_free | reflexivity].
Qed.

Lemma split_slash_aux_free (s cur : string) :
  slash_free s = true -> split_slash_aux cur s = [cur +:+ s].
Proof.
  revert cur. induction s as [|c s IH]; intros cur H; simpl in *.
  - now rewrite append_nil_r.
  - apply andb_true_iff in H as [Hc H]. apply negb_true_iff in Hc.
    rewrite Hc, IH by exact H. now rewrite append_assoc, append_cons, append_nil_l.
Qed.

Lemma split_slash_aux_app (s t cur : string) :
  split_slash_aux cur (s +:+ String "/" t)
  = (split_slash_aux cur s ++ split_slash_aux "" t)%list.
Proof.
  revert cur. induction s as [|c s IH]; intros cur.
  - rewrite append_nil_l. reflexivity.
  - rewrite append_cons. simpl. destruct (Ascii.eqb c "/").
    + now rewrite IH.
    + apply IH.
Qed.

Lemma split_slash_base (d b : string) :
  slash_free b = true -> split_slash (d +:+ "/" +:+ b) = (split_slash d ++ [b])%list.
Proof.
  intros Hb. unfold split_slash.
  change ("/" +:+ b) with (String "/" b).
  rewrite split_slash_aux_app, (split_slash_aux_free b "" Hb).
  now rewrite append_nil_l.
Qed.

Lemma join_slash_snoc (l : list string) (b : string) :
  join_slash (l ++ [b]) =
  match l with
  | [] => b
  | _ => join_slash l +:+ "/" +:+ b
  end.
Proof.
  induction l as [|x l IH]; [reflexivity |].
  destruct l as [|y l]; [reflexivity |].
  change (join_slash ((x :: y :: l) ++ [b]))
    with (x +:+ "/" +:+ join_slash ((y :: l) ++ [b])).
  rewrite IH.
  change (join_slash (x :: y :: l)) with (x +:+ "/" +:+ join_slash (y :: l)).
  now rewrite !append_assoc.
Qed.

(** A base name is an ordinary path element when it starts with a letter
    other than a dot and has no separator. *)
Lemma clean_step_name (rooted : bool) (stack : list string) (c : ascii)
    (rest : string) :
  Ascii.eqb c "." = false ->
  clean_step rooted stack (String c rest) = String c rest :: stack.
Proof.
  intros Hc. unfold clean_step. simpl. now rewrite Hc.
Qed.

Lemma kept_snoc (rooted : bool) (d : string) (c : ascii) (rest : string) :
  Ascii.eqb c "." = false ->
  slash_free (String c rest) = true ->
  rev (fold_left (clean_step rooted)
         (split_slash (d +:+ "/" +:+ String c rest)) [])
  = (rev (fold_left (clean_step rooted) (split_slash d) []) ++ [String c rest])%list.
Proof.
  intros Hc Hb. rewrite (split_slash_base _ _ Hb), fold_left_app.
  simpl. now rewrite (clean_step_name _ _ _ _ Hc).
Qed.

Lemma filepath_Join_base (d : string) (c : ascii) (rest : string) :
  Ascii.eqb c "." = false ->
  slash_free (String c rest) = true ->
  filepath_Join [d; String c rest] = dirPrefix d +:+ String c rest.
Proof.
  intros Hc Hb.
  destruct d as [|c0 d].
  - (* the empty directory is skipped *)
    simpl. unfold filepath_Clean.
    assert (Hr : Ascii.eqb c "/" = false).
    { simpl in Hb. apply andb_true_iff in Hb as [Hb _].
      now apply negb_true_iff in Hb. }
    rewrite Hr. unfold split_slash.
    rewrite (split_slash_aux_free _ "" Hb), append_nil_l. simpl.
    rewrite (clean_step_name _ _ _ _ Hc). reflexivity.
  - change (filepath_Join [String c0 d; String c rest])
      with (filepath_Clean (String c0 d +:+ "/" +:+ String c rest)).
    unfold filepath_Clean, dirPrefix. rewrite append_cons. cbv zeta.
    rewrite <- (append_cons c0 d ("/" +:+ String c rest)).
    rewrite (kept_snoc _ _ _ _ Hc Hb), join_slash_snoc.
    set (kept := rev (fold_left _ _ _)).
    destruct (Ascii.eqb c0 "/"); destruct kept as [|k kept];
      rewrite ?append_nil_l, ?append_nil_r, ?append_assoc; reflexivity.
Qed.

Lemma segmentPath_prefix (d : string) (i : Z) :
  segmentPath d i = dirPrefix d +:+ segmentBaseName i.
Proof.
  unfold segmentPath.
  pose proof (segmentBaseName_slash_free i) as Hf.
  unfold segmentBaseName, segmentPrefix in *.
  change ("wal_" +:+ itoa i +:+ ".log")
    with (String "w" ("al_" +:+ itoa i +:+ ".log")) in *.
  now apply filepath_Join_base.
Qed.

Lemma append_cancel_l (p s1 s2 : string) : p +:+ s1 = p +:+ s2 -> s1 = s2.
Proof.
  induction p as [|c p IH]; rewrite ?append_nil_l; [auto |].
  rewrite !append_cons. intros [= H]. auto.
Qed.

Lemma segmentBaseName_inj (i j : Z) :
  segmentBaseName i = segmentBaseName j -> i = j.
Proof.
  unfold segmentBaseName. intros H. apply append_cancel_l in H.
  apply itoa_inj.
  rewrite <- (TrimSuffix_append (itoa i) ".log"), H.
  apply TrimSuffix_append.
Qed.

(** ** The listing of a directory and the files of the world *)

Lemma prefix_split (p s : string) :
  String.prefix p s = true -> s = p +:+ string_drop (String.length p) s.
Proof.
  revert s. induction p as [|c p IH]; intros s H.
  - now rewrite append_nil_l.
  - destruct s as [|c' s]; [discriminate |]. simpl in H.
    destruct (ascii_dec c c') as [->|]; [| discriminate].
    rewrite append_cons. simpl. f_equal. now apply IH.
Qed.

Lemma split_slash_aux_nonempty (s cur : string) :
  (1 <= length (split_slash_aux cur s))%nat.
Proof.
  revert cur. induction s as [|c s IH]; intros cur; simpl; [lia |].
  destruct (Ascii.eqb c "/"); simpl; [lia | apply IH].
Qed.

Lemma split_slash_aux_length (s cur : string) :
  slash_free s = false -> (2 <= length (split_slash_aux cur s))%nat.
Proof.
  revert cur. induction s as [|c s IH]; intros cur H; simpl in *.
  - discriminate.
  - destruct (Ascii.eqb c "/"); simpl in *.
    + pose proof (split_slash_aux_nonempty s ""). lia.
    + now apply IH.
Qed.

Lemma split_slash_single (s base : string) :
  split_slash s = [base] -> base = s /\ slash_free s = true.
Proof.
  unfold split_slash. intros H.
  destruct (slash_free s) eqn:E.
  - rewrite (split_slash_aux_free _ _ E), append_nil_l in H.
    injection H as <-. auto.
  - apply (split_slash_aux_length s "") in E. rewrite H in E. simpl in E. lia.
Qed.

(** The entry of a file that lies directly in the directory. *)
Lemma entry_in_base (d b : string) (n : Node) :
  slash_free b = true -> b <> "" ->
  entry_in d (d +:+ "/" +:+ b) n
  = Some {| Name := b; IsDir := match n with Dir => true | Reg _ => false end |}.
Proof.
  intros Hf Hne. unfold entry_in, HasPrefix.
  rewrite <- append_assoc, prefix_append, drop_append.
  unfold split_slash. rewrite (split_slash_aux_free _ _ Hf), append_nil_l.
  destruct (String.eqb_spec b ""); [contradiction | reflexivity].
Qed.

Lemma entry_in_inv (d path : string) (n : Node) (e : DirEntry) :
  entry_in d path n = Some e ->
  path = d +:+ "/" +:+ Name e
  /\ slash_free (Name e) = true /\ Name e <> ""
  /\ IsDir e = match n with Dir => true | Reg _ => false end.
Proof.
  unfold entry_in, HasPrefix.
  destruct (String.prefix (d +:+ "/") path) eqn:Ep; [| discriminate].
  apply prefix_split in Ep.
  destruct (split_slash _) as [|base [|x l]] eqn:Es; try discriminate.
  apply split_slash_single in Es. destruct Es as [-> Hf].
  destruct (String.eqb_spec (string_drop (String.length (d +:+ "/")) path) "")
    as [|Hne]; [discriminate |].
  intros [= <-]. simpl. rewrite append_assoc in Ep. auto.
Qed.

Lemma list_dir_spec (o : World) (d : string) (e : DirEntry) :
  In e (list_dir o d) <->
  exists path n, fs o !! path = Some n /\ entry_in d path n = Some e.
Proof.
  unfold list_dir. rewrite <- list_elem_of_In, merge_sort_Permutation.
  rewrite list_elem_of_omap. split.
  - intros [[path n] [Hin He]]. apply elem_of_map_to_list in Hin. eauto.
  - intros (path & n & Hin & He). exists (path, n).
    split; [now apply elem_of_map_to_list | exact He].
Qed.

Lemma os_ReadDir_entries (d : string) (o o' : World) (entries : list DirEntry) :
  os_ReadDir d o = (Ok entries, o') -> entries = list_dir o d.
Proof.
  unfold os_ReadDir, bind, emit, gets, modify, ret, nextFault. simpl.
  destruct (fs o !! d) as [[|f]|]; simpl; try discriminate.
  change (faults (set_trace _ o)) with (faults o).
  destruct (faults o) as [|[c|] rest]; simpl; try discriminate;
    now intros [= <- _].
Qed.

Lemma os_ReadDir_listing (d : string) (o : World) :
  fs o !! d = Some Dir -> hd None (faults o) = None ->
  fst (os_ReadDir d o) = Ok (list_dir o d).
Proof.
  intros Hd Hf.
  unfold os_ReadDir, bind, emit, gets, modify, ret, nextFault. simpl.
  rewrite Hd. change (faults (set_trace _ o)) with (faults o).
  destruct (faults o) as [|[c|] rest]; simpl in *; try discriminate;
    reflexivity.
Qed.

Lemma segmentPath_inj (d : string) (i j : Z) :
  segmentPath d i = segmentPath d j -> i = j.
Proof.
  rewrite !segmentPath_prefix. intros H.
  apply append_cancel_l in H. now apply segmentBaseName_inj.
Qed.

Lemma segmentPath_walDir (i : Z) :
  segmentPath walDir i = walDir +:+ "/" +:+ segmentBaseName i.
Proof. rewrite segmentPath_prefix. reflexivity. Qed.

Lemma os_MkdirAll_existing (path : string) (o : World) :
  fs o !! path = Some Dir ->
  os_MkdirAll path o = (None, snd (emit (EvMkdirAll path) o)).
Proof.
  intros H. unfold os_MkdirAll, bind, emit, gets, modify, ret. simpl.
  now rewrite H.
Qed.

(** The locator finds every segment file of the directory. *)
Lemma findLastSegemtIndex_at_least (o : World) (k : Z) (f : File) :
  fs o !! walDir = Some Dir -> hd None (faults o) = None ->
  0 < k -> in_int64 k ->
  fs o !! segmentPath walDir k = Some (Reg f) ->
  k <= fst (fst (findLastSegemtIndex walDir o)).
Proof.
  intros Hd Hf Hk Hr Hfile.
  pose proof (os_ReadDir_listing _ _ Hd Hf) as Hl.
  unfold findLastSegemtIndex, bind, ret.
  destruct (os_ReadDir walDir o) as [r o1]. simpl in Hl. subst r.
  set (e := {| Name := segmentBaseName k; IsDir := false |}).
  assert (Hin : In e (list_dir o walDir)).
  { apply list_dir_spec. exists (segmentPath walDir k), (Reg f).
    split; [exact Hfile |]. rewrite segmentPath_walDir.
    apply entry_in_base; [apply segmentBaseName_slash_free |].
    unfold segmentBaseName, segmentPrefix. discriminate. }
  assert (He : entryIndex e = Some k).
  { apply entryIndex_segmentName; [reflexivity |]. repeat split; auto; apply Hr. }
  destruct (scan_fold (list_dir o walDir) 0) as (_ & Hub & _).
  specialize (Hub _ _ Hin He).
  destruct (Z.eqb_spec (fold_left scanEntry (list_dir o walDir) 0) 0);
    simpl; lia.
Qed.

(** * Further properties of the engine *)

(** ** What an append does to the files *)

(** X1: an append, whatever its outcome, changes no byte that is already in
    a file: the current segment can only gain bytes at its end, and every
    other file is left as it was. *)
Theorem WriteLog_only_appends_to_current_segment :
  forall (P : Type) (jsonMarshal : LogEntry P -> option string)
         (topic : string) (payload : P) (w w' : WAL) (o o' : World)
         (r : option error),
    WriteLog jsonMarshal topic payload (w, o) = (r, (w', o')) ->
    wal_wf w ->
    exists written,
      forall p, file_data o' p =
                if decide (p = name (currentSegment w))
                then file_data o p +:+ written
                else file_data o p.
Proof.
  intros P jsonMarshal topic payload w w' o o' r H Hwf.
  apply WriteLog_grows in H. now rewrite Hwf in H.
Qed.

Lemma WriteLog_only_appends_to_current_segment_witness :
  exists written,
    forall p,
      file_data (snd (snd (WriteLog demoMarshal "orders" payload1
                             (freshWAL, statFailsWorld)))) p
      = if decide (p = "wal_data/wal_1.log")
        then file_data statFailsWorld p +:+ written
        else file_data statFailsWorld p.
Proof.
  set (r := WriteLog demoMarshal "orders" payload1 (freshWAL, statFailsWorld)).
  assert (H : WriteLog demoMarshal "orders" payload1 (freshWAL, statFailsWorld)
              = (fst r, (fst (snd r), snd (snd r))))
    by (vm_compute; reflexivity).
  exact (WriteLog_only_appends_to_current_segment _ _ _ _ _ _ _ _ _ H eq_refl).
Defined.

(** X2: over any run of appends, successful or not and across rotations,
    the content every file had at the start is still there at the end, as
    a prefix of what the file holds then: the log is append-only. *)
Theorem appendAll_never_rewrites :
  forall (P : Type) (jsonMarshal : LogEntry P -> option string)
         (reqs : list (string * P)) (w w' : WAL) (o o' : World)
         (rs : list (option error)),
    appendAll jsonMarshal reqs (w, o) = (rs, (w', o')) ->
    forall p, exists written, file_data o' p = file_data o p +:+ written.
Proof.
  intros P jsonMarshal reqs.
  induction reqs as [|req rest IH]; intros w w' o o' rs H p.
  - injection H as <- <- <-. exists "". now rewrite append_nil_r.
  - rewrite appendAll_cons in H.
    destruct (WriteLog _ _ _ (w, o)) as [r [w1 o1]] eqn:Hw.
    destruct (appendAll _ rest (w1, o1)) as [rs1 [w2 o2]] eqn:Hr.
    injection H as <- <- <-.
    apply WriteLog_grows in Hw. destruct Hw as [b1 H1].
    destruct (IH _ _ _ _ _ Hr p) as [b2 H2].
    rewrite H2, H1. destruct (decide _).
    + exists (b1 +:+ b2). now rewrite append_assoc.
    + now exists b2.
Qed.

Lemma appendAll_never_rewrites_witness :
  exists written,
    file_data (snd (snd (appendAll demoMarshal rotatingRun (freshWAL, freshWorld))))
      "wal_data/wal_1.log"
    = file_data freshWorld "wal_data/wal_1.log" +:+ written.
Proof.
  set (r := appendAll demoMarshal rotatingRun (freshWAL, freshWorld)).
  assert (H : appendAll demoMarshal rotatingRun (freshWAL, freshWorld)
              = (fst r, (fst (snd r), snd (snd r))))
    by (vm_compute; reflexivity).
  exact (appendAll_never_rewrites _ _ _ _ _ _ _ _ H "wal_data/wal_1.log").
Defined.

(** X3: in every state that an opened engine can reach, an append that
    reports success has added exactly one line to the current segment, the
    marshalled entry with the counter value of before the call followed by
    a newline; the [fsync] came after the writes of the call, and the line
    is durable when the call returns.  No other file has changed. *)
Theorem successful_append_is_durable :
  forall (P : Type) (jsonMarshal : LogEntry P -> option string)
         (topic : string) (payload : P) (w w' : WAL) (o o' : World),
    reachable jsonMarshal (w, o) ->
    WriteLog jsonMarshal topic payload (w, o) = (None, (w', o')) ->
    let seg := currentSegment w in
    exists js,
      jsonMarshal {| Offset := offset w; Topic := topic; Payload := payload |}
        = Some js
      /\ file_data o' (name seg)
         = file_data o (name seg) +:+ js +:+ String "010" ""
      /\ file_synced o' (name seg) = file_data o' (name seg)
      /\ (forall p, p <> name seg -> file_data o' p = file_data o p)
      /\ exists evs rest,
           writer_events evs
           /\ trace o' = (trace o ++ EvEncode (offset w) topic :: evs
                                  ++ EvSync seg :: rest)%list.
Proof.
  intros P jsonMarshal topic payload w w' o o' Hr H seg.
  destruct (reachable_invariant _ _ Hr) as (Hwf & Hc & Hbc). simpl in *.
  destruct (WriteLog_ok _ _ _ _ _ _ _ H Hwf)
    as (js & evs & Hjs & Hq & Hd & Hsy & _ & _ & _ & _ & Hrot).
  assert (Hw : werr (writer w) = None).
  { destruct (werr (writer w)) as [e|] eqn:Ew; [| reflexivity].
    assert (Hbr : writer_broken w) by (left; congruence).
    destruct (WriteLog_broken _ _ _ _ _ _ _ _ H Hbr) as ([c Hc'] & _).
    discriminate. }
  exists js. split; [exact Hjs |].
  fold seg in Hd, Hsy, Hrot.
  assert (Hdata : file_data o' (name seg)
                  = file_data o (name seg) +:+ js +:+ String "010" "").
  { rewrite Hd. destruct (decide (name seg = name seg)) as [_|Hne];
      [| now elim Hne]. now rewrite (Hbc Hw). }
  split; [exact Hdata |].
  split.
  { rewrite Hsy, Hd. now destruct (decide (name seg = name seg)). }
  split.
  { intros p Hp. rewrite Hd. destruct (decide (p = name seg)); [contradiction | reflexivity]. }
  exists evs. destruct (maxSegmentSize <=? _).
  - destruct Hrot as (_ & _ & _ & _ & Ht & _). eexists. split; [exact Hq |].
    rewrite Ht. reflexivity.
  - destruct Hrot as (_ & _ & _ & Ht & _). eexists. split; [exact Hq |].
    rewrite Ht. reflexivity.
Qed.

Lemma successful_append_is_durable_witness :
  let r := WriteLog demoMarshal "orders" payload1 (freshWAL, freshWorld) in
  file_data (snd (snd r)) "wal_data/wal_1.log" = demoLine firstEntry
  /\ file_synced (snd (snd r)) "wal_data/wal_1.log" = demoLine firstEntry.
Proof.
  set (r := WriteLog demoMarshal "orders" payload1 (freshWAL, freshWorld)).
  assert (H : WriteLog demoMarshal "orders" payload1 (freshWAL, freshWorld)
              = (None, (fst (snd r), snd (snd r))))
    by (vm_compute; reflexivity).
  assert (Hr : reachable demoMarshal (freshWAL, freshWorld)).
  { destruct freshWorld_spec as (Ho & _).
    exact (reach_open demoMarshal emptyWorld _ _ cache_consistent_empty Ho). }
  destruct (successful_append_is_durable _ _ _ _ _ _ _ _ Hr H)
    as (js & Hjs & Hd & Hs & _).
  injection Hjs as <-. simpl.
  split; [etransitivity; [exact Hd | vm_compute; reflexivity] |].
  etransitivity; [exact Hs |]. etransitivity; [exact Hd |].
  vm_compute. reflexivity.
Defined.

(** ** Appends that fail after the write *)

(** X4: when the [fsync] of an append fails, the caller gets an error and
    the counter stays, but the line of the rejected entry is already in the
    segment file, not yet durable.  The next successful append writes its
    own line behind it, with the same offset, and makes both durable. *)
Theorem sync_failure_leaves_record_in_file :
  forall (P : Type) (jsonMarshal : LogEntry P -> option string)
         (topic : string) (payload : P) (w w' : WAL) (o o' : World) (e : error),
    WriteLog jsonMarshal topic payload (w, o) = (Some e, (w', o')) ->
    failedStep e = Some AtSync ->
    wal_wf w ->
    let seg := name (currentSegment w) in
    exists js,
      jsonMarshal {| Offset := offset w; Topic := topic; Payload := payload |}
        = Some js
      /\ file_data o' seg
         = file_data o seg +:+ buf (writer w) +:+ js +:+ String "010" ""
      /\ file_synced o' seg = file_synced o seg
      /\ offset w' = offset w
      /\ forall (topic2 : string) (payload2 : P) (w'' : WAL) (o'' : World),
           WriteLog jsonMarshal topic2 payload2 (w', o') = (None, (w'', o'')) ->
           exists js2,
             jsonMarshal {| Offset := offset w; Topic := topic2;
                            Payload := payload2 |} = Some js2
             /\ file_synced o'' seg
                = file_data o' seg +:+ js2 +:+ String "010" "".
Proof.
  intros P jsonMarshal topic payload w w' o o' e H Hstep Hwf seg.
  unfold WriteLog, bind in H. unfold getWAL at 1, gets in H. simpl in H.
  destruct (Encode _ _ (w, o)) as [[c|] [w1 o1]] eqn:He.
  { injection H as <- <- <-. discriminate. }
  apply Encode_inv in He.
  destruct He as ((Ho1 & Hi1 & Hc1 & Hd1 & Hw1) & evs & written & _ & Hs1 & Hm).
  destruct Hm as (js & Hjs & _ & Hbuf). simpl in Hjs.
  destruct (FlushE (w1, o1)) as [[c|] [w2 o2]] eqn:Hf.
  2:{ unfold getWAL, gets, liftW, modifyWAL, modify, ret in H. simpl in H.
      destruct (file_Stat (currentSegment w2) o2) as [[sz|c] o3]; simpl in H.
      - destruct (maxSegmentSize <=? sz); [| discriminate].
        destruct (rotateSegment _) as [[c|] s4]; [| discriminate].
        injection H as <- _. discriminate.
      - injection H as <- <- <-. discriminate. }
  injection H as <- <- <-.
  pose proof (FlushE_inv _ _ _ _ _ Hf)
    as ((Ho2 & Hi2 & Hc2 & Hd2 & Hw2) & c0 & evs2 & written2 & _ & Hc).
  assert (Hsync : c = Errorf "failed to sync segment file" c0).
  { destruct Hc as [[-> _] | [-> _]]; [discriminate | reflexivity]. }
  subst c. clear Hc.
  apply FlushE_sync_failure in Hf. destruct Hf as (Hb2 & He2 & Hs2).
  rewrite Hw1 in Hs2.
  pose proof (world_step_trans _ _ _ _ _ _ _ _ Hs1 Hs2) as Hs.
  rewrite Hbuf, Hwf in Hs. destruct Hs as (_ & _ & Hd & Hsy).
  assert (Hdata : file_data o2 seg
                  = file_data o seg +:+ buf (writer w) +:+ js +:+ String "010" "").
  { rewrite Hd. fold seg. destruct (decide (seg = seg)) as [_|Hne];
      [reflexivity | now elim Hne]. }
  exists js. split; [exact Hjs |]. split; [exact Hdata |].
  split; [apply Hsy |]. split; [congruence |].
  intros topic2 payload2 w'' o'' H2.
  assert (Hwf2 : wal_wf w2) by (unfold wal_wf in *; congruence).
  destruct (WriteLog_ok _ _ _ _ _ _ _ H2 Hwf2)
    as (js2 & _ & Hjs2 & _ & _ & Hsy'' & _).
  exists js2. split; [rewrite <- Ho1, <- Ho2; exact Hjs2 |].
  rewrite Hsy'', Hc2, Hc1, Hb2. fold seg.
  destruct (decide (seg = seg)) as [_|Hne]; [| now elim Hne].
  now rewrite append_nil_l.
Qed.

Lemma sync_failure_leaves_record_in_file_witness :
  let r1 := WriteLog demoMarshal "orders" payload1 (freshWAL, syncFailsWorld) in
  let r2 := WriteLog demoMarshal "orders" payload2 (snd r1) in
  file_data (snd (snd r1)) "wal_data/wal_1.log"
    = demoLine {| Offset := 1; Topic := "orders"; Payload := payload1 |}
  /\ file_synced (snd (snd r1)) "wal_data/wal_1.log" = ""
  /\ file_synced (snd (snd r2)) "wal_data/wal_1.log"
     = demoLine {| Offset := 1; Topic := "orders"; Payload := payload1 |}
       +:+ demoLine {| Offset := 1; Topic := "orders"; Payload := payload2 |}.
Proof.
  set (r1 := WriteLog demoMarshal "orders" payload1 (freshWAL, syncFailsWorld)).
  set (r2 := WriteLog demoMarshal "orders" payload2 (snd r1)).
  assert (H1 : WriteLog demoMarshal "orders" payload1 (freshWAL, syncFailsWorld)
               = (Some (Errorf "failed to flush log entry"
                          (Errorf "failed to sync segment file" (Errno 5))),
                  (fst (snd r1), snd (snd r1))))
    by (vm_compute; reflexivity).
  assert (H2 : WriteLog demoMarshal "orders" payload2 (fst (snd r1), snd (snd r1))
               = (None, (fst (snd r2), snd (snd r2))))
    by (vm_compute; reflexivity).
  destruct (sync_failure_leaves_record_in_file _ _ _ _ _ _ _ _ _ H1 eq_refl eq_refl)
    as (js & Hjs & Hd & Hsy & _ & Hnext).
  destruct (Hnext _ _ _ _ H2) as (js2 & Hjs2 & Hsy2).
  injection Hjs as <-. injection Hjs2 as <-.
  split; [etransitivity; [exact Hd | vm_compute; reflexivity] |].
  split; [etransitivity; [exact Hsy | vm_compute; reflexivity] |].
  etransitivity; [exact Hsy2 |].
  etransitivity; [apply (f_equal (fun x => x +:+ _)); exact Hd |].
  vm_compute. reflexivity.
Defined.

(** ** Rotations that fail *)

(** X5: when the rotation at the end of an append fails, the append
    returns an error although its record is committed: the line is in the
    segment and durable, the segment has reached the size limit, and the
    counter has advanced by one. *)
Theorem rotation_failure_keeps_record :
  forall (P : Type) (jsonMarshal : LogEntry P -> option string)
         (topic : string) (payload : P) (w w' : WAL) (o o' : World) (e : error),
    WriteLog jsonMarshal topic payload (w, o) = (Some e, (w', o')) ->
    failedStep e = Some AtRotate ->
    wal_wf w ->
    let seg := name (currentSegment w) in
    exists js,
      jsonMarshal {| Offset := offset w; Topic := topic; Payload := payload |}
        = Some js
      /\ file_data o' seg
         = file_data o seg +:+ buf (writer w) +:+ js +:+ String "010" ""
      /\ file_synced o' seg = file_data o' seg
      /\ maxSegmentSize <= Z.of_nat (String.length (file_data o' seg))
      /\ (forall p, p <> seg -> file_data o' p = file_data o p)
      /\ offset w' = wrap64 (offset w + 1)
      /\ currentSegment w' = currentSegment w.
Proof.
  intros P jsonMarshal topic payload w w' o o' e H Hstep Hwf seg.
  destruct (WriteLog_rotate_failed _ _ _ _ _ _ _ _ H Hstep Hwf)
    as (js & c & _ & Hjs & Hd & Hsy & Hsz & Hoff & Hseg & _).
  fold seg in Hd, Hsy, Hsz.
  exists js. split; [exact Hjs |].
  split.
  { rewrite Hd. destruct (decide (seg = seg)) as [_|Hne];
      [reflexivity | now elim Hne]. }
  split; [exact Hsy |]. split; [exact Hsz |].
  split; [| auto].
  intros p Hp. rewrite Hd. destruct (decide (p = seg)); [contradiction | reflexivity].
Qed.

Lemma rotation_failure_keeps_record_witness :
  let r := WriteLog demoMarshal "orders" bigPayload (freshWAL, openFailsWorld) in
  fst r = Some (Errorf "failed to rotate segment"
                  (Errorf "failed to open new segment file" (Errno 13)))
  /\ file_synced (snd (snd r)) "wal_data/wal_1.log" = demoLine bigEntry
  /\ offset (fst (snd r)) = 2.
Proof.
  set (r := WriteLog demoMarshal "orders" bigPayload (freshWAL, openFailsWorld)).
  assert (H : WriteLog demoMarshal "orders" bigPayload (freshWAL, openFailsWorld)
              = (Some (Errorf "failed to rotate segment"
                         (Errorf "failed to open new segment file" (Errno 13))),
                 (fst (snd r), snd (snd r))))
    by (vm_compute; reflexivity).
  destruct (rotation_failure_keeps_record _ _ _ _ _ _ _ _ _ H eq_refl eq_refl)
    as (js & Hjs & Hd & Hsy & _ & _ & Hoff & _).
  injection Hjs as <-.
  split; [vm_compute; reflexivity |].
  split; [| exact Hoff].
  etransitivity; [exact Hsy |]. etransitivity; [exact Hd |].
  vm_compute. reflexivity.
Defined.

(** X6: a rotation that fails at [Close] or at [OpenFile] leaves the engine
    with the closed descriptor of the old segment, and nothing ever
    reopens one: every later append fails at its encode, flush or fsync
    step, writes no byte to any file, and leaves the counter, the index
    and the current segment as they are.  The segment index has already
    been incremented when it is [OpenFile] that failed. *)
Theorem rotation_failure_is_permanent :
  forall (P : Type) (jsonMarshal : LogEntry P -> option string)
         (topic : string) (payload : P) (w w' w'' : WAL) (o o' o'' : World)
         (c : error) (reqs : list (string * P)) (rs : list (option error)),
    WriteLog jsonMarshal topic payload (w, o)
      = (Some (Errorf "failed to rotate segment" c), (w', o')) ->
    wal_wf w ->
    rotateFailedStep c <> Some RotFlush ->
    appendAll jsonMarshal reqs (w', o') = (rs, (w'', o'')) ->
    is_open o' (currentSegment w') = false
    /\ currentSegmentIndex w'
       = match rotateFailedStep c with
         | Some RotOpen => wrap64 (currentSegmentIndex w + 1)
         | _ => currentSegmentIndex w
         end
    /\ length rs = length reqs
    /\ Forall (fun r => exists e k,
                 r = Some e /\ failedStep e = Some k
                 /\ (k = AtEncode \/ k = AtFlush \/ k = AtSync)) rs
    /\ (forall p, file_data o'' p = file_data o' p)
    /\ offset w'' = offset w'
    /\ currentSegmentIndex w'' = currentSegmentIndex w'
    /\ currentSegment w'' = currentSegment w'
    /\ is_open o'' (currentSegment w'') = false.
Proof.
  intros P jsonMarshal topic payload w w' w'' o o' o'' c reqs rs H Hwf Hc Hrun.
  destruct (WriteLog_rotate_failed _ _ _ _ _ _ _ _ H eq_refl Hwf)
    as (js & c' & [= <-] & _ & _ & _ & _ & _ & _ & Hwf' & Hcase).
  assert (Hcl : is_open o' (currentSegment w') = false
                /\ currentSegmentIndex w'
                   = match rotateFailedStep c with
                     | Some RotOpen => wrap64 (currentSegmentIndex w + 1)
                     | _ => currentSegmentIndex w
                     end).
  { destruct (rotateFailedStep c) as [[| |]|];
      [now elim Hc | | | contradiction]; destruct Hcase; auto. }
  destruct Hcl as (Hcl & Hidx).
  destruct (appendAll_closed _ _ _ _ _ _ _ Hrun Hwf' Hcl)
    as (Hlen & Hall & (Ho & Hi & Hs & _) & Hf & Hcl').
  auto 10.
Qed.

Lemma rotation_failure_is_permanent_witness :
  let r := WriteLog demoMarshal "orders" bigPayload (freshWAL, openFailsWorld) in
  let rs := appendAll demoMarshal twoAppends (snd r) in
  currentSegmentIndex (fst (snd r)) = 2
  /\ fst rs = [Some (Errorf "failed to flush log entry"
                       (Errorf "failed to flush writer" ErrClosed));
               Some (Errorf "failed to encode log entry" ErrClosed)]
  /\ (forall p, file_data (snd (snd rs)) p = file_data (snd (snd r)) p).
Proof.
  set (r := WriteLog demoMarshal "orders" bigPayload (freshWAL, openFailsWorld)).
  set (rs := appendAll demoMarshal twoAppends (snd r)).
  assert (H : WriteLog demoMarshal "orders" bigPayload (freshWAL, openFailsWorld)
              = (Some (Errorf "failed to rotate segment"
                         (Errorf "failed to open new segment file" (Errno 13))),
                 (fst (snd r), snd (snd r))))
    by (vm_compute; reflexivity).
  assert (Hrun : appendAll demoMarshal twoAppends (fst (snd r), snd (snd r))
                 = (fst rs, (fst (snd rs), snd (snd rs))))
    by (vm_compute; reflexivity).
  assert (Hc : rotateFailedStep (Errorf "failed to open new segment file" (Errno 13))
               <> Some RotFlush) by discriminate.
  destruct (rotation_failure_is_permanent _ _ _ _ _ _ _ _ _ _ _ _ _
              H eq_refl Hc Hrun)
    as (_ & Hidx & _ & _ & Hf & _).
  split; [exact Hidx |]. split; [vm_compute; reflexivity | exact Hf].
Defined.

(** X7: once a flush of the buffered writer has failed, the writer keeps
    the error: every later append fails at its encode step without a
    single system call, no byte reaches any file, and the counter, the
    index and the current segment stay as they are. *)
Theorem flush_failure_is_permanent :
  forall (P : Type) (jsonMarshal : LogEntry P -> option string)
         (topic : string) (payload : P) (w w' w'' : WAL) (o o' o'' : World)
         (e : error) (reqs : list (string * P)) (rs : list (option error)),
    WriteLog jsonMarshal topic payload (w, o) = (Some e, (w', o')) ->
    failedStep e = Some AtFlush ->
    appendAll jsonMarshal reqs (w', o') = (rs, (w'', o'')) ->
    length rs = length reqs
    /\ Forall (fun r => exists c,
                 r = Some (Errorf "failed to encode log entry" c)) rs
    /\ trace o'' = (trace o' ++ map (fun req => EvEncode (offset w) (fst req)) reqs)%list
    /\ (forall p, file_data o'' p = file_data o' p)
    /\ offset w'' = offset w
    /\ currentSegmentIndex w'' = currentSegmentIndex w
    /\ currentSegment w'' = currentSegment w.
Proof.
  intros P jsonMarshal topic payload w w' w'' o o' o'' e reqs rs H Hstep Hrun.
  destruct (WriteLog_flush_breaks _ _ _ _ _ _ _ _ H Hstep)
    as (Hbr & Ho & Hi & Hs & _).
  destruct (appendAll_broken _ _ _ _ _ _ _ Hrun Hbr)
    as (Hlen & Hall & (Ho' & Hi' & Hs' & _) & Hf & Ht).
  rewrite Ho in Ht.
  split; [exact Hlen |]. split; [exact Hall |]. split; [exact Ht |].
  split; [exact Hf |]. split; [congruence |]. split; congruence.
Qed.

Lemma flush_failure_is_permanent_witness :
  let r := WriteLog demoMarshal "orders" payload1 (freshWAL, flushFailsWorld) in
  let rs := appendAll demoMarshal twoAppends (snd r) in
  fst r = Some (Errorf "failed to flush log entry"
                  (Errorf "failed to flush writer" (Errno 5)))
  /\ faults (snd (snd r)) = []
  /\ Forall (fun r => exists c,
               r = Some (Errorf "failed to encode log entry" c)) (fst rs)
  /\ offset (fst (snd rs)) = 1.
Proof.
  set (r := WriteLog demoMarshal "orders" payload1 (freshWAL, flushFailsWorld)).
  set (rs := appendAll demoMarshal twoAppends (snd r)).
  assert (H : WriteLog demoMarshal "orders" payload1 (freshWAL, flushFailsWorld)
              = (Some (Errorf "failed to flush log entry"
                         (Errorf "failed to flush writer" (Errno 5))),
                 (fst (snd r), snd (snd r))))
    by (vm_compute; reflexivity).
  assert (Hrun : appendAll demoMarshal twoAppends (fst (snd r), snd (snd r))
                 = (fst rs, (fst (snd rs), snd (snd rs))))
    by (vm_compute; reflexivity).
  destruct (flush_failure_is_permanent _ _ _ _ _ _ _ _ _ _ _ _ _
              H eq_refl Hrun)
    as (_ & Hall & _ & _ & Hoff & _).
  split; [vm_compute; reflexivity |]. split; [vm_compute; reflexivity |].
  split; [exact Hall | exact Hoff].
Defined.

(** ** Appends that succeed *)

(** X8: in a world where no system call fails any more, a run of appends
    on a healthy engine (open descriptor, no pending error, empty buffer)
    whose entries can all be marshalled succeeds throughout, rotations
    included, and leaves the engine healthy.  The one exception is a
    rotation that finds a directory at the path of the next segment. *)
Theorem healthy_appends_succeed :
  forall (P : Type) (jsonMarshal : LogEntry P -> option string)
         (reqs : list (string * P)) (w w' : WAL) (o o' : World)
         (rs : list (option error)),
    appendAll jsonMarshal reqs (w, o) = (rs, (w', o')) ->
    healthy (w, o) ->
    faults o = [] ->
    (forall entry, jsonMarshal entry <> None) ->
    (Forall (fun r => r = None) rs /\ length rs = length reqs
     /\ healthy (w', o'))
    \/ In (Some errNextSegmentIsDir) rs.
Proof.
  intros P jsonMarshal reqs.
  induction reqs as [|req rest IH]; intros w w' o o' rs H Hh Hf Hm.
  - injection H as <- <- <-. left. auto.
  - rewrite appendAll_cons in H.
    destruct (WriteLog _ _ _ (w, o)) as [r [w1 o1]] eqn:Hw.
    destruct (appendAll _ rest (w1, o1)) as [rs1 [w2 o2]] eqn:Hr.
    injection H as <- <- <-.
    destruct (WriteLog_healthy _ _ _ _ _ _ _ _ Hw Hh Hf (Hm _))
      as [(-> & Hh1 & Hf1) | ->]; [| right; now left].
    destruct (IH _ _ _ _ _ Hr Hh1 Hf1 Hm) as [(Hall & Hlen & Hh2) | Hin].
    + left. split; [constructor; auto |]. split; [simpl; congruence | exact Hh2].
    + right. now right.
Qed.

Lemma healthy_appends_succeed_witness :
  let r := appendAll demoMarshal rotatingRun (freshWAL, freshWorld) in
  fst r = [None; None]
  /\ ((Forall (fun r => r = None) (fst r) /\ length (fst r) = length rotatingRun
       /\ healthy (snd r))
      \/ In (Some errNextSegmentIsDir) (fst r)).
Proof.
  set (r := appendAll demoMarshal rotatingRun (freshWAL, freshWorld)).
  assert (H : appendAll demoMarshal rotatingRun (freshWAL, freshWorld)
              = (fst r, (fst (snd r), snd (snd r))))
    by (vm_compute; reflexivity).
  assert (Hh : healthy (freshWAL, freshWorld)).
  { destruct freshWorld_spec as (Ho & _).
    exact (proj1 (newWriteAheadLOG_healthy _ _ _ Ho)). }
  assert (Hm : forall entry, demoMarshal entry <> None) by discriminate.
  split; [vm_compute; reflexivity |].
  replace (snd r) with (fst (snd r), snd (snd r)) by (vm_compute; reflexivity).
  exact (healthy_appends_succeed _ _ _ _ _ _ _ _ H Hh eq_refl Hm).
Defined.

(** ** Opening the log *)

(** X9: [newWriteAheadLOG] either returns a healthy engine, or fails with
    one of three errors: the directory could not be created, the segment
    could not be opened, or its size could not be read.  The error branch
    for the segment locator is never taken.  A failed call changes the
    content of no file and leaves no descriptor open that was not open
    before: the descriptor of the segment is closed again when [Stat]
    fails. *)
Theorem newWriteAheadLOG_outcomes :
  forall (o : World),
    let r := newWriteAheadLOG o in
    match fst r with
    | Ok w => healthy (w, snd r)
    | Err e =>
        ((exists c, e = Errorf "failed to create wal directory" c)
         \/ (exists c, e = Errorf "failed to open segment file" c)
         \/ (exists c, e = Errorf "failed to calculate offset" c))
        /\ (forall p, file_data (snd r) p = file_data o p)
        /\ (forall f, is_open (snd r) f = true -> is_open o f = true)
    end.
Proof.
  intros o r. subst r.
  destruct (newWriteAheadLOG o) as [[w|e] o'] eqn:H; simpl.
  { exact (proj1 (newWriteAheadLOG_healthy _ _ _ H)). }
  unfold newWriteAheadLOG, bind in H.
  destruct (os_MkdirAll walDir o) as [r1 o1] eqn:Em.
  pose proof (os_MkdirAll_inv _ _ _ _ Em) as Hs1.
  apply os_MkdirAll_fdtable in Em.
  pose proof (world_step_data _ _ _ _ Hs1) as Hd1.
  destruct r1 as [c|].
  { injection H as <- <-. split; [eauto |]. split; [exact Hd1 |].
    intros f. now rewrite (is_open_fdtable o o1 f Em). }
  destruct (findLastSegemtIndex walDir o1) as [[idx err] o2] eqn:Ei.
  pose proof (findLastSegemtIndex_inv _ _ _ _ Ei) as Hs2.
  pose proof (world_step_data _ _ _ _ Hs2) as Hd2.
  assert (Herr : err = None).
  { revert Ei. unfold findLastSegemtIndex, bind, ret.
    destruct (os_ReadDir walDir o1) as [[l|c] o2']; [| now intros [= _ <- _]].
    destruct (_ =? 0); now intros [= _ <- _]. }
  apply findLastSegemtIndex_faults in Ei. destruct Ei as (Hfd2 & _).
  subst err.
  destruct (segmentFileName walDir idx o2) as [path o3] eqn:En.
  pose proof (segmentFileName_frame _ _ _ _ _ En) as (_ & Hd3 & _).
  apply segmentFileName_env in En. destruct En as (_ & Hfd3 & _).
  destruct (os_OpenFile path openFlags o3) as [[file|c] o4] eqn:Eo;
    pose proof (os_OpenFile_inv _ _ _ _ _ Eo) as (Hs4 & _);
    pose proof (world_step_data _ _ _ _ Hs4) as Hd4;
    apply os_OpenFile_env in Eo; destruct Eo as (_ & Ho4).
  2:{ injection H as <- <-. destruct Ho4 as (Hfd4 & _).
      split; [eauto |].
      split; [intros p; now rewrite Hd4, Hd3, Hd2, Hd1 |].
      intros f. rewrite (is_open_fdtable o o4 f); [auto | congruence]. }
  destruct Ho4 as (Hopen & Hfile & Hfd4).
  unfold calculateOffset, bind in H.
  destruct (file_Stat file o4) as [[sz|c] o5] eqn:Est; simpl in H;
    [discriminate |].
  pose proof (file_Stat_inv _ _ _ _ Est) as (Hs5 & _).
  pose proof (world_step_data _ _ _ _ Hs5) as Hd5.
  apply file_Stat_env in Est. destruct Est as (Hfd5 & _).
  destruct (file_Close file o5) as [r6 o6] eqn:Ec.
  pose proof (file_Close_inv _ _ _ _ Ec) as Hs6.
  pose proof (world_step_data _ _ _ _ Hs6) as Hd6.
  apply file_Close_fdtable in Ec;
    [| rewrite <- Hopen; now apply is_open_fdtable].
  injection H as <- <-.
  split; [eauto |].
  split; [intros p; now rewrite Hd6, Hd5, Hd4, Hd3, Hd2, Hd1 |].
  intros f. unfold is_open.
  rewrite Ec, Hfd5, Hfd4, Hfd3, Hfd2, Em, Hfile. simpl.
  intros Hf. apply bool_decide_eq_true in Hf. apply bool_decide_eq_true.
  destruct (decide (fd f = nextfd o3)) as [E|Hne].
  - rewrite E in Hf. now rewrite lookup_delete_eq in Hf.
  - now rewrite lookup_delete_ne, lookup_insert_ne in Hf by auto.
Qed.

(** ** Segment paths *)

(** X10: within one directory, different indices have different segment
    paths, whatever the directory string is: cleaning the joined path never
    touches the base name. *)
Theorem segmentPath_distinct_indices :
  forall (d : string) (i j : Z), i <> j -> segmentPath d i <> segmentPath d j.
Proof.
  intros d i j Hne H. apply Hne. exact (segmentPath_inj d i j H).
Qed.

Lemma segmentPath_distinct_indices_witness :
  segmentPath "/var//log/../wal/" 1 <> segmentPath "/var//log/../wal/" 10.
Proof.
  apply (segmentPath_distinct_indices "/var//log/../wal/" 1 10). discriminate.
Defined.

(** X11: the path that [segmentFileName] computes on a cache miss is the
    cleaned directory, a separator when that is not empty, and the base
    name; in [wal_data], the directory the engine uses, segment [i] is the
    file [wal_data/wal_<i>.log]. *)
Theorem segmentPath_shape :
  forall (d : string) (i : Z),
    segmentPath d i = dirPrefix d +:+ segmentPrefix +:+ itoa i +:+ ".log"
    /\ segmentPath walDir i = "wal_data/wal_" +:+ itoa i +:+ ".log"
    /\ segmentPath "" i = segmentPrefix +:+ itoa i +:+ ".log".
Proof.
  intros d i. rewrite !segmentPath_prefix. repeat split.
Qed.

(** X12: after an append that rotates, the current segment is another file
    than before, the rotation has written nothing into it, and the next
    append, whatever its outcome, leaves the retired segment as it is. *)
Theorem rotation_retires_old_segment :
  forall (P : Type) (jsonMarshal : LogEntry P -> option string)
         (topic topic2 : string) (payload payload2 : P) (w w' w'' : WAL)
         (o o' o'' : World) (r2 : option error),
    WriteLog jsonMarshal topic payload (w, o) = (None, (w', o')) ->
    wal_wf w ->
    cache_consistent (segmentNameCache o) ->
    name (currentSegment w)
      = segmentPath (directory w) (currentSegmentIndex w) ->
    in_int64 (currentSegmentIndex w + 1) ->
    maxSegmentSize
      <= Z.of_nat (String.length (file_data o' (name (currentSegment w)))) ->
    WriteLog jsonMarshal topic2 payload2 (w', o') = (r2, (w'', o'')) ->
    name (currentSegment w') <> name (currentSegment w)
    /\ name (currentSegment w')
       = segmentPath (directory w') (currentSegmentIndex w')
    /\ file_data o' (name (currentSegment w'))
       = file_data o (name (currentSegment w'))
    /\ file_data o'' (name (currentSegment w))
       = file_data o' (name (currentSegment w)).
Proof.
  intros P jsonMarshal topic topic2 payload payload2 w w' w'' o o' o'' r2
    H Hwf Hc Hname Hidx Hsz H2.
  destruct (WriteLog_ok _ _ _ _ _ _ _ H Hwf)
    as (js & evs & Hjs & Hq & Hd & _ & Hdir & Hwf' & _ & _ & Hrot).
  rewrite Hd in Hsz.
  destruct (decide (name (currentSegment w) = name (currentSegment w)))
    as [_|Hne]; [| now elim Hne].
  apply Z.leb_le in Hsz. rewrite Hsz in Hrot.
  destruct Hrot as (Hi & _ & _ & _ & _ & Hk).
  destruct (Hk Hc) as (Hn' & _).
  rewrite (wrap64_small _ Hidx) in Hi, Hn'.
  assert (Hdiff : name (currentSegment w') <> name (currentSegment w)).
  { rewrite Hn', Hname. intros E. apply segmentPath_inj in E. lia. }
  split; [exact Hdiff |].
  split; [now rewrite Hdir, Hi |].
  split.
  { rewrite Hd. destruct (decide _) as [E|_]; [contradiction | reflexivity]. }
  apply WriteLog_grows in H2. rewrite Hwf' in H2. destruct H2 as [b Hb].
  rewrite Hb. destruct (decide _) as [E|_]; [| reflexivity].
  now elim Hdiff.
Qed.

Lemma rotation_retires_old_segment_witness :
  let r1 := WriteLog demoMarshal "orders" bigPayload (freshWAL, freshWorld) in
  let r2 := WriteLog demoMarshal "orders" payload1 (snd r1) in
  name (currentSegment (fst (snd r1))) <> "wal_data/wal_1.log"
  /\ file_data (snd (snd r2)) "wal_data/wal_1.log"
     = file_data (snd (snd r1)) "wal_data/wal_1.log".
Proof.
  set (r1 := WriteLog demoMarshal "orders" bigPayload (freshWAL, freshWorld)).
  set (r2 := WriteLog demoMarshal "orders" payload1 (snd r1)).
  destruct freshWorld_spec as (_ & Hwf & Hc).
  assert (H1 : WriteLog demoMarshal "orders" bigPayload (freshWAL, freshWorld)
               = (None, (fst (snd r1), snd (snd r1))))
    by (vm_compute; reflexivity).
  assert (H2 : WriteLog demoMarshal "orders" payload1 (fst (snd r1), snd (snd r1))
               = (fst r2, (fst (snd r2), snd (snd r2))))
    by (vm_compute; reflexivity).
  assert (Hn : name (currentSegment freshWAL)
               = segmentPath (directory freshWAL) (currentSegmentIndex freshWAL))
    by (vm_compute; reflexivity).
  assert (Hidx : in_int64 (currentSegmentIndex freshWAL + 1))
    by (unfold in_int64; simpl; lia).
  assert (Hsz : maxSegmentSize
                <= Z.of_nat (String.length
                     (file_data (snd (snd r1)) (name (currentSegment freshWAL)))))
    by (vm_compute; discriminate).
  destruct (rotation_retires_old_segment _ _ _ _ _ _ _ _ _ _ _ _ _
              H1 Hwf Hc Hn Hidx Hsz H2) as (Hd & _ & _ & Hf).
  split; [exact Hd | exact Hf].
Defined.

(** ** The locator and the files of the directory *)

(** X13: the base name that [segmentFileName] gives to an index is read
    back as that index by the loop of [findLastSegemtIndex]: the prefix is
    recognised, prefix and suffix are trimmed, and [Atoi] returns the
    index, so that the loop raises its maximum to it. *)
Theorem segment_name_round_trip :
  forall (i : Z),
    in_int64 i ->
    let e := {| Name := segmentBaseName i; IsDir := false |} in
    entryIndex e = Some i
    /\ forall m, scanEntry m e = Z.max m i.
Proof.
  intros i Hi e.
  assert (He : entryIndex e = Some i).
  { unfold entryIndex, e. simpl.
    unfold segmentBaseName, HasPrefix.
    rewrite prefix_append, TrimPrefix_append, TrimSuffix_append.
    now apply Atoi_itoa. }
  split; [exact He |]. intros m.
  rewrite scanEntry_entryIndex, He.
  destruct (Z.ltb_spec m i); lia.
Qed.

Lemma segment_name_round_trip_witness :
  entryIndex {| Name := "wal_-12.log"; IsDir := false |} = Some (-12)
  /\ forall m, scanEntry m {| Name := "wal_-12.log"; IsDir := false |}
               = Z.max m (-12).
Proof.
  apply (segment_name_round_trip (-12)). unfold in_int64. lia.
Defined.

(** X14: when [wal_data] is a directory that can be read, the index that
    the locator returns is at least the index of every segment file
    [wal_data/wal_<k>.log] with [k > 0] in it, and so is the index of the
    engine that [newWriteAheadLOG] opens there. *)
Theorem findLastSegemtIndex_at_least_existing :
  forall (o : World) (k : Z) (f : File),
    fs o !! walDir = Some Dir ->
    hd None (faults o) = None ->
    0 < k -> in_int64 k ->
    fs o !! segmentPath walDir k = Some (Reg f) ->
    k <= fst (fst (findLastSegemtIndex walDir o))
    /\ forall (w : WAL) (o' : World),
         newWriteAheadLOG o = (Ok w, o') -> k <= currentSegmentIndex w.
Proof.
  intros o k f Hd Hf Hk Hr Hfile.
  split; [now apply (findLastSegemtIndex_at_least o k f) |].
  intros w o' H.
  destruct (newWriteAheadLOG_ok _ _ _ H) as (_ & _ & _ & _ & _ & _ & _ & _ & Hi & _).
  rewrite Hi, (os_MkdirAll_existing _ _ Hd). simpl.
  now apply (findLastSegemtIndex_at_least _ k f).
Qed.

Lemma findLastSegemtIndex_at_least_existing_witness :
  5 <= fst (fst (findLastSegemtIndex walDir resumeWorld))
  /\ forall (w : WAL) (o' : World),
       newWriteAheadLOG resumeWorld = (Ok w, o') -> 5 <= currentSegmentIndex w.
Proof.
  apply (findLastSegemtIndex_at_least_existing resumeWorld 5
           {| data := ""; synced := "" |});
    try reflexivity; unfold in_int64; lia.
Defined.

(** X15: the index that the locator returns is never below 1, and when it
    is not 1 it has been read off the name of an entry of the listing for
    which [IsDir()] is false and that lies directly in the directory: its
    name has no separator and the file system has it at the path of the
    directory, a separator and that name.  The code does not ask whether
    the entry is a regular file. *)
Theorem findLastSegemtIndex_from_an_entry :
  forall (d : string) (o : World),
    let r := fst (fst (findLastSegemtIndex d o)) in
    1 <= r
    /\ (r = 1
        \/ exists entries e n,
             fst (os_ReadDir d o) = Ok entries
             /\ In e entries
             /\ IsDir e = false
             /\ HasPrefix (Name e) segmentPrefix = true
             /\ Atoi (TrimSuffix (TrimPrefix (Name e) segmentPrefix) ".log")
                = Some r
             /\ slash_free (Name e) = true
             /\ fs o !! (d +:+ "/" +:+ Name e) = Some n).
Proof.
  intros d o.
  unfold findLastSegemtIndex, bind, ret.
  destruct (os_ReadDir d o) as [[entries|err] o1] eqn:Er; simpl;
    [| split; [lia | now left]].
  apply os_ReadDir_entries in Er. subst entries.
  destruct (scan_fold (list_dir o d) 0) as (Hle & _ & Hin).
  set (m := fold_left scanEntry (list_dir o d) 0) in *.
  destruct (Z.eqb_spec m 0) as [E|E]; simpl; [split; [lia | now left] |].
  split; [lia |]. right.
  destruct Hin as [Hm | (_ & e & Hin & He)]; [contradiction |].
  pose proof Hin as Hin'.
  apply list_dir_spec in Hin'. destruct Hin' as (path & n & Hp & Hen).
  apply entry_in_inv in Hen. destruct Hen as (-> & Hsf & _ & _).
  destruct (entryIndex_file _ _ He) as (Hnd & Hpre).
  exists (list_dir o d), e, n.
  split; [reflexivity |]. split; [exact Hin |]. split; [exact Hnd |].
  split; [exact Hpre |].
  split; [| auto].
  unfold entryIndex in He. now rewrite Hnd, Hpre in He.
Qed.

(** ** Runs of appends *)

(** X16: over a run of appends that all succeed, the offset counter grows
    by the number of appends plus the number of rotations, and the segment
    index by the number of rotations, of which there is at most one per
    append. *)
Theorem successful_run_offset_count :
  forall (P : Type) (jsonMarshal : LogEntry P -> option string)
         (reqs : list (string * P)) (w w' : WAL) (o o' : World)
         (rs : list (option error)),
    appendAll jsonMarshal reqs (w, o) = (rs, (w', o')) ->
    Forall (fun r => r = None) rs ->
    wal_wf w ->
    in_int64 (offset w) ->
    in_int64 (offset w + 2 * Z.of_nat (length reqs)) ->
    in_int64 (currentSegmentIndex w) ->
    in_int64 (currentSegmentIndex w + Z.of_nat (length reqs)) ->
    let rotations := currentSegmentIndex w' - currentSegmentIndex w in
    offset w' = offset w + Z.of_nat (length reqs) + rotations
    /\ 0 <= rotations <= Z.of_nat (length reqs).
Proof.
  intros P jsonMarshal reqs.
  induction reqs as [|req rest IH];
    intros w w' o o' rs H Hall Hwf Ho1 Ho2 Hi1 Hi2; simpl.
  - injection H as <- <- <-. simpl. lia.
  - rewrite appendAll_cons in H.
    destruct (WriteLog _ _ _ (w, o)) as [r [w1 o1]] eqn:Hw.
    destruct (appendAll _ rest (w1, o1)) as [rs1 [w2 o2]] eqn:Hr.
    injection H as <- <- <-.
    apply Forall_cons in Hall as [-> Hall].
    destruct (WriteLog_ok _ _ _ _ _ _ _ Hw Hwf)
      as (js & evs & _ & _ & _ & _ & _ & Hwf1 & _ & _ & Hrot).
    simpl length in Ho2, Hi2. unfold in_int64 in *.
    assert (Hstep : (currentSegmentIndex w1 = currentSegmentIndex w + 1
                     /\ offset w1 = offset w + 2)
                    \/ (currentSegmentIndex w1 = currentSegmentIndex w
                        /\ offset w1 = offset w + 1)).
    { destruct (maxSegmentSize <=? _).
      - left. destruct Hrot as (-> & -> & _).
        rewrite (wrap64_small (offset w + 1)) by (unfold in_int64; lia).
        rewrite !wrap64_small by (unfold in_int64; lia). split; lia.
      - right. destruct Hrot as (-> & -> & _).
        rewrite wrap64_small by (unfold in_int64; lia). split; lia. }
    assert (IH' := IH _ _ _ _ _ Hr Hall Hwf1).
    destruct Hstep as [[Ei Eo] | [Ei Eo]]; rewrite Ei, Eo in IH';
      simpl in IH'; lia.
Qed.

Lemma successful_run_offset_count_witness :
  let r := appendAll demoMarshal rotatingRun (freshWAL, freshWorld) in
  offset (fst (snd r)) = 1 + 2 + (2 - 1)
  /\ currentSegmentIndex (fst (snd r)) = 2.
Proof.
  set (r := appendAll demoMarshal rotatingRun (freshWAL, freshWorld)).
  assert (H : appendAll demoMarshal rotatingRun (freshWAL, freshWorld)
              = ([None; None], (fst (snd r), snd (snd r))))
    by (vm_compute; reflexivity).
  assert (Hall : Forall (fun r : option error => r = None) [None; None])
    by (repeat constructor).
  assert (Hidx : currentSegmentIndex (fst (snd r)) = 2)
    by (vm_compute; reflexivity).
  destruct (successful_run_offset_count _ _ _ _ _ _ _ _ H Hall eq_refl)
    as (Hoff & _); try (unfold in_int64; simpl; lia).
  split; [| exact Hidx]. rewrite Hoff, Hidx. reflexivity.
Defined.

(** ** The endpoint *)

(** X17: [handleWrite] answers every error of [WriteLog] with status 500
    and the same text.  When the error is that of the rotation, the
    client is told that the write failed although its record is in the
    segment, durable, and the counter has moved past it. *)
Theorem handleWrite_500_after_commit :
  forall (jsonMarshal : LogEntry GoMap -> option string)
         (between late : list (string * GoMap)) (request : Request)
         (payload : GoMap) (w w' : WAL) (o o' : World) (resp : Response)
         (e : error),
    handleWrite jsonMarshal between late request (w, o) = (resp, (w', o')) ->
    decodeMap (RequestBody request) = Ok payload ->
    fst (WriteLog jsonMarshal (requestTopic request) payload (w, o)) = Some e ->
    failedStep e = Some AtRotate ->
    wal_wf w ->
    let seg := name (currentSegment w) in
    resp = http_Error "Failed to write log" StatusInternalServerError
    /\ exists js,
         jsonMarshal {| Offset := offset w; Topic := requestTopic request;
                        Payload := payload |} = Some js
         /\ file_synced o' seg
            = file_data o seg +:+ buf (writer w) +:+ js +:+ String "010" ""
         /\ offset w' = wrap64 (offset w + 1).
Proof.
  intros jsonMarshal between late request payload w w' o o' resp e
    H Hdec Hw Hstep Hwf seg.
  unfold handleWrite in H. fold (requestTopic request) in H.
  rewrite Hdec in H. unfold bind in H.
  destruct (WriteLog _ _ _ (w, o)) as [r [w1 o1]] eqn:Ew.
  simpl in Hw. subst r. injection H as <- <- <-.
  split; [reflexivity |].
  destruct (WriteLog_rotate_failed _ _ _ _ _ _ _ _ Ew Hstep Hwf)
    as (js & c & _ & Hjs & Hd & Hsy & _ & Hoff & _).
  fold seg in Hd, Hsy.
  exists js. split; [exact Hjs |]. split; [| exact Hoff].
  rewrite Hsy, Hd. destruct (decide (seg = seg)) as [_|Hne];
    [reflexivity | now elim Hne].
Qed.

Lemma handleWrite_500_after_commit_witness :
  let r := handleWrite demoMarshal twoAppends [] (postWrite "orders" bigBody)
             (freshWAL, openFailsWorld) in
  fst r = http_Error "Failed to write log" StatusInternalServerError
  /\ file_synced (snd (snd r)) "wal_data/wal_1.log" = demoLine bigEntry
  /\ offset (fst (snd r)) = 2.
Proof.
  set (r := handleWrite demoMarshal twoAppends [] (postWrite "orders" bigBody)
              (freshWAL, openFailsWorld)).
  assert (H : handleWrite demoMarshal twoAppends [] (postWrite "orders" bigBody)
                (freshWAL, openFailsWorld)
              = (fst r, (fst (snd r), snd (snd r))))
    by (vm_compute; reflexivity).
  assert (Hw : fst (WriteLog demoMarshal
                      (requestTopic (postWrite "orders" bigBody)) bigPayload
                      (freshWAL, openFailsWorld))
               = Some (Errorf "failed to rotate segment"
                         (Errorf "failed to open new segment file" (Errno 13))))
    by (vm_compute; reflexivity).
  destruct (handleWrite_500_after_commit _ _ _ _ _ _ _ _ _ _ _
              H eq_refl Hw eq_refl eq_refl)
    as (Hresp & js & Hjs & Hsy & Hoff).
  injection Hjs as <-.
  split; [exact Hresp |]. split; [| exact Hoff].
  etransitivity; [exact Hsy |]. vm_compute. reflexivity.
Defined.

(** ** Entries that cannot be marshalled *)

(** X18: an entry that [json.Marshal] rejects is refused at the encode
    step before anything is buffered or written: the engine is exactly as
    it was, no system call is made, and the error is the marshalling error
    (or the error that the encoder already held). *)
Theorem unmarshallable_entry_changes_nothing :
  forall (P : Type) (jsonMarshal : LogEntry P -> option string)
         (topic : string) (payload : P) (w : WAL) (o : World),
    jsonMarshal {| Offset := offset w; Topic := topic; Payload := payload |}
      = None ->
    exists o',
      WriteLog jsonMarshal topic payload (w, o)
        = (Some (Errorf "failed to encode log entry"
                   match enc_err (encoder w) with
                   | Some e => e
                   | None => ErrMarshal
                   end), (w, o'))
      /\ trace o' = (trace o ++ [EvEncode (offset w) topic])%list
      /\ fs o' = fs o /\ fdtable o' = fdtable o /\ faults o' = faults o
      /\ segmentNameCache o' = segmentNameCache o.
Proof.
  intros P jsonMarshal topic payload w o Hm.
  exists (snd (emit (EvEncode (offset w) topic) o)).
  split; [| repeat split].
  unfold WriteLog, bind. unfold getWAL at 1, gets. simpl.
  unfold Encode, bind, liftW, getWAL, gets, modifyWAL, modify, ret, emit.
  simpl. rewrite Hm. now destruct (enc_err (encoder w)), w.
Qed.

Lemma unmarshallable_entry_changes_nothing_witness :
  exists o',
    WriteLog (fun _ : LogEntry GoMap => None) "orders" payload1
      (freshWAL, freshWorld)
    = (Some (Errorf "failed to encode log entry" ErrMarshal), (freshWAL, o'))
    /\ trace o' = (trace freshWorld ++ [EvEncode 1 "orders"])%list
    /\ fs o' = fs freshWorld /\ fdtable o' = fdtable freshWorld
    /\ faults o' = faults freshWorld
    /\ segmentNameCache o' = segmentNameCache freshWorld.
Proof.
  exact (unmarshallable_entry_changes_nothing GoMap (fun _ => None)
           "orders" payload1 freshWAL freshWorld eq_refl).
Defined.

(** ** The size limit *)

(** X19: a successful append rotates exactly when the current segment,
    with the line just written, has reached [maxSegmentSize] bytes: below
    the limit the call closes and opens no file and keeps index and
    segment; at the limit or above it closes the segment and opens the
    next one.  The check comes after the write, so the last record of a
    segment may take it past the limit. *)
Theorem append_rotates_iff_limit_reached :
  forall (P : Type) (jsonMarshal : LogEntry P -> option string)
         (topic : string) (payload : P) (w w' : WAL) (o o' : World),
    WriteLog jsonMarshal topic payload (w, o) = (None, (w', o')) ->
    wal_wf w ->
    in_int64 (currentSegmentIndex w + 1) ->
    let seg := currentSegment w in
    let sz := Z.of_nat (String.length (file_data o' (name seg))) in
    exists evs,
      trace o' = (trace o ++ evs)%list
      /\ (sz < maxSegmentSize ->
          no_rotation evs
          /\ currentSegmentIndex w' = currentSegmentIndex w
          /\ currentSegment w' = seg)
      /\ (maxSegmentSize <= sz ->
          In (EvClose seg) evs
          /\ In (EvOpenFile (name (currentSegment w')) openFlags) evs
          /\ currentSegmentIndex w' = currentSegmentIndex w + 1).
Proof.
  intros P jsonMarshal topic payload w w' o o' H Hwf Hidx seg sz.
  destruct (WriteLog_ok _ _ _ _ _ _ _ H Hwf)
    as (js & evs & _ & Hq & Hd & _ & _ & _ & _ & _ & Hrot).
  fold seg in Hd, Hrot. subst sz. rewrite Hd.
  destruct (decide (name seg = name seg)) as [_|Hne]; [| now elim Hne].
  destruct (Z.leb_spec maxSegmentSize
              (Z.of_nat (String.length
                 (file_data o (name seg) +:+ buf (writer w)
                  +:+ js +:+ String "010" "")))) as [Hge|Hlt].
  - destruct Hrot as (Hi & _ & _ & _ & Ht & _).
    eexists. split; [exact Ht |]. split; [lia |]. intros _.
    rewrite (wrap64_small _ Hidx) in Hi.
    split; [| split; [| exact Hi]].
    + right. apply in_or_app. right. simpl. auto 10.
    + right. apply in_or_app. right. simpl. auto 10.
  - destruct Hrot as (Hi & _ & Hs & Ht & _).
    eexists. split; [exact Ht |]. split; [| lia]. intros _.
    split; [| auto].
    change (EvEncode (offset w) topic :: evs ++ [EvSync seg; EvStat seg])%list
      with ([EvEncode (offset w) topic] ++ evs ++ [EvSync seg; EvStat seg])%list.
    apply no_rotation_app; [reflexivity |].
    apply no_rotation_app; [now apply writer_events_no_rotation | reflexivity].
Qed.

Lemma append_rotates_iff_limit_reached_witness :
  let below := WriteLog demoMarshal "orders" (payloadOfSize 447)
                 (freshWAL, freshWorld) in
  let at_limit := WriteLog demoMarshal "orders" (payloadOfSize 448)
                    (freshWAL, freshWorld) in
  String.length (file_data (snd (snd below)) "wal_data/wal_1.log") = 499%nat
  /\ currentSegmentIndex (fst (snd below)) = 1
  /\ String.length (file_data (snd (snd at_limit)) "wal_data/wal_1.log") = 500%nat
  /\ currentSegmentIndex (fst (snd at_limit)) = 1 + 1.
Proof.
  set (below := WriteLog demoMarshal "orders" (payloadOfSize 447)
                  (freshWAL, freshWorld)).
  set (at_limit := WriteLog demoMarshal "orders" (payloadOfSize 448)
                     (freshWAL, freshWorld)).
  assert (H1 : WriteLog demoMarshal "orders" (payloadOfSize 447)
                 (freshWAL, freshWorld)
               = (None, (fst (snd below), snd (snd below))))
    by (vm_compute; reflexivity).
  assert (H2 : WriteLog demoMarshal "orders" (payloadOfSize 448)
                 (freshWAL, freshWorld)
               = (None, (fst (snd at_limit), snd (snd at_limit))))
    by (vm_compute; reflexivity).
  assert (Hidx : in_int64 (currentSegmentIndex freshWAL + 1))
    by (unfold in_int64; simpl; lia).
  assert (L1 : String.length (file_data (snd (snd below)) "wal_data/wal_1.log")
               = 499%nat) by (vm_compute; reflexivity).
  assert (L2 : String.length (file_data (snd (snd at_limit)) "wal_data/wal_1.log")
               = 500%nat) by (vm_compute; reflexivity).
  destruct (append_rotates_iff_limit_reached _ _ _ _ _ _ _ _ H1 eq_refl Hidx)
    as (evs1 & _ & Hb & _).
  destruct (append_rotates_iff_limit_reached _ _ _ _ _ _ _ _ H2 eq_refl Hidx)
    as (evs2 & _ & _ & Ha).
  change (name (currentSegment freshWAL)) with "wal_data/wal_1.log" in Hb, Ha.
  rewrite L1 in Hb. rewrite L2 in Ha.
  split; [exact L1 |].
  split; [apply Hb; unfold maxSegmentSize; lia |].
  split; [exact L2 |].
  apply Ha. unfold maxSegmentSize. lia.
Defined.
